(** * WordleAgent: the expectimax scorer, the guess selector and the agent

    A shallow embedding of [src/agent.py] (class [MyWordleAgent] with its
    helpers [Tree] and [Node]) and the properties of its specification.

    Conventions of the embedding:
    - a Python [str] is a [string]; [w[i]] is [index w i], which raises
      [IndexError] out of range; [c in w] on a one-letter [c] is [contains];
    - a Python exception is a constructor of [exn]; a computation that can
      raise returns a [res];
    - the agent's attributes form the record [MyWordleAgent]; a method is a
      function [MyWordleAgent -> res A * MyWordleAgent]: the attributes
      written before an exception stay written, as in Python;
    - the dictionary [cache] is a [gmap string string];
    - a score is a Python number.  The scorer is written over the
      interface [Arith] and read at the instance [float_arith], IEEE 754
      binary64 as CPython computes it. *)

From Stdlib Require Import Bool ZArith Floats Uint63 Ascii String Lia Reals Lra.
From stdpp Require Import base option list gmap strings.

#[local] Open Scope string_scope.
#[local] Open Scope nat_scope.
#[local] Open Scope list_scope.

(** ** Exceptions and results *)

Inductive exn : Type :=
| IndexError
| TypeError
| AttributeError
| OutOfFuel.

Inductive res (A : Type) : Type :=
| Ok (a : A)
| Raise (e : exn).

Arguments Ok {A} a.
Arguments Raise {A} e.

#[global] Instance res_ret : MRet res := fun A a => Ok a.

#[global] Instance res_bind : MBind res := fun A B k r =>
  match r with
  | Ok a => k a
  | Raise e => Raise e
  end.

#[global] Instance res_fmap : FMap res := fun A B f r =>
  match r with
  | Ok a => Ok (f a)
  | Raise e => Raise e
  end.

(** ** Words *)

Abbreviation word := string (only parsing).

(** [w[i]] *)
Definition index (w : word) (i : nat) : res ascii :=
  match String.get i w with
  | Some c => Ok c
  | None => Raise IndexError
  end.

(** [c in w] for a one-letter string [c] *)
Fixpoint contains (c : ascii) (w : word) : bool :=
  match w with
  | EmptyString => false
  | String d w' => Ascii.eqb c d || contains c w'
  end.

(** ** [MyWordleAgent.get_pool] *)

Definition buckets : Type := list word * list word * list word.

(** One iteration of [for word in pool]. *)
Definition get_pool_step (guess : word) (pos : nat) (ret : buckets) (w : word)
  : res buckets :=
  let '(green, yellow, grey) := ret in
  g ← index guess pos;
  c ← index w pos;
  if Ascii.eqb g c then Ok (green ++ [w], yellow, grey)
  else
    g' ← index guess pos;
    if contains g' w then Ok (green, yellow ++ [w], grey)
    else Ok (green, yellow, grey ++ [w]).

Fixpoint get_pool_loop (guess : word) (pos : nat) (pool : list word) (ret : buckets)
  : res buckets :=
  match pool with
  | [] => Ok ret
  | w :: rest =>
      ret' ← get_pool_step guess pos ret w;
      get_pool_loop guess pos rest ret'
  end.

Definition get_pool (guess : word) (pos : nat) (pool : list word) : res buckets :=
  get_pool_loop guess pos pool ([], [], []).

(** The three feedback colours of one letter of the guess against one word,
    as the partition rule words them. *)
Inductive colour : Type := Green | Yellow | Grey.

#[global] Instance colour_eq_dec : EqDecision colour.
Proof. solve_decision. Defined.

Definition colour_at (guess : word) (pos : nat) (w : word) : option colour :=
  match String.get pos guess, String.get pos w with
  | Some g, Some c =>
      Some (if Ascii.eqb g c then Green
            else if contains g w then Yellow else Grey)
  | _, _ => None
  end.

(** The word list of the unit tests, and a pool of six words on which binary64
    rounding shows. *)
Definition answers : list word := ["birch"; "beech"; "cedar"; "ebony"; "maple"].
Definition pool6 : list word := ["abide"; "angel"; "ebola"; "blaze"; "crane"; "moist"].

(** ** Python numbers

    The scorer divides two lengths ([int / int], a true division), multiplies
    the quotient by a score and adds three such products; the selector
    compares scores with [<], starting from [float('inf')].  An [int] that
    meets a [float] is converted first, so an [int] result of the scorer ([1]
    or [pool_len]) is read through [num_of_nat]. *)

Class Arith (T : Type) : Type := {
  num_of_nat : nat -> T;
  num_div : T -> T -> T;
  num_mul : T -> T -> T;
  num_add : T -> T -> T
}.

Class Order (T : Type) : Type := {
  num_ltb : T -> T -> bool;
  num_inf : T
}.

(** CPython's [float] is IEEE 754 binary64.  For lengths below [2^53] the
    true division of two ints is the binary64 division of their exact
    conversions. *)
Definition float_of_nat (n : nat) : float :=
  PrimFloat.of_uint63 (Uint63.of_Z (Z.of_nat n)).

#[global] Instance float_arith : Arith float := {|
  num_of_nat := float_of_nat;
  num_div := PrimFloat.div;
  num_mul := PrimFloat.mul;
  num_add := PrimFloat.add
|}.

#[global] Instance float_order : Order float := {|
  num_ltb := PrimFloat.ltb;
  num_inf := PrimFloat.infinity
|}.

(** ** [Node] and [Tree] *)

#[warnings="-register-all"]
Inductive Node : Type := mkNode {
  node_pool : list word;
  green : option Node;
  yellow : option Node;
  grey : option Node
}.

(** [Node(pool)] *)
Definition Node_init (pool : list word) : Node := mkNode pool None None None.

Record Tree : Type := mkTree {
  val : word;
  root_node : Node
}.

(** [Tree(word, pool)] *)
Definition Tree_init (w : word) (pool : list word) : Tree :=
  mkTree w (Node_init pool).

(** ** [MyWordleAgent.calculate_score] *)

Definition MIN_POOL_SIZE : nat := 1.
Definition LAST_POSITION : nat := 4.

Section Scorer.
Context {T : Type} `{Arith T}.

(** The method mutates [node] in place and returns the score; here it
    returns the score with the node as the call leaves it.  The recursion
    is on [fuel]; [calculate_score] supplies enough of it. *)
Fixpoint calculate_score_fuel (fuel : nat) (guess : word) (pos : nat) (node : Node)
  : res (T * Node) :=
  match fuel with
  | 0 => Raise OutOfFuel
  | S fuel' =>
      let pool_len := length (node_pool node) in
      if pool_len <=? MIN_POOL_SIZE then Ok (num_of_nat 1, node)
      else if LAST_POSITION <? pos then Ok (num_of_nat pool_len, node)
      else
        '(g, y, r) ← get_pool guess pos (node_pool node);
        let n_green := Node_init g in
        let n_yellow := Node_init y in
        let n_grey := Node_init r in
        let w_green := num_div (num_of_nat (length (node_pool n_green))) (num_of_nat pool_len) in
        '(s_green, n_green) ← calculate_score_fuel fuel' guess (pos + 1) n_green;
        let green_score := num_mul w_green s_green in
        let w_yellow := num_div (num_of_nat (length (node_pool n_yellow))) (num_of_nat pool_len) in
        '(s_yellow, n_yellow) ← calculate_score_fuel fuel' guess (pos + 1) n_yellow;
        let yellow_score := num_mul w_yellow s_yellow in
        let w_grey := num_div (num_of_nat (length (node_pool n_grey))) (num_of_nat pool_len) in
        '(s_grey, n_grey) ← calculate_score_fuel fuel' guess (pos + 1) n_grey;
        let grey_score := num_mul w_grey s_grey in
        Ok (num_add (num_add green_score yellow_score) grey_score,
            mkNode (node_pool node) (Some n_green) (Some n_yellow) (Some n_grey))
  end.

Definition calculate_score (guess : word) (pos : nat) (node : Node) : res (T * Node) :=
  calculate_score_fuel (S (S LAST_POSITION - pos)) guess pos node.

(** ** [MyWordleAgent.recursive_build_tree] *)
Definition recursive_build_tree (pool : list word) (guess : word) : res (Tree * T) :=
  let tree := Tree_init guess pool in
  '(score, root) ← calculate_score guess 0 (root_node tree);
  Ok (mkTree (val tree) root, score).

(** ** The scorer as the specification defines it

    A function of the pool alone, by recursion on the number [left] of
    letter positions still to read: [pos = L - left] for [L = 5]. *)
Definition L : nat := 5.

Definition weighted (bucket : list word) (pool_len : nat) (s : T) : T :=
  num_mul (num_div (num_of_nat (length bucket)) (num_of_nat pool_len)) s.

Fixpoint score_spec (left : nat) (guess : word) (pool : list word) : res T :=
  if length pool <=? 1 then Ok (num_of_nat 1)
  else
    match left with
    | 0 => Ok (num_of_nat (length pool))
    | S left' =>
        '(exact, present, absent) ← get_pool guess (L - left) pool;
        s_exact ← score_spec left' guess exact;
        s_present ← score_spec left' guess present;
        s_absent ← score_spec left' guess absent;
        Ok (num_add (num_add (weighted exact (length pool) s_exact)
                             (weighted present (length pool) s_present))
                    (weighted absent (length pool) s_absent))
    end.
End Scorer.

(** ** The agent *)

Record MyWordleAgent : Type := mkAgent {
  allowed : list word;
  possible : list word;
  pool : list word;
  can_guess : list word;
  cache : gmap string string;
  feedback_so_far : option string;   (* [None] or a [str] *)
  guess : option word;               (* [None] or a [str] *)
  searches : nat                     (* ghost: calls of [find_guess] so far *)
}.

Definition set_pool (p : list word) (self : MyWordleAgent) : MyWordleAgent :=
  mkAgent (allowed self) (possible self) p (can_guess self) (cache self)
          (feedback_so_far self) (guess self) (searches self).

Definition set_can_guess (c : list word) (self : MyWordleAgent) : MyWordleAgent :=
  mkAgent (allowed self) (possible self) (pool self) c (cache self)
          (feedback_so_far self) (guess self) (searches self).

Definition set_cache (m : gmap string string) (self : MyWordleAgent) : MyWordleAgent :=
  mkAgent (allowed self) (possible self) (pool self) (can_guess self) m
          (feedback_so_far self) (guess self) (searches self).

Definition set_feedback_so_far (f : option string) (self : MyWordleAgent) : MyWordleAgent :=
  mkAgent (allowed self) (possible self) (pool self) (can_guess self) (cache self)
          f (guess self) (searches self).

Definition set_guess (g : option word) (self : MyWordleAgent) : MyWordleAgent :=
  mkAgent (allowed self) (possible self) (pool self) (can_guess self) (cache self)
          (feedback_so_far self) g (searches self).

Definition count_search (self : MyWordleAgent) : MyWordleAgent :=
  mkAgent (allowed self) (possible self) (pool self) (can_guess self) (cache self)
          (feedback_so_far self) (guess self) (S (searches self)).

(** [MyWordleAgent(allowed, possible)] *)
Definition initialize_agent (allowed possible : list word) : MyWordleAgent :=
  mkAgent allowed possible possible allowed ∅ None None 0.

(** [d.setdefault(k, v)], for its effect on [d] *)
Definition setdefault (d : gmap string string) (k v : string) : gmap string string :=
  match d !! k with
  | Some _ => d
  | None => <[k := v]> d
  end.

Definition GUESS_RANDOM_POOL_SIZE : nat := 3.

(** The calls a game driver makes. *)
Inductive call : Type :=
| FirstGuess
| NextGuess
| ReportFeedback (g : word) (feedback : list string).

Section Agent.
Context {T : Type} `{Arith T} `{Order T}.

(** [util.filter_possible_words], the external pool filter. *)
Variable filter_possible_words : word -> list string -> list word -> list word.

(** The loop of [find_guess]: [best] is [(best_tree, best_score)]. *)
Fixpoint find_guess_loop (pool : list word) (guesses : list word)
         (best : option Tree * T) : res (option Tree * T) :=
  match guesses with
  | [] => Ok best
  | g :: rest =>
      '(cur_tree, score) ← recursive_build_tree pool g;
      find_guess_loop pool rest
        (if num_ltb score best.2 then (Some cur_tree, score) else best)
  end.

(** ** [MyWordleAgent.find_guess] *)
Definition find_guess (self : MyWordleAgent) : res (option Tree) * MyWordleAgent :=
  let self := count_search self in
  match find_guess_loop (pool self) (can_guess self) (None, num_inf) with
  | Raise e => (Raise e, self)
  | Ok (best_tree, _) =>
      match feedback_so_far self with
      | None => (Raise TypeError, self)                 (* [len(None)] *)
      | Some fb =>
          if negb (String.length fb =? 0) then
            match best_tree with
            | None => (Raise AttributeError, self)      (* [None.val] *)
            | Some t => (Ok best_tree, set_cache (setdefault (cache self) fb (val t)) self)
            end
          else (Ok best_tree, self)
      end
  end.

(** [self.find_guess().val] *)
Definition find_guess_val (self : MyWordleAgent) : res word * MyWordleAgent :=
  match find_guess self with
  | (Ok (Some t), self') => (Ok (val t), self')
  | (Ok None, self') => (Raise AttributeError, self')
  | (Raise e, self') => (Raise e, self')
  end.

(** ** [MyWordleAgent.first_guess] *)
Definition first_guess (self : MyWordleAgent) : res word * MyWordleAgent :=
  let self := set_pool (possible self) self in
  let self := set_can_guess (allowed self) self in
  let self := set_feedback_so_far (Some "") self in
  match guess self with
  | None =>
      match find_guess_val self with
      | (Ok w, self') => (Ok w, set_guess (Some w) self')
      | (Raise e, self') => (Raise e, self')
      end
  | Some w => (Ok w, self)
  end.

(** ** [MyWordleAgent.next_guess] *)
Definition next_guess (self : MyWordleAgent) : res word * MyWordleAgent :=
  if length (pool self) <=? GUESS_RANDOM_POOL_SIZE then
    match pool self with
    | w :: _ => (Ok w, self)
    | [] => (Raise IndexError, self)                    (* [self.pool[0]] *)
    end
  else
    match feedback_so_far self ≫= (fun fb => cache self !! fb) with
    | Some w => (Ok w, self)
    | None => find_guess_val self
    end.

(** ** [MyWordleAgent.report_feedback] *)
Definition report_feedback (g : word) (feedback : list string) (self : MyWordleAgent)
  : res unit * MyWordleAgent :=
  let self := set_pool (filter_possible_words g feedback (pool self)) self in
  match feedback_so_far self with
  | None => (Raise TypeError, self)                     (* [None += str] *)
  | Some fb => (Ok tt, set_feedback_so_far (Some (fb +:+ String.concat "" feedback)) self)
  end.

(** The agent after one call, and after a sequence of calls; an exception
    is caught by the driver and the agent lives on. *)
Definition step (self : MyWordleAgent) (c : call) : MyWordleAgent :=
  match c with
  | FirstGuess => (first_guess self).2
  | NextGuess => (next_guess self).2
  | ReportFeedback g feedback => (report_feedback g feedback self).2
  end.

Definition run (cs : list call) (self : MyWordleAgent) : MyWordleAgent :=
  foldl step self cs.
End Agent.

(** Two agents on the word list of the unit tests: one at the start of a
    game, one whose pool the feedback has emptied. *)
Definition agent_at_start : MyWordleAgent :=
  set_feedback_so_far (Some "") (initialize_agent answers answers).

Definition agent_without_pool : MyWordleAgent :=
  set_pool [] (initialize_agent answers answers).

(** ** Magnitudes of binary64 values

    [small k x]: [x] is [+0] or a positive finite float below [2^k];
    [ordinary x]: [x] is [+0] or a positive finite float.  Both read the
    float through its specification [Prim2SF]. *)

Definition small (k : Z) (x : spec_float) : Prop :=
  x = S754_zero false \/
  exists m e, x = S754_finite false m e /\ (Zpos (digits2_pos m) + e <= k)%Z.

Definition ordinary (x : spec_float) : Prop :=
  x = S754_zero false \/ exists m e, x = S754_finite false m e.

Definition fsmall (k : Z) (x : float) : Prop := small k (Prim2SF x).

Definition fordinary (x : float) : Prop := ordinary (Prim2SF x).

(** ** The selection policy, as the specification words it

    [first_minimal pool guesses t s]: [t] is the tree of a guess scored [s]
    that splits [guesses] into an earlier part, where every score is
    strictly above [s], and a later part, where no score is strictly below
    [s]: a strictly lower score wins, and of equal scores the one evaluated
    first is kept. *)
Definition first_minimal {T : Type} `{Arith T} `{Order T}
           (pool guesses : list word) (t : Tree) (s : T) : Prop :=
  recursive_build_tree pool (val t) = Ok (t, s)
  /\ exists l1 l2,
      guesses = l1 ++ val t :: l2
      /\ (forall g s', g ∈ l1 -> score_spec L g pool = Ok s' -> num_ltb s s' = true)
      /\ (forall g s', g ∈ l2 -> score_spec L g pool = Ok s' -> num_ltb s' s = false).

(** [scored_ok ok pool g]: the guess [g] has a score against [pool], and the
    score is one of the values [ok]. *)
Definition scored_ok {T : Type} `{Arith T} (ok : T -> Prop) (pool : list word) (g : word)
  : Prop :=
  exists s, score_spec (T:=T) L g pool = Ok s /\ ok s.

(** What two states of the agent share when only the cache, the first guess
    and the search counter may have moved. *)
Definition same_game (a b : MyWordleAgent) : Prop :=
  allowed b = allowed a /\ possible b = possible a /\ pool b = pool a
  /\ can_guess b = can_guess a /\ feedback_so_far b = feedback_so_far a.

(** Closes the goals of a call that left cache and first guess alone. *)
Ltac unchanged := split_and!; intros; first [assumption | congruence].

(** ** Reading a sequence of calls

    [reports_of cs] lists the (guess, feedback) pairs of the
    [report_feedback] calls of [cs], in order. *)
Definition reports_of (cs : list call) : list (word * list string) :=
  omap (fun c => match c with
                 | ReportFeedback g feedback => Some (g, feedback)
                 | _ => None
                 end) cs.

(** A stand-in for the external filter in the examples: it drops the word
    that was guessed. *)
Definition drop_guess (g : word) (feedback : list string) (p : list word) : list word :=
  filter (fun w => w <> g) p.

Definition all_gray : list string := ["gray"; "gray"; "gray"; "gray"; "gray"].

(** The agent of the unit tests after a first guess and one report. *)
Definition agent_after_feedback : MyWordleAgent :=
  run (T:=float) drop_guess [FirstGuess; ReportFeedback "birch" all_gray]
      (initialize_agent answers answers).

(** ** Reading a built tree

    [child] and [descend] follow the attributes [green], [yellow] and [grey]
    from a node; [leaf_pools] lists the pools of the nodes without children,
    left to right; [height] is the number of levels below a node;
    [colours_from g pos k w] spells the colours of the [k] letters of the
    guess [g] from position [pos] on against the word [w]. *)

Definition child (c : colour) (n : Node) : option Node :=
  match c with
  | Green => green n
  | Yellow => yellow n
  | Grey => grey n
  end.

Fixpoint descend (path : list colour) (n : Node) : option Node :=
  match path with
  | [] => Some n
  | c :: path' =>
      match child c n with
      | Some m => descend path' m
      | None => None
      end
  end.

Fixpoint leaf_pools (n : Node) : list (list word) :=
  match n with
  | mkNode _ (Some a) (Some b) (Some c) => leaf_pools a ++ leaf_pools b ++ leaf_pools c
  | mkNode p _ _ _ => [p]
  end.

Fixpoint height (n : Node) : nat :=
  match n with
  | mkNode _ (Some a) (Some b) (Some c) =>
      S (Nat.max (height a) (Nat.max (height b) (height c)))
  | mkNode _ _ _ _ => 0
  end.

Fixpoint colours_from (g : word) (pos k : nat) (w : word) : option (list colour) :=
  match k with
  | 0 => Some []
  | S k' =>
      match colour_at g pos w, colours_from g (S pos) k' w with
      | Some c, Some cs => Some (c :: cs)
      | _, _ => None
      end
  end.

(** [built g pos p n]: [n] is the tree the drawing in the docstring of [Tree]
    shows for the pool [p] read from letter [pos] on: a node without
    children where the pool has at most one word or the letters are used
    up, else a node whose three children are built, one letter further, on
    the three buckets of its pool. *)
Inductive built (g : word) : nat -> list word -> Node -> Prop :=
| built_leaf (pos : nat) (p : list word) :
    length p <= 1 \/ LAST_POSITION < pos ->
    built g pos p (Node_init p)
| built_node (pos : nat) (p a b c : list word) (na nb nc : Node) :
    1 < length p -> pos <= LAST_POSITION ->
    get_pool g pos p = Ok (a, b, c) ->
    built g (pos + 1) a na -> built g (pos + 1) b nb -> built g (pos + 1) c nc ->
    built g pos p (mkNode p (Some na) (Some nb) (Some nc)).

(** The score read back from a tree: the base cases at the nodes without
    children, the weighted sum at the others. *)
Fixpoint tree_score {T : Type} `{Arith T} (n : Node) : T :=
  match n with
  | mkNode p (Some a) (Some b) (Some c) =>
      num_add (num_add (weighted (node_pool a) (length p) (tree_score a))
                       (weighted (node_pool b) (length p) (tree_score b)))
              (weighted (node_pool c) (length p) (tree_score c))
  | mkNode p _ _ _ =>
      if length p <=? MIN_POOL_SIZE then num_of_nat 1 else num_of_nat (length p)
  end.

(** ** Real values of binary64 numbers

    The range of a score is a statement about real numbers, so the floats
    are read as reals through their specification [Prim2SF]:
    [pow2 e] is [2^e]; [fpos_val a v] says that the float [a] is positive
    and finite and that its value is the real [v]; [fnonneg_val a v] that [a]
    is [+0] and [v = 0], or [fpos_val a v].  [rounds_to x v] says that [v]
    is one of the two neighbours of the real [x] among the multiples of
    [2^e] with a 53-bit factor, the lower one when [x] is itself such a
    multiple: what a binary64 operation returns for the exact result [x],
    whichever way the last bit is decided.  [eps = 2^-52] is the distance
    between [1] and the next float; [mid_range v] keeps [v] away from
    overflow and from the subnormal numbers. *)

Definition pow2 (e : Z) : R := powerRZ 2 e.

Definition rounds_to (x v : R) : Prop :=
  exists F e : Z,
    (2 ^ 52 <= F < 2 ^ 53)%Z
    /\ (IZR F * pow2 e <= x < IZR (F + 1) * pow2 e)%R
    /\ (v = (IZR F * pow2 e)%R \/ (x <> (IZR F * pow2 e)%R /\ v = (IZR (F + 1) * pow2 e)%R)).

Definition eps : R := pow2 (-52).

Definition fpos_val (a : float) (v : R) : Prop :=
  exists m e, Prim2SF a = S754_finite false m e /\ v = (IZR (Zpos m) * pow2 e)%R.

Definition fnonneg_val (a : float) (v : R) : Prop :=
  (Prim2SF a = S754_zero false /\ v = 0%R) \/ fpos_val a v.

Definition mid_range (v : R) : Prop := (pow2 (-500) <= v < pow2 500)%R.

(** The sum of the squares of the sizes of some pools. *)
Definition sum_squares (pools : list (list word)) : nat :=
  foldr (fun p acc => length p * length p + acc) 0 pools.

(** * Properties *)

Example get_pool_unit_test :
  get_pool "birch" 0 answers = Ok (["birch"; "beech"], ["ebony"], ["cedar"; "maple"]).
Proof. reflexivity. Qed.

Example unit_test_score_float :
  (fun r => match r with Ok (_, s) => PrimFloat.eqb s 0x1.6666666666666p+0 | _ => false end)
    (recursive_build_tree (T:=float) answers "ebony") = true.
Proof. vm_compute. reflexivity. Qed.

(** ** The partition function *)

Lemma index_Ok (w : word) (i : nat) :
  i < String.length w -> exists c, String.get i w = Some c /\ index w i = Ok c.
Proof.
  revert i. induction w as [|d w IH]; intros i Hi; simpl in Hi; [lia|].
  destruct i as [|i].
  - exists d. split; reflexivity.
  - destruct (IH i) as (c & Hget & Hidx); [lia|].
    exists c. unfold index in *. simpl. rewrite Hget. split; reflexivity.
Qed.

Lemma index_get (w : word) (i : nat) (c : ascii) :
  index w i = Ok c <-> String.get i w = Some c.
Proof.
  unfold index. destruct (String.get i w); split; intros E; congruence.
Qed.

Lemma index_Raise (w : word) (i : nat) :
  String.length w <= i -> index w i = Raise IndexError.
Proof.
  revert i. induction w as [|d w IH]; intros i Hi; simpl in Hi.
  - unfold index. destruct i; reflexivity.
  - destruct i as [|i]; [lia|].
    specialize (IH i ltac:(lia)). unfold index in *. simpl.
    destruct (String.get i w); [discriminate|reflexivity].
Qed.

Lemma contains_spec (c : ascii) (w : word) :
  contains c w = true <-> exists i, String.get i w = Some c.
Proof.
  induction w as [|d w IH]; simpl.
  - split; [discriminate|]. intros [i Hi]. destruct i; discriminate.
  - rewrite orb_true_iff, IH, Ascii.eqb_eq. split.
    + intros [->|[i Hi]]; [exists 0|exists (S i)]; simpl; auto.
    + intros [[|i] Hi]; simpl in Hi; [left; congruence|right; eauto].
Qed.

Lemma colour_at_total (g w : word) (pos : nat) :
  pos < String.length g -> pos < String.length w ->
  exists c, colour_at g pos w = Some c.
Proof.
  intros Hg Hw. unfold colour_at.
  destruct (index_Ok g pos Hg) as (a & -> & _).
  destruct (index_Ok w pos Hw) as (b & -> & _). eauto.
Qed.

Lemma get_pool_step_colour (g w : word) (pos : nat) (c : colour) (gs ys rs : list word) :
  colour_at g pos w = Some c ->
  get_pool_step g pos (gs, ys, rs) w =
    Ok (match c with
        | Green => (gs ++ [w], ys, rs)
        | Yellow => (gs, ys ++ [w], rs)
        | Grey => (gs, ys, rs ++ [w])
        end).
Proof.
  unfold colour_at, get_pool_step, index.
  destruct (String.get pos g) as [a|]; [|discriminate].
  destruct (String.get pos w) as [b|]; [|discriminate]. simpl.
  destruct (Ascii.eqb a b); [|destruct (contains a w)]; intros [= <-]; reflexivity.
Qed.

Lemma get_pool_loop_filter (g : word) (pos : nat) (pool gs ys rs : list word) :
  pos < String.length g ->
  Forall (fun w => pos < String.length w) pool ->
  get_pool_loop g pos pool (gs, ys, rs) =
    Ok (gs ++ filter (fun w => colour_at g pos w = Some Green) pool,
        ys ++ filter (fun w => colour_at g pos w = Some Yellow) pool,
        rs ++ filter (fun w => colour_at g pos w = Some Grey) pool).
Proof.
  intros Hg Hpool. revert gs ys rs.
  induction Hpool as [|w pool Hw _ IH]; intros gs ys rs; cbn [get_pool_loop].
  - rewrite !filter_nil, !app_nil_r. reflexivity.
  - destruct (colour_at_total g w pos Hg Hw) as [c Hc].
    rewrite (get_pool_step_colour _ _ _ c _ _ _ Hc). cbn [mbind res_bind].
    rewrite !filter_cons, Hc.
    destruct c; rewrite IH; simpl; rewrite <- ?app_assoc; reflexivity.
Qed.

Lemma get_pool_filter (g : word) (pos : nat) (pool : list word) :
  pos < String.length g ->
  Forall (fun w => pos < String.length w) pool ->
  get_pool g pos pool =
    Ok (filter (fun w => colour_at g pos w = Some Green) pool,
        filter (fun w => colour_at g pos w = Some Yellow) pool,
        filter (fun w => colour_at g pos w = Some Grey) pool).
Proof. intros Hg Hpool. unfold get_pool. rewrite get_pool_loop_filter; auto. Qed.

Lemma colour_filters_Permutation (g : word) (pos : nat) (pool : list word) :
  Forall (fun w => is_Some (colour_at g pos w)) pool ->
  filter (fun w => colour_at g pos w = Some Green) pool ++
  filter (fun w => colour_at g pos w = Some Yellow) pool ++
  filter (fun w => colour_at g pos w = Some Grey) pool ≡ₚ pool.
Proof.
  induction 1 as [|w pool [c Hc] _ IH]; [reflexivity|].
  rewrite !filter_cons, Hc. destruct c; simpl.
  - f_equiv. exact IH.
  - rewrite <- Permutation_middle. f_equiv. exact IH.
  - rewrite app_assoc, <- Permutation_middle, <- app_assoc. f_equiv. exact IH.
Qed.

Lemma colour_at_Green (g w : word) (pos : nat) :
  pos < String.length g ->
  colour_at g pos w = Some Green <-> String.get pos w = String.get pos g.
Proof.
  intros Hg. unfold colour_at.
  destruct (index_Ok g pos Hg) as (a & -> & _).
  destruct (String.get pos w) as [b|]; [|split; discriminate].
  destruct (Ascii.eqb_spec a b) as [->|Hne].
  - split; reflexivity.
  - split; [destruct (contains a w); discriminate|congruence].
Qed.

Lemma colour_at_Yellow (g w : word) (pos : nat) :
  pos < String.length w ->
  colour_at g pos w = Some Yellow <->
  String.get pos w <> String.get pos g /\
  exists c i, String.get pos g = Some c /\ String.get i w = Some c.
Proof.
  intros Hw. unfold colour_at.
  destruct (index_Ok w pos Hw) as (b & -> & _).
  destruct (String.get pos g) as [a|].
  2:{ split; [discriminate|]. intros (_ & c & i & E & _). discriminate. }
  destruct (Ascii.eqb_spec a b) as [->|Hne].
  - split; [discriminate|]. intros [E _]. congruence.
  - destruct (contains a w) eqn:Hc.
    + apply contains_spec in Hc as [i Hi]. split; [|reflexivity].
      intros _. split; [congruence|]. eauto.
    + split; [discriminate|]. intros (_ & c & i & [= <-] & Hi).
      assert (contains a w = true) by (apply contains_spec; eauto). congruence.
Qed.

Lemma colour_at_Grey (g w : word) (pos : nat) :
  pos < String.length w ->
  colour_at g pos w = Some Grey <->
  String.get pos w <> String.get pos g /\
  exists c, String.get pos g = Some c /\ forall i, String.get i w <> Some c.
Proof.
  intros Hw. unfold colour_at.
  destruct (index_Ok w pos Hw) as (b & -> & _).
  destruct (String.get pos g) as [a|].
  2:{ split; [discriminate|]. intros (_ & c & E & _). discriminate. }
  destruct (Ascii.eqb_spec a b) as [->|Hne].
  - split; [discriminate|]. intros [E _]. congruence.
  - destruct (contains a w) eqn:Hc.
    + apply contains_spec in Hc as [i Hi]. split; [discriminate|].
      intros (_ & c & [= <-] & Hno). exfalso. exact (Hno i Hi).
    + split; [|reflexivity]. intros _. split; [congruence|].
      exists a. split; [reflexivity|]. intros i Hi.
      assert (contains a w = true) by (apply contains_spec; eauto). congruence.
Qed.

Lemma get_pool_buckets (g : word) (pos : nat) (pool : list word) :
  pos < String.length g ->
  Forall (fun w => pos < String.length w) pool ->
  exists a b c,
    get_pool g pos pool = Ok (a, b, c)
    /\ sublist a pool /\ sublist b pool /\ sublist c pool
    /\ length a + length b + length c = length pool.
Proof.
  intros Hg Hpool.
  assert (Hcol : Forall (fun w => is_Some (colour_at g pos w)) pool).
  { eapply Forall_impl; [exact Hpool|]. intros w Hw. cbv beta.
    destruct (colour_at_total g w pos Hg Hw) as [c Hc]. rewrite Hc. eauto. }
  pose proof (colour_filters_Permutation g pos pool Hcol) as Hperm.
  eexists _, _, _. split; [apply get_pool_filter; assumption|].
  split_and!; try apply sublist_filter.
  rewrite <- (Permutation_length Hperm), !length_app. lia.
Qed.

(** C2: at a position in range of the guess and of every word of the pool,
    [get_pool] returns three sub-pools that keep the order of the pool, are
    pairwise disjoint and together hold every word of the pool exactly once;
    a word is in the first when its letter at [pos] is the guess's, else in
    the second when the guess's letter at [pos] occurs in the word, else in
    the third. *)
Theorem get_pool_partition (g : word) (pos : nat) (pool : list word) :
  pos < String.length g ->
  Forall (fun w => pos < String.length w) pool ->
  exists exact present absent,
    get_pool g pos pool = Ok (exact, present, absent)
    /\ sublist exact pool /\ sublist present pool /\ sublist absent pool
    /\ exact ++ present ++ absent ≡ₚ pool
    /\ length exact + length present + length absent = length pool
    /\ (forall w, ~ (w ∈ exact /\ w ∈ present))
    /\ (forall w, ~ (w ∈ exact /\ w ∈ absent))
    /\ (forall w, ~ (w ∈ present /\ w ∈ absent))
    /\ (forall w, w ∈ exact <->
          w ∈ pool /\ String.get pos w = String.get pos g)
    /\ (forall w, w ∈ present <->
          w ∈ pool /\ String.get pos w <> String.get pos g /\
          exists c i, String.get pos g = Some c /\ String.get i w = Some c)
    /\ (forall w, w ∈ absent <->
          w ∈ pool /\ String.get pos w <> String.get pos g /\
          exists c, String.get pos g = Some c /\ forall i, String.get i w <> Some c).
Proof.
  intros Hg Hpool.
  assert (Hcol : Forall (fun w => is_Some (colour_at g pos w)) pool).
  { eapply Forall_impl; [exact Hpool|]. intros w Hw. simpl.
    destruct (colour_at_total g w pos Hg Hw) as [c Hc]. rewrite Hc. eauto. }
  pose proof (colour_filters_Permutation g pos pool Hcol) as Hperm.
  eexists _, _, _. split; [apply get_pool_filter; assumption|].
  split_and!; try apply sublist_filter; try exact Hperm.
  - rewrite <- (Permutation_length Hperm), !length_app. lia.
  - intros w [H1 H2]. apply list_elem_of_filter in H1, H2. destruct H1, H2. congruence.
  - intros w [H1 H2]. apply list_elem_of_filter in H1, H2. destruct H1, H2. congruence.
  - intros w [H1 H2]. apply list_elem_of_filter in H1, H2. destruct H1, H2. congruence.
  - intros w. rewrite list_elem_of_filter, colour_at_Green by assumption. tauto.
  - intros w. rewrite list_elem_of_filter. split.
    + intros [Hc Hin]. split; [exact Hin|].
      apply colour_at_Yellow; [|exact Hc].
      rewrite Forall_forall in Hpool. auto.
    + intros [Hin Hc]. split; [|exact Hin].
      apply colour_at_Yellow; [|exact Hc].
      rewrite Forall_forall in Hpool. auto.
  - intros w. rewrite list_elem_of_filter. split.
    + intros [Hc Hin]. split; [exact Hin|].
      apply colour_at_Grey; [|exact Hc].
      rewrite Forall_forall in Hpool. auto.
    + intros [Hin Hc]. split; [|exact Hin].
      apply colour_at_Grey; [|exact Hc].
      rewrite Forall_forall in Hpool. auto.
Qed.

Lemma get_pool_partition_witness :
  0 < String.length "birch" /\
  Forall (fun w => 0 < String.length w) answers /\
  exists exact present absent,
    get_pool "birch" 0 answers = Ok (exact, present, absent)
    /\ sublist exact answers /\ sublist present answers /\ sublist absent answers
    /\ exact ++ present ++ absent ≡ₚ answers
    /\ length exact + length present + length absent = length answers
    /\ (forall w, ~ (w ∈ exact /\ w ∈ present))
    /\ (forall w, ~ (w ∈ exact /\ w ∈ absent))
    /\ (forall w, ~ (w ∈ present /\ w ∈ absent))
    /\ (forall w, w ∈ exact <->
          w ∈ answers /\ String.get 0 w = String.get 0 "birch")
    /\ (forall w, w ∈ present <->
          w ∈ answers /\ String.get 0 w <> String.get 0 "birch" /\
          exists c i, String.get 0 "birch" = Some c /\ String.get i w = Some c)
    /\ (forall w, w ∈ absent <->
          w ∈ answers /\ String.get 0 w <> String.get 0 "birch" /\
          exists c, String.get 0 "birch" = Some c /\ forall i, String.get i w <> Some c).
Proof.
  assert (H1 : 0 < String.length "birch") by (simpl; lia).
  assert (H2 : Forall (fun w => 0 < String.length w) answers)
    by (repeat constructor; simpl; lia).
  split; [exact H1|]. split; [exact H2|].
  exact (get_pool_partition "birch" 0 answers H1 H2).
Defined.

(** C3, as the specification states it: fails.  ["beech"] starts with [b] and
    ["ebony"] contains one. *)
Lemma get_pool_birch_not_as_specified :
  get_pool "birch" 0 answers <> Ok (["birch"], [], ["beech"; "cedar"; "ebony"; "maple"]).
Proof. vm_compute. discriminate. Qed.

(** C3, amended: for the pool [birch, beech, cedar, ebony, maple], the guess
    [birch] and position 0, [get_pool] returns [birch, beech] as exact
    matches, [ebony] as letter present elsewhere and [cedar, maple] as letter
    absent: what the unit test [Test_get_pool] asserts. *)
Theorem get_pool_birch :
  get_pool "birch" 0 answers = Ok (["birch"; "beech"], ["ebony"], ["cedar"; "maple"]).
Proof. reflexivity. Qed.

(** ** The scorer *)

Lemma Forall_sublist {A : Type} (P : A -> Prop) (l k : list A) :
  sublist l k -> Forall P k -> Forall P l.
Proof.
  induction 1 as [|x l k _ IH|x l k _ IH]; intros Hk.
  - constructor.
  - inversion Hk; subst. constructor; auto.
  - inversion Hk; subst. auto.
Qed.

Section ScorerFacts.
Context {T : Type} `{Arith T}.

Lemma score_spec_small (left : nat) (g : word) (pool : list word) :
  length pool <= 1 -> score_spec (T:=T) left g pool = Ok (num_of_nat 1).
Proof.
  intros Hlen. apply Nat.leb_le in Hlen.
  destruct left; simpl; rewrite Hlen; reflexivity.
Qed.

Lemma calculate_score_fuel_spec (fuel : nat) (g : word) (pos : nat) (node : Node) :
  L - pos < fuel ->
  fst <$> calculate_score_fuel (T:=T) fuel g pos node
  = score_spec (L - pos) g (node_pool node).
Proof.
  revert pos node. induction fuel as [|fuel IH]; intros pos node Hfuel; [lia|].
  cbn [calculate_score_fuel]. unfold MIN_POOL_SIZE, LAST_POSITION.
  destruct (length (node_pool node) <=? 1) eqn:Hlen.
  { apply Nat.leb_le in Hlen. rewrite score_spec_small by exact Hlen. reflexivity. }
  destruct (4 <? pos) eqn:Hpos.
  { apply Nat.ltb_lt in Hpos. replace (L - pos) with 0 by (unfold L; lia).
    simpl. rewrite Hlen. reflexivity. }
  apply Nat.ltb_ge in Hpos. unfold L in *.
  replace (5 - pos) with (S (5 - (pos + 1))) by lia.
  cbn [score_spec]. rewrite Hlen. unfold L.
  replace (5 - S (5 - (pos + 1))) with pos by lia.
  destruct (get_pool g pos (node_pool node)) as [[[gs ys] rs]|e]; [|reflexivity].
  cbn [mbind res_bind].
  assert (Hrec : forall p, fst <$> calculate_score_fuel (T:=T) fuel g (pos + 1) (Node_init p)
                           = score_spec (5 - (pos + 1)) g p).
  { intros p. rewrite IH by lia. reflexivity. }
  pose proof (Hrec gs) as Hg. pose proof (Hrec ys) as Hy. pose proof (Hrec rs) as Hr.
  destruct (calculate_score_fuel fuel g (pos + 1) (Node_init gs)) as [[sg ng]|e];
    cbn in Hg; rewrite <- Hg; [|reflexivity].
  cbn [mbind res_bind].
  destruct (calculate_score_fuel fuel g (pos + 1) (Node_init ys)) as [[sy ny]|e];
    cbn in Hy; rewrite <- Hy; [|reflexivity].
  cbn [mbind res_bind].
  destruct (calculate_score_fuel fuel g (pos + 1) (Node_init rs)) as [[sr nr]|e];
    cbn in Hr; rewrite <- Hr; [|reflexivity].
  reflexivity.
Qed.

(** An induction principle for the scores of well-formed words: what holds
    of the two base cases and is kept by the weighted sum holds of every
    score, and the scorer raises nothing. *)
Lemma score_spec_invariant (P : nat -> list word -> T -> Prop) (g : word) :
  L <= String.length g ->
  (forall left pool, length pool <= 1 -> P left pool (num_of_nat 1)) ->
  (forall pool, 1 < length pool -> P 0 pool (num_of_nat (length pool))) ->
  (forall left pool a b c sa sb sc,
      1 < length pool ->
      length a + length b + length c = length pool ->
      P left a sa -> P left b sb -> P left c sc ->
      P (S left) pool
        (num_add (num_add (weighted a (length pool) sa) (weighted b (length pool) sb))
                 (weighted c (length pool) sc))) ->
  forall left pool,
    left <= L ->
    Forall (fun w => L <= String.length w) pool ->
    exists s, score_spec left g pool = Ok s /\ P left pool s.
Proof.
  intros Hg Hone Hlast Hsum.
  induction left as [|left IH]; intros pool Hleft Hpool.
  - simpl. destruct (length pool <=? 1) eqn:Hlen.
    + apply Nat.leb_le in Hlen. eauto.
    + apply Nat.leb_gt in Hlen. eauto.
  - cbn [score_spec]. destruct (length pool <=? 1) eqn:Hlen.
    { apply Nat.leb_le in Hlen. eauto. }
    apply Nat.leb_gt in Hlen.
    assert (HL : 0 < L) by (unfold L; lia).
    assert (Hpos : L - S left < String.length g) by lia.
    assert (Hin : Forall (fun w => L - S left < String.length w) pool).
    { eapply Forall_impl; [exact Hpool|]. cbv beta. intros w Hw. lia. }
    destruct (get_pool_buckets g (L - S left) pool Hpos Hin)
      as (a & b & c & -> & Ha & Hb & Hc & Hlens).
    cbn [mbind res_bind].
    destruct (IH a) as (sa & -> & HPa); [lia|eapply Forall_sublist; eauto|].
    destruct (IH b) as (sb & -> & HPb); [lia|eapply Forall_sublist; eauto|].
    destruct (IH c) as (sc & -> & HPc); [lia|eapply Forall_sublist; eauto|].
    cbn [mbind res_bind]. eauto.
Qed.

Lemma get_pool_loop_raises (g : word) (pos : nat) (pool : list word) (ret : buckets) (e : exn) :
  get_pool_loop g pos pool ret = Raise e -> e = IndexError.
Proof.
  revert ret. induction pool as [|w pool IH]; intros ret; cbn [get_pool_loop]; [discriminate|].
  destruct ret as [[gs ys] rs]. unfold get_pool_step, index.
  destruct (String.get pos g) as [a|]; cbn [mbind res_bind]; [|congruence].
  destruct (String.get pos w) as [b|]; cbn [mbind res_bind]; [|congruence].
  destruct (Ascii.eqb a b); cbn [mbind res_bind]; [apply IH|].
  destruct (contains a w); cbn [mbind res_bind]; apply IH.
Qed.

Lemma score_spec_raises (left : nat) (g : word) (pool : list word) (e : exn) :
  score_spec (T:=T) left g pool = Raise e -> e = IndexError.
Proof.
  revert pool. induction left as [|left IH]; intros pool; cbn [score_spec];
    destruct (length pool <=? 1); try discriminate.
  destruct (get_pool g (L - S left) pool) as [[[a b] c]|e'] eqn:Hpool; cbn [mbind res_bind].
  2:{ intros [= <-]. exact (get_pool_loop_raises _ _ _ _ _ Hpool). }
  destruct (score_spec left g a) as [sa|ea] eqn:Ha; cbn [mbind res_bind];
    [|intros [= <-]; exact (IH _ Ha)].
  destruct (score_spec left g b) as [sb|eb] eqn:Hb; cbn [mbind res_bind];
    [|intros [= <-]; exact (IH _ Hb)].
  destruct (score_spec left g c) as [sc|ec] eqn:Hc; cbn [mbind res_bind];
    [discriminate|intros [= <-]; exact (IH _ Hc)].
Qed.

Lemma calculate_score_spec (g : word) (pos : nat) (node : Node) :
  fst <$> calculate_score (T:=T) g pos node
  = score_spec (L - pos) g (node_pool node).
Proof.
  unfold calculate_score. apply calculate_score_fuel_spec.
  unfold L, LAST_POSITION. lia.
Qed.

(** C1: the score [calculate_score] returns is the one of the recursive
    definition with [L = 5]: 1 for a pool of at most one word; else the
    size of the pool once [pos] is past the last letter; else the sum over
    the three buckets of [get_pool] at [pos] of (bucket size / pool size)
    times the score of the bucket at [pos + 1].  Where [get_pool] raises,
    both raise the same exception; the fuel of the embedding never runs
    out; and on words of at least five letters a score is returned. *)
Theorem calculate_score_follows_spec (g : word) (pos : nat) (node : Node) :
  fst <$> calculate_score (T:=T) g pos node
  = score_spec (L - pos) g (node_pool node)
  /\ calculate_score (T:=T) g pos node <> Raise OutOfFuel
  /\ (L <= String.length g ->
      Forall (fun w => L <= String.length w) (node_pool node) ->
      exists s tree, calculate_score (T:=T) g pos node = Ok (s, tree)).
Proof.
  pose proof (calculate_score_spec g pos node) as E.
  split_and!.
  - exact E.
  - intros Hfuel. rewrite Hfuel in E. symmetry in E.
    apply score_spec_raises in E. discriminate.
  - intros Hg Hpool.
    destruct (score_spec_invariant (fun _ _ _ => True) g Hg) with
      (left := L - pos) (pool := node_pool node) as (s & Hs & _); auto; [lia|].
    rewrite Hs in E.
    destruct (calculate_score g pos node) as [[s' tree]|e]; [|discriminate].
    eauto.
Qed.
End ScorerFacts.

Lemma calculate_score_of_spec {T : Type} `{Arith T} (g : word) (pos : nat) (node : Node) (s : T) :
  score_spec (L - pos) g (node_pool node) = Ok s ->
  exists tree, calculate_score g pos node = Ok (s, tree).
Proof.
  intros Hs. pose proof (calculate_score_spec g pos node) as E.
  rewrite Hs in E. destruct (calculate_score g pos node) as [[s' tree]|e]; [|discriminate].
  injection E as ->. eauto.
Qed.

Lemma calculate_score_small {T : Type} `{Arith T} (g : word) (pos : nat) (node : Node) :
  length (node_pool node) <= 1 ->
  calculate_score g pos node = Ok (num_of_nat 1, node).
Proof.
  intros Hlen. apply Nat.leb_le in Hlen.
  unfold calculate_score. cbn [calculate_score_fuel].
  unfold MIN_POOL_SIZE. rewrite Hlen. reflexivity.
Qed.

(** ** Binary64 scores are finite

    The float operations are specified by [SpecFloat]; the lemmas below bound
    the magnitude of a result by counting binary digits, which is enough to
    show that a score never overflows to [inf] and is never [nan]. *)

Section FloatFacts.
#[local] Open Scope Z_scope.

Lemma digits2_pos_size (p : positive) : digits2_pos p = Pos.size p.
Proof. induction p; simpl; congruence. Qed.

Lemma Zdigits2_log2 (m : Z) : 0 < m -> Zdigits2 m = Z.log2 m + 1.
Proof.
  destruct m as [|p|p]; try lia. intros _. simpl.
  rewrite digits2_pos_size. destruct p; simpl; lia.
Qed.

Lemma Zdigits2_nonneg (m : Z) : 0 <= Zdigits2 m.
Proof. destruct m; simpl; lia. Qed.

Lemma Zdigits2_pos (m : Z) : 0 < m -> 0 < Zdigits2 m.
Proof. destruct m; simpl; lia. Qed.

Lemma Zdigits2_lt_pow2 (m k : Z) : 0 <= m -> 0 <= k -> m < 2 ^ k <-> Zdigits2 m <= k.
Proof.
  intros Hm Hk. destruct (Z.eq_dec m 0) as [->|Hne].
  - simpl. split; [lia|]. intros _. apply Z.pow_pos_nonneg; lia.
  - rewrite Zdigits2_log2 by lia. rewrite Z.log2_lt_pow2 by lia. lia.
Qed.

Lemma Zdigits2_le_mono (a b : Z) : 0 <= a <= b -> Zdigits2 a <= Zdigits2 b.
Proof.
  intros [Ha Hab]. destruct (Z.eq_dec a 0) as [->|Hne].
  - apply Zdigits2_nonneg.
  - rewrite !Zdigits2_log2 by lia. pose proof (Z.log2_le_mono a b Hab). lia.
Qed.

Lemma Zdigits2_succ (m : Z) : 0 <= m -> Zdigits2 (m + 1) <= Zdigits2 m + 1.
Proof.
  intros Hm. pose proof (Zdigits2_nonneg m) as Hd.
  apply Zdigits2_lt_pow2; try lia.
  assert (m < 2 ^ Zdigits2 m) by (apply Zdigits2_lt_pow2; lia).
  rewrite Z.pow_add_r by lia. lia.
Qed.

Lemma Zdigits2_shiftr (m n : Z) :
  0 <= m -> 0 <= n -> Zdigits2 (Z.shiftr m n) = Z.max 0 (Zdigits2 m - n).
Proof.
  intros Hm Hn. destruct (Z.eq_dec m 0) as [->|Hne].
  - rewrite Z.shiftr_0_l. change (Zdigits2 0) with 0. lia.
  - destruct (Z.eq_dec (Z.shiftr m n) 0) as [E|E].
    + rewrite E. apply Z.shiftr_eq_0_iff in E as [E|[_ E]]; [lia|].
      change (Zdigits2 0) with 0. rewrite Zdigits2_log2 by lia. lia.
    + assert (0 <= Z.shiftr m n) by (apply Z.shiftr_nonneg; lia).
      rewrite !Zdigits2_log2 by lia. rewrite Z.log2_shiftr by lia.
      assert (~ Z.log2 m < n).
      { intros Hlt. apply E. apply Z.shiftr_eq_0; lia. }
      lia.
Qed.

Lemma iter_pos_iter {A : Type} (f : A -> A) (p : positive) (x : A) :
  SpecFloat.iter_pos f p x = Pos.iter f x p.
Proof.
  revert x. induction p as [p IH|p IH|]; intros x; simpl.
  - rewrite !IH. rewrite <- Pos.iter_swap. rewrite <- Pos.iter_swap. reflexivity.
  - rewrite !IH. reflexivity.
  - reflexivity.
Qed.

Lemma shr_1_m (mrs : shr_record) : 0 <= shr_m mrs -> shr_m (shr_1 mrs) = Z.div2 (shr_m mrs).
Proof.
  destruct mrs as [m r s]. simpl. destruct m as [|[p|p|]|p]; simpl; try reflexivity; lia.
Qed.

Lemma shr_iter_m (p : positive) (mrs : shr_record) :
  0 <= shr_m mrs -> shr_m (SpecFloat.iter_pos shr_1 p mrs) = Z.shiftr (shr_m mrs) (Zpos p).
Proof.
  intros Hm. rewrite iter_pos_iter.
  induction p as [|p IH] using Pos.peano_ind.
  - simpl. rewrite shr_1_m by exact Hm. rewrite Z.div2_spec. reflexivity.
  - rewrite Pos.iter_succ. rewrite shr_1_m.
    + rewrite IH. rewrite Z.div2_spec, Z.shiftr_shiftr by lia. f_equal. lia.
    + rewrite IH. apply Z.shiftr_nonneg. exact Hm.
Qed.

Lemma shr_m_of_loc (m : Z) (l : location) : shr_m (shr_record_of_loc m l) = m.
Proof. destruct l as [|[]]; reflexivity. Qed.

Lemma shr_fexp_spec (m e : Z) (l : location) :
  0 <= m ->
  let n := Z.max 0 (fexp prec emax (Zdigits2 m + e) - e) in
  shr_m (fst (shr_fexp prec emax m e l)) = Z.shiftr m n
  /\ snd (shr_fexp prec emax m e l) = e + n.
Proof.
  intros Hm n. unfold shr_fexp, shr. subst n.
  destruct (fexp prec emax (Zdigits2 m + e) - e) as [|p|p] eqn:E; simpl fst; simpl snd.
  - rewrite shr_m_of_loc. simpl. split; [reflexivity|lia].
  - rewrite shr_iter_m by (rewrite shr_m_of_loc; exact Hm). rewrite shr_m_of_loc.
    split; [reflexivity|lia].
  - rewrite shr_m_of_loc. simpl. split; [reflexivity|lia].
Qed.

Lemma round_nearest_even_cases (m : Z) (l : location) :
  round_nearest_even m l = m \/ round_nearest_even m l = m + 1.
Proof. destruct l as [|[]]; simpl; auto. destruct (Z.even m); auto. Qed.

Lemma fexp_eq (x : Z) : fexp prec emax x = Z.max (x - 53) (-1074).
Proof. reflexivity. Qed.

Lemma binary_round_aux_small (mx ex : Z) (lx : location) (k : Z) :
  0 <= mx -> Zdigits2 mx + ex <= k -> ex <= 971 -> 0 <= k <= 1023 ->
  small (k + 1) (binary_round_aux prec emax false mx ex lx).
Proof.
  intros Hmx Hk Hex Hk'. unfold binary_round_aux.
  pose proof (shr_fexp_spec mx ex lx Hmx) as [Hm1 He1].
  destruct (shr_fexp prec emax mx ex lx) as [mrs1 e1]. simpl fst in Hm1. simpl snd in He1.
  set (m2 := round_nearest_even (shr_m mrs1) (loc_of_shr_record mrs1)).
  assert (Hm1' : 0 <= shr_m mrs1) by (rewrite Hm1; apply Z.shiftr_nonneg; exact Hmx).
  assert (Hd1 : Zdigits2 (shr_m mrs1) = Z.max 0 (Zdigits2 mx - Z.max 0 (fexp prec emax (Zdigits2 mx + ex) - ex))).
  { rewrite Hm1. apply Zdigits2_shiftr; lia. }
  assert (Hm2 : 0 <= m2 /\ Zdigits2 m2 <= Zdigits2 (shr_m mrs1) + 1).
  { subst m2. destruct (round_nearest_even_cases (shr_m mrs1) (loc_of_shr_record mrs1)) as [->| ->].
    - lia.
    - split; [lia|]. apply Zdigits2_succ. exact Hm1'. }
  destruct Hm2 as [Hm2 Hd2].
  pose proof (shr_fexp_spec m2 e1 loc_Exact Hm2) as [Hm3 He3].
  destruct (shr_fexp prec emax m2 e1 loc_Exact) as [mrs3 e3]. simpl fst in Hm3. simpl snd in He3.
  pose proof (Zdigits2_nonneg mx) as Hdmx.
  pose proof (Zdigits2_nonneg m2) as Hdm2.
  rewrite fexp_eq in *.
  assert (Hd3 : Zdigits2 (shr_m mrs3) = Z.max 0 (Zdigits2 m2 - Z.max 0 (Z.max (Zdigits2 m2 + e1 - 53) (-1074) - e1))).
  { rewrite Hm3. apply Zdigits2_shiftr; lia. }
  destruct (shr_m mrs3) as [|m|m] eqn:Em.
  - left. reflexivity.
  - simpl in Hd3.
    assert (He : e3 <= 971) by lia.
    apply Z.leb_le in He. change (emax - prec) with 971. rewrite He.
    right. exists m, e3. split; [reflexivity|]. lia.
  - exfalso. assert (0 <= Z.shiftr m2 (Z.max 0 (Z.max (Zdigits2 m2 + e1 - 53) (-1074) - e1)))
      by (apply Z.shiftr_nonneg; exact Hm2). lia.
Qed.

Lemma binary_round_aux_normal (mx ex : Z) (lx : location) :
  0 < mx -> 53 <= Zdigits2 mx -> -1074 <= Zdigits2 mx + ex - 53 -> Zdigits2 mx + ex <= 1023 ->
  exists m e, binary_round_aux prec emax false mx ex lx = S754_finite false m e
              /\ Zdigits2 mx + ex <= Zpos (digits2_pos m) + e <= Zdigits2 mx + ex + 1.
Proof.
  intros Hmx Hd Hlo Hhi. unfold binary_round_aux.
  assert (Hmx0 : 0 <= mx) by lia.
  pose proof (shr_fexp_spec mx ex lx Hmx0) as [Hm1 He1].
  destruct (shr_fexp prec emax mx ex lx) as [mrs1 e1]. simpl fst in Hm1. simpl snd in He1.
  set (m2 := round_nearest_even (shr_m mrs1) (loc_of_shr_record mrs1)).
  assert (Hm1' : 0 <= shr_m mrs1) by (rewrite Hm1; apply Z.shiftr_nonneg; lia).
  rewrite fexp_eq in *.
  assert (Hd1 : Zdigits2 (shr_m mrs1) = 53).
  { rewrite Hm1. rewrite Zdigits2_shiftr; lia. }
  assert (Hm2 : 0 <= m2 /\ 53 <= Zdigits2 m2 <= 54).
  { subst m2. destruct (round_nearest_even_cases (shr_m mrs1) (loc_of_shr_record mrs1)) as [->| ->].
    - lia.
    - split; [lia|]. pose proof (Zdigits2_succ (shr_m mrs1) Hm1').
      pose proof (Zdigits2_le_mono (shr_m mrs1) (shr_m mrs1 + 1)). lia. }
  destruct Hm2 as [Hm2 Hd2].
  pose proof (shr_fexp_spec m2 e1 loc_Exact Hm2) as [Hm3 He3].
  destruct (shr_fexp prec emax m2 e1 loc_Exact) as [mrs3 e3]. simpl fst in Hm3. simpl snd in He3.
  rewrite fexp_eq in *.
  assert (Hd3 : Zdigits2 (shr_m mrs3) = 53).
  { rewrite Hm3. rewrite Zdigits2_shiftr; lia. }
  assert (Hm3' : 0 <= shr_m mrs3) by (rewrite Hm3; apply Z.shiftr_nonneg; lia).
  destruct (shr_m mrs3) as [|m|m] eqn:Em; simpl in Hd3; try lia.
  assert (He : e3 <= 971) by lia.
  apply Z.leb_le in He. change (emax - prec) with 971. rewrite He.
  exists m, e3. split; [reflexivity|]. lia.
Qed.

Lemma Zpos_iter_xO (m d : positive) : Zpos (Pos.iter xO m d) = Z.shiftl (Zpos m) (Zpos d).
Proof. simpl. apply (Pos.iter_swap_gen _ _ Zpos xO (Z.mul 2)). reflexivity. Qed.

Lemma shl_align_spec (mx : positive) (ex ex' : Z) :
  snd (shl_align mx ex ex') = Z.min ex ex'
  /\ Zdigits2 (Zpos (fst (shl_align mx ex ex'))) + snd (shl_align mx ex ex')
     = Zdigits2 (Zpos mx) + ex.
Proof.
  unfold shl_align. destruct (ex' - ex) as [|d|d] eqn:E; simpl fst; simpl snd.
  - split; lia.
  - split; lia.
  - split; [lia|]. rewrite !Zdigits2_log2 by lia. rewrite Zpos_iter_xO.
    rewrite Z.log2_shiftl by lia. lia.
Qed.

Lemma binary_round_small (mx : positive) (ex k : Z) :
  Zdigits2 (Zpos mx) + ex <= k -> ex <= 971 -> 0 <= k <= 1023 ->
  small (k + 1) (binary_round prec emax false mx ex).
Proof.
  intros Hk Hex Hk'. unfold binary_round.
  pose proof (shl_align_spec mx ex (fexp prec emax (Zpos (digits2_pos mx) + ex))) as [He Hd].
  destruct (shl_align _ _ _) as [mz ez]. simpl fst in *. simpl snd in *.
  apply binary_round_aux_small; lia.
Qed.

Lemma binary_round_normal (mx : positive) (ex : Z) :
  -1074 <= Zdigits2 (Zpos mx) + ex - 53 -> Zdigits2 (Zpos mx) + ex <= 1023 ->
  exists m e, binary_round prec emax false mx ex = S754_finite false m e
              /\ Zdigits2 (Zpos mx) + ex <= Zpos (digits2_pos m) + e
                 <= Zdigits2 (Zpos mx) + ex + 1.
Proof.
  intros Hlo Hhi. unfold binary_round.
  pose proof (shl_align_spec mx ex (fexp prec emax (Zpos (digits2_pos mx) + ex))) as [He Hd].
  destruct (shl_align _ _ _) as [mz ez]. simpl fst in *. simpl snd in *.
  rewrite fexp_eq in He. change (Zpos (digits2_pos mx)) with (Zdigits2 (Zpos mx)) in He.
  destruct (binary_round_aux_normal (Zpos mz) ez loc_Exact) as (m & e & E & Hme); try lia.
  exists m, e. split; [exact E|]. lia.
Qed.

Lemma Zdigits2_mul (a b : positive) :
  Zdigits2 (Zpos (a * b)) <= Zdigits2 (Zpos a) + Zdigits2 (Zpos b).
Proof.
  rewrite Pos2Z.inj_mul. rewrite !Zdigits2_log2 by lia.
  pose proof (Z.log2_mul_above (Zpos a) (Zpos b)). lia.
Qed.

Lemma Zdigits2_add (a b : Z) :
  0 <= a -> 0 <= b -> Zdigits2 (a + b) <= Z.max (Zdigits2 a) (Zdigits2 b) + 1.
Proof.
  intros Ha Hb. pose proof (Zdigits2_nonneg a). pose proof (Zdigits2_nonneg b).
  apply Zdigits2_lt_pow2; try lia.
  assert (a < 2 ^ Z.max (Zdigits2 a) (Zdigits2 b)) by (apply Zdigits2_lt_pow2; lia).
  assert (b < 2 ^ Z.max (Zdigits2 a) (Zdigits2 b)) by (apply Zdigits2_lt_pow2; lia).
  rewrite Z.pow_add_r by lia. lia.
Qed.

Lemma Zdigits2_div (a b : Z) :
  0 <= a -> 0 < b -> Zdigits2 (a / b) <= Z.max 0 (Zdigits2 a - Zdigits2 b + 1).
Proof.
  intros Ha Hb. pose proof (Zdigits2_pos b Hb) as Hdb.
  replace (Zdigits2 a - Zdigits2 b + 1) with (Zdigits2 a - (Zdigits2 b - 1)) by lia.
  rewrite <- Zdigits2_shiftr by lia.
  apply Zdigits2_le_mono. split; [apply Z.div_pos; lia|].
  rewrite Z.shiftr_div_pow2 by lia.
  apply Z.div_le_compat_l; [exact Ha|]. split; [apply Z.pow_pos_nonneg; lia|].
  rewrite Zdigits2_log2 by lia. replace (Z.log2 b + 1 - 1) with (Z.log2 b) by lia.
  apply Z.log2_spec. exact Hb.
Qed.

(** A valid finite float has its exponent below its magnitude. *)
Lemma valid_exponent (m : positive) (e : Z) :
  valid_binary (S754_finite false m e) = true ->
  e = Z.max (Zpos (digits2_pos m) + e - 53) (-1074) /\ e <= 971.
Proof.
  unfold valid_binary, SpecFloat.bounded, canonical_mantissa. rewrite fexp_eq.
  intros Hv. apply andb_prop in Hv as [Hc He].
  apply Z.eqb_eq in Hc. apply Z.leb_le in He. change (emax - prec) with 971 in He. lia.
Qed.

Lemma SFmul_small (x y : spec_float) (kx ky : Z) :
  valid_binary x = true -> valid_binary y = true ->
  small kx x -> small ky y -> 0 <= kx -> 0 <= ky -> kx + ky <= 1023 ->
  small (kx + ky + 1) (SF64mul x y).
Proof.
  intros Vx Vy [->|(mx & ex & -> & Hx)] [->|(my & ey & -> & Hy)] Hkx Hky Hk;
    try (left; reflexivity).
  unfold SF64mul, SFmul. simpl xorb.
  apply valid_exponent in Vx as [Vx _]. apply valid_exponent in Vy as [Vy _].
  pose proof (Zdigits2_mul mx my) as Hd. simpl Zdigits2 in Hd.
  apply binary_round_aux_small; simpl Zdigits2; lia.
Qed.

Lemma SFadd_small (x y : spec_float) (kx ky : Z) :
  valid_binary x = true -> valid_binary y = true ->
  small kx x -> small ky y -> 0 <= kx -> 0 <= ky -> Z.max kx ky + 1 <= 1023 ->
  small (Z.max kx ky + 2) (SF64add x y).
Proof.
  intros Vx Vy [->|(mx & ex & -> & Hx)] [->|(my & ey & -> & Hy)] Hkx Hky Hk.
  - left. reflexivity.
  - right. exists my, ey. split; [reflexivity|lia].
  - right. exists mx, ex. split; [reflexivity|lia].
  - unfold SF64add, SFadd. simpl cond_Zopp.
    apply valid_exponent in Vx as [_ Vx]. apply valid_exponent in Vy as [_ Vy].
    pose proof (shl_align_spec mx ex (Z.min ex ey)) as [Hex Hdx].
    pose proof (shl_align_spec my ey (Z.min ex ey)) as [Hey Hdy].
    destruct (shl_align mx ex (Z.min ex ey)) as [mx' ex'].
    destruct (shl_align my ey (Z.min ex ey)) as [my' ey'].
    simpl fst in *. simpl snd in *.
    pose proof (Zdigits2_add (Zpos mx') (Zpos my') ltac:(lia) ltac:(lia)) as Hd.
    change (Zpos mx' + Zpos my') with (Zpos (mx' + my')) in *.
    simpl binary_normalize. simpl Zdigits2 in *.
    replace (Z.max kx ky + 2) with (Z.max kx ky + 1 + 1) by lia.
    change (IntDef.Z.min ex ey) with (Z.min ex ey).
    apply binary_round_small; simpl Zdigits2; lia.
Qed.

Lemma SFdiv_small (x : spec_float) (my : positive) (ey kx : Z) :
  small kx x -> 1 <= Zpos (digits2_pos my) + ey -> 0 <= kx <= 1023 ->
  small (kx + 1) (SF64div x (S754_finite false my ey)).
Proof.
  intros [->|(mx & ex & -> & Hx)] Hy Hkx; [left; reflexivity|].
  unfold SF64div, SFdiv, SFdiv_core_binary. simpl xorb.
  rewrite fexp_eq. simpl Zdigits2.
  set (d := Zpos (digits2_pos mx) + ex - (Zpos (digits2_pos my) + ey)).
  change (IntDef.Z.min (Z.max (d - 53) (-1074)) (ex - ey))
    with (Z.min (Z.max (d - 53) (-1074)) (ex - ey)).
  set (e' := Z.min (Z.max (d - 53) (-1074)) (ex - ey)).
  set (m' := match ex - ey - e' with
             | Z0 => Zpos mx
             | Zpos _ => Z.shiftl (Zpos mx) (ex - ey - e')
             | Zneg _ => 0
             end).
  assert (Hm' : m' = Z.shiftl (Zpos mx) (ex - ey - e')).
  { subst m'. destruct (ex - ey - e') eqn:E; try reflexivity. lia. }
  assert (Hpos : 0 < m') by (rewrite Hm', Z.shiftl_mul_pow2 by lia;
                             apply Z.mul_pos_pos; [lia|apply Z.pow_pos_nonneg; lia]).
  assert (Hdm' : Zdigits2 m' = Zpos (digits2_pos mx) + (ex - ey - e')).
  { rewrite Zdigits2_log2 by exact Hpos. rewrite Hm', Z.log2_shiftl by lia.
    change (Zpos (digits2_pos mx)) with (Zdigits2 (Zpos mx)).
    rewrite Zdigits2_log2 by lia. lia. }
  pose proof (Zdigits2_div m' (Zpos my) ltac:(lia) ltac:(lia)) as Hq.
  simpl (Zdigits2 (Zpos my)) in Hq.
  assert (H0q : 0 <= m' / Zpos my) by (apply Z.div_pos; lia).
  unfold Z.div in Hq, H0q.
  destruct (Z.div_eucl m' (Zpos my)) as [q r]. simpl fst in *.
  apply binary_round_aux_small; lia.
Qed.

Lemma binary_normalize_nat (z : Z) :
  0 < z < 2 ^ 63 ->
  exists m e, binary_normalize prec emax z 0 false = S754_finite false m e
              /\ 1 <= Zpos (digits2_pos m) + e <= 64.
Proof.
  intros Hz. destruct z as [|p|p]; try lia. simpl binary_normalize.
  assert (Hd : 1 <= Zdigits2 (Zpos p) <= 63).
  { split; [pose proof (Zdigits2_pos (Zpos p)); lia|]. apply Zdigits2_lt_pow2; lia. }
  destruct (binary_round_normal p 0) as (m & e & E & Hme); try lia.
  exists m, e. split; [exact E|]. lia.
Qed.

Lemma small_ordinary (k : Z) (x : spec_float) : small k x -> ordinary x.
Proof. intros [->|(m & e & -> & _)]; [left|right]; eauto. Qed.

Lemma SFltb_finite (m1 m2 : positive) (e1 e2 : Z) :
  SFltb (S754_finite false m1 e1) (S754_finite false m2 e2) = true
  <-> e1 < e2 \/ (e1 = e2 /\ (m1 < m2)%positive).
Proof.
  unfold SFltb, SFcompare. change (Pos.compare_cont Eq m1 m2) with (Pos.compare m1 m2).
  destruct (Z.compare_spec e1 e2) as [->|Hlt|Hgt].
  - destruct (Pos.compare_spec m1 m2) as [->|Hm|Hm]; split; try lia; try discriminate;
      intros; reflexivity.
  - split; [lia|reflexivity].
  - split; [discriminate|lia].
Qed.

Lemma SFltb_inf (x : spec_float) : ordinary x -> SFltb x (S754_infinity false) = true.
Proof. intros [->|(m & e & ->)]; reflexivity. Qed.

Lemma SFltb_irrefl (x : spec_float) : ordinary x -> SFltb x x = false.
Proof.
  intros [->|(m & e & ->)]; [reflexivity|].
  apply not_true_is_false. rewrite SFltb_finite. lia.
Qed.

Lemma SFltb_trans (x y z : spec_float) :
  ordinary x -> ordinary y -> ordinary z ->
  SFltb x y = true -> SFltb y z = true -> SFltb x z = true.
Proof.
  intros [->|(mx & ex & ->)] [->|(my & ey & ->)] [->|(mz & ez & ->)];
    try discriminate; try reflexivity.
  rewrite !SFltb_finite. lia.
Qed.

Lemma SFltb_weak (x y z : spec_float) :
  ordinary x -> ordinary y -> ordinary z ->
  SFltb x z = true -> SFltb y z = false -> SFltb x y = true.
Proof.
  intros [->|(mx & ex & ->)] [->|(my & ey & ->)] [->|(mz & ez & ->)];
    try discriminate; try reflexivity.
  rewrite <- not_true_iff_false. rewrite !SFltb_finite. lia.
Qed.

Lemma small_mono (k k' : Z) (x : spec_float) : small k x -> k <= k' -> small k' x.
Proof.
  intros [->|(m & e & -> & Hme)] Hk; [left; reflexivity|].
  right. exists m, e. split; [reflexivity|lia].
Qed.

Lemma float_of_nat_0 : Prim2SF (float_of_nat 0) = S754_zero false.
Proof. reflexivity. Qed.

Lemma float_of_nat_finite (n : nat) :
  (0 < n)%nat -> Z.of_nat n < 2 ^ 63 ->
  exists m e, Prim2SF (float_of_nat n) = S754_finite false m e
              /\ 1 <= Zpos (digits2_pos m) + e <= 64.
Proof.
  intros Hn Hlt. unfold float_of_nat. rewrite FloatAxioms.of_uint63_spec, Uint63.of_Z_spec.
  change wB with (2 ^ 63). rewrite Z.mod_small by lia.
  apply binary_normalize_nat. lia.
Qed.

Lemma float_of_nat_small (n : nat) : Z.of_nat n < 2 ^ 63 -> fsmall 64 (float_of_nat n).
Proof.
  intros Hlt. unfold fsmall. destruct n as [|n].
  - left. reflexivity.
  - destruct (float_of_nat_finite (S n)) as (m & e & -> & Hme); [lia|exact Hlt|].
    right. exists m, e. split; [reflexivity|lia].
Qed.

Lemma float_mul_small (x y : float) (kx ky : Z) :
  fsmall kx x -> fsmall ky y -> 0 <= kx -> 0 <= ky -> kx + ky <= 1023 ->
  fsmall (kx + ky + 1) (x * y)%float.
Proof.
  unfold fsmall. intros Hx Hy Hkx Hky Hk. rewrite FloatAxioms.mul_spec.
  apply SFmul_small; auto using Prim2SF_valid.
Qed.

Lemma float_add_small (x y : float) (kx ky : Z) :
  fsmall kx x -> fsmall ky y -> 0 <= kx -> 0 <= ky -> Z.max kx ky + 1 <= 1023 ->
  fsmall (Z.max kx ky + 2) (x + y)%float.
Proof.
  unfold fsmall. intros Hx Hy Hkx Hky Hk. rewrite FloatAxioms.add_spec.
  apply SFadd_small; auto using Prim2SF_valid.
Qed.

(** [len(bucket) / pool_len] *)
Lemma float_ratio_small (a n : nat) :
  (0 < n)%nat -> Z.of_nat a < 2 ^ 63 -> Z.of_nat n < 2 ^ 63 ->
  fsmall 65 (float_of_nat a / float_of_nat n)%float.
Proof.
  intros Hn Ha Hlt. unfold fsmall. rewrite FloatAxioms.div_spec.
  destruct (float_of_nat_finite n Hn Hlt) as (m & e & -> & Hme).
  apply (SFdiv_small _ m e 64); [|lia|lia].
  apply float_of_nat_small. exact Ha.
Qed.

Lemma float_weighted_small (bucket : list word) (n : nat) (s : float) (k : Z) :
  (0 < n)%nat -> (length bucket <= n)%nat -> Z.of_nat n < 2 ^ 63 ->
  fsmall k s -> 0 <= k <= 900 ->
  fsmall (k + 66) (weighted bucket n s).
Proof.
  intros Hn Hlen Hlt Hs Hk. unfold weighted.
  cbn [num_mul num_div num_of_nat float_arith].
  replace (k + 66) with (65 + k + 1) by lia.
  apply float_mul_small; try lia; [|exact Hs].
  apply float_ratio_small; lia.
Qed.

(** Every binary64 score of well-formed words is [+0] or positive and
    finite (in fact below [2^414]). *)
Lemma float_score_small (g : word) (pool : list word) :
  (L <= String.length g)%nat ->
  Forall (fun w => (L <= String.length w)%nat) pool ->
  Z.of_nat (length pool) < 2 ^ 63 ->
  exists s, score_spec (T:=float) L g pool = Ok s /\ fsmall 414 s.
Proof.
  intros Hg Hpool Hlen.
  destruct (score_spec_invariant
              (fun left pool s =>
                 (left <= L)%nat -> Z.of_nat (length pool) < 2 ^ 63 ->
                 fsmall (64 + 70 * Z.of_nat left) s)
              g Hg) with (left := L) (pool := pool) as (s & Hs & HP);
    [| | |reflexivity|exact Hpool|].
  - intros left p _ _ _. cbn [num_of_nat float_arith].
    eapply small_mono; [apply float_of_nat_small|]; lia.
  - intros p _ _ Hp. cbn [num_of_nat float_arith].
    eapply small_mono; [apply float_of_nat_small; exact Hp|]; lia.
  - intros left p a b c sa sb sc Hp Hsum Ha Hb Hc Hleft Hplen. unfold L in *.
    set (k := 64 + 70 * Z.of_nat left).
    assert (Hk : 0 <= k <= 900) by lia.
    assert (Hwa : fsmall (k + 66) (weighted a (length p) sa)).
    { apply float_weighted_small; try lia. apply Ha; lia. }
    assert (Hwb : fsmall (k + 66) (weighted b (length p) sb)).
    { apply float_weighted_small; try lia. apply Hb; lia. }
    assert (Hwc : fsmall (k + 66) (weighted c (length p) sc)).
    { apply float_weighted_small; try lia. apply Hc; lia. }
    cbn [num_add float_arith].
    pose proof (float_add_small _ _ _ _ Hwa Hwb ltac:(lia) ltac:(lia) ltac:(lia)) as Hab.
    replace (Z.max (k + 66) (k + 66) + 2) with (k + 68) in Hab by lia.
    pose proof (float_add_small _ _ _ _ Hab Hwc ltac:(lia) ltac:(lia) ltac:(lia)) as Habc.
    eapply small_mono; [exact Habc|]. lia.
  - exists s. split; [exact Hs|].
    eapply small_mono; [apply HP; [reflexivity|exact Hlen]|]. unfold L. lia.
Qed.

(** The order [<] of binary64 on ordinary values, and [float('inf')]. *)
Lemma float_ltb_inf (x : float) : fordinary x -> num_ltb x num_inf = true.
Proof.
  intros Hx. cbn [num_ltb num_inf float_order]. rewrite FloatAxioms.ltb_spec.
  exact (SFltb_inf _ Hx).
Qed.

Lemma float_ltb_irrefl (x : float) : fordinary x -> num_ltb x x = false.
Proof.
  intros Hx. cbn [num_ltb float_order]. rewrite FloatAxioms.ltb_spec. exact (SFltb_irrefl _ Hx).
Qed.

Lemma float_ltb_trans (x y z : float) :
  fordinary x -> fordinary y -> fordinary z ->
  num_ltb x y = true -> num_ltb y z = true -> num_ltb x z = true.
Proof.
  cbn [num_ltb float_order]. rewrite !FloatAxioms.ltb_spec. apply SFltb_trans.
Qed.

Lemma float_ltb_weak (x y z : float) :
  fordinary x -> fordinary y -> fordinary z ->
  num_ltb x z = true -> num_ltb y z = false -> num_ltb x y = true.
Proof.
  cbn [num_ltb float_order]. rewrite !FloatAxioms.ltb_spec. apply SFltb_weak.
Qed.
End FloatFacts.

(** ** The guess selector *)

Lemma recursive_build_tree_spec {T : Type} `{Arith T} (pool : list word) (g : word) :
  snd <$> recursive_build_tree (T:=T) pool g = score_spec L g pool.
Proof.
  unfold recursive_build_tree.
  pose proof (calculate_score_spec (T:=T) g 0 (root_node (Tree_init g pool))) as E.
  cbn [Tree_init root_node node_pool Node_init] in *. rewrite Nat.sub_0_r in E.
  rewrite <- E. destruct (calculate_score g 0 (Node_init pool)) as [[s root]|e]; reflexivity.
Qed.

Lemma recursive_build_tree_Ok {T : Type} `{Arith T} (pool : list word) (g : word) (s : T) :
  score_spec L g pool = Ok s ->
  exists t, recursive_build_tree pool g = Ok (t, s) /\ val t = g.
Proof.
  intros Hs. pose proof (recursive_build_tree_spec (T:=T) pool g) as E. rewrite Hs in E.
  unfold recursive_build_tree in *.
  destruct (calculate_score g 0 (root_node (Tree_init g pool))) as [[s' root]|e];
    [|discriminate].
  cbn in E. injection E as ->. eexists. split; reflexivity.
Qed.

Lemma recursive_build_tree_score {T : Type} `{Arith T}
      (pool : list word) (g : word) (t : Tree) (s : T) :
  recursive_build_tree pool g = Ok (t, s) -> score_spec L g pool = Ok s.
Proof.
  intros Ht. rewrite <- recursive_build_tree_spec, Ht. reflexivity.
Qed.

Lemma elem_of_middle {A : Type} (x : A) (l1 l2 : list A) : x ∈ l1 ++ x :: l2.
Proof. apply elem_of_app. right. apply elem_of_cons. left. reflexivity. Qed.

Section SelectorFacts.
Context {T : Type} `{Arith T} `{Order T}.

(** The scores that occur, and what the selection needs of [<] on them. *)
Variable ok : T -> Prop.
Hypothesis ok_lt_inf : forall x, ok x -> num_ltb x num_inf = true.
Hypothesis ok_irrefl : forall x, ok x -> num_ltb x x = false.
Hypothesis ok_trans : forall x y z, ok x -> ok y -> ok z ->
  num_ltb x y = true -> num_ltb y z = true -> num_ltb x z = true.
Hypothesis ok_weak : forall x y z, ok x -> ok y -> ok z ->
  num_ltb x z = true -> num_ltb y z = false -> num_ltb x y = true.

Variable pool : list word.

Lemma find_guess_loop_keeps (rest l1 l2 : list word) (t : Tree) (s : T) :
  Forall (scored_ok ok pool) (l1 ++ val t :: l2 ++ rest) ->
  recursive_build_tree pool (val t) = Ok (t, s) ->
  (forall g s', g ∈ l1 -> score_spec L g pool = Ok s' -> num_ltb s s' = true) ->
  (forall g s', g ∈ l2 -> score_spec L g pool = Ok s' -> num_ltb s' s = false) ->
  exists t' s',
    find_guess_loop pool rest (Some t, s) = Ok (Some t', s')
    /\ first_minimal pool (l1 ++ val t :: l2 ++ rest) t' s'.
Proof.
  revert l1 l2 t s. induction rest as [|g rest IH]; intros l1 l2 t s Hall Ht Hl1 Hl2.
  - exists t, s. split; [reflexivity|]. split; [exact Ht|].
    exists l1, l2. rewrite app_nil_r. auto.
  - assert (Hoks : ok s).
    { rewrite Forall_forall in Hall. destruct (Hall (val t)) as (s0 & Hs0 & Hok).
      - apply elem_of_middle.
      - apply recursive_build_tree_score in Ht. congruence. }
    assert (Hg : scored_ok ok pool g).
    { rewrite Forall_forall in Hall. apply Hall.
      apply elem_of_app. right. apply elem_of_cons. right.
      apply elem_of_middle. }
    destruct Hg as (sg & Hsg & Hoksg).
    destruct (recursive_build_tree_Ok pool g sg Hsg) as (tg & Htg & Hval).
    cbn [find_guess_loop]. rewrite Htg. cbn [mbind res_bind snd].
    destruct (num_ltb sg s) eqn:Hlt.
    + (* a strictly lower score: the new guess is kept *)
      destruct (IH (l1 ++ val t :: l2) [] tg sg) as (t' & s' & Hloop & Hmin).
      * rewrite Hval. cbn [app]. rewrite <- app_assoc. cbn [app]. exact Hall.
      * rewrite Hval. exact Htg.
      * intros h sh Hin Hsh.
        assert (Hoksh : ok sh).
        { rewrite Forall_forall in Hall. destruct (Hall h) as (s0 & Hs0 & Hok).
          - rewrite app_comm_cons, app_assoc. apply elem_of_app. left. exact Hin.
          - congruence. }
        apply elem_of_app in Hin as [Hin|Hin];
          [|apply elem_of_cons in Hin as [->|Hin]].
        -- apply (ok_trans sg s sh); eauto.
        -- apply recursive_build_tree_score in Ht.
           assert (sh = s) by congruence. subst sh. exact Hlt.
        -- apply (ok_weak sg sh s); eauto.
      * intros h sh Hin. inversion Hin.
      * exists t', s'. split; [exact Hloop|].
        rewrite Hval in Hmin. cbn [app] in Hmin. rewrite <- app_assoc in Hmin.
        exact Hmin.
    + (* not strictly lower: the earlier guess is kept *)
      destruct (IH l1 (l2 ++ [g]) t s) as (t' & s' & Hloop & Hmin).
      * rewrite <- app_assoc. exact Hall.
      * exact Ht.
      * exact Hl1.
      * intros h sh Hin Hsh. apply elem_of_app in Hin as [Hin|Hin]; [eauto|].
        apply list_elem_of_singleton in Hin as ->.
        assert (sh = sg) by congruence. subst sh. exact Hlt.
      * exists t', s'. split; [exact Hloop|].
        rewrite <- app_assoc in Hmin. exact Hmin.
Qed.

Lemma find_guess_loop_first_minimal (guesses : list word) :
  guesses <> [] ->
  Forall (scored_ok ok pool) guesses ->
  exists t s,
    find_guess_loop pool guesses (None, num_inf) = Ok (Some t, s)
    /\ first_minimal pool guesses t s.
Proof.
  intros Hne Hall. destruct guesses as [|g rest]; [congruence|].
  pose proof Hall as Hall'. apply Forall_cons in Hall' as [(sg & Hsg & Hok) _].
  destruct (recursive_build_tree_Ok pool g sg Hsg) as (tg & Htg & Hval).
  cbn [find_guess_loop]. rewrite Htg. cbn [mbind res_bind snd].
  rewrite (ok_lt_inf sg Hok).
  destruct (find_guess_loop_keeps rest [] [] tg sg) as (t & s & Hloop & Hmin).
  - rewrite Hval. exact Hall.
  - rewrite Hval. exact Htg.
  - intros h sh Hin. inversion Hin.
  - intros h sh Hin. inversion Hin.
  - exists t, s. split; [exact Hloop|]. rewrite Hval in Hmin. exact Hmin.
Qed.

(** The kept guess is one of the guesses, and no guess scores strictly
    lower. *)
Lemma first_minimal_minimal (guesses : list word) (t : Tree) (s : T) :
  Forall (scored_ok ok pool) guesses ->
  first_minimal pool guesses t s ->
  val t ∈ guesses
  /\ forall g s', g ∈ guesses -> score_spec L g pool = Ok s' -> num_ltb s' s = false.
Proof.
  intros Hall (Ht & l1 & l2 & -> & Hl1 & Hl2). split; [apply elem_of_middle|].
  apply recursive_build_tree_score in Ht.
  assert (Hoks : ok s).
  { rewrite Forall_forall in Hall. destruct (Hall (val t)) as (s0 & Hs0 & Hok).
    - apply elem_of_middle.
    - congruence. }
  intros g s' Hin Hs'.
  assert (Hoks' : ok s').
  { rewrite Forall_forall in Hall. destruct (Hall g Hin) as (s0 & Hs0 & Hok).
    congruence. }
  apply elem_of_app in Hin as [Hin|Hin]; [|apply elem_of_cons in Hin as [->|Hin]].
  - specialize (Hl1 g s' Hin Hs'). destruct (num_ltb s' s) eqn:Hlt; [|reflexivity].
    pose proof (ok_trans s s' s Hoks Hoks' Hoks Hl1 Hlt) as Hss.
    rewrite (ok_irrefl s Hoks) in Hss. discriminate.
  - assert (s' = s) by congruence. subst s'. apply ok_irrefl. exact Hoks.
  - eauto.
Qed.
End SelectorFacts.

(** *** The selector on binary64 scores *)

Lemma float_scored_ok (pool : list word) (guesses : list word) :
  Forall (fun w => L <= String.length w) guesses ->
  Forall (fun w => L <= String.length w) pool ->
  (Z.of_nat (length pool) < 2 ^ 53)%Z ->
  Forall (scored_ok (T:=float) fordinary pool) guesses.
Proof.
  intros Hguesses Hpool Hlen. eapply Forall_impl; [exact Hguesses|].
  intros g Hg. cbv beta in Hg.
  destruct (float_score_small g pool Hg Hpool) as (s & Hs & Hsmall); [lia|].
  exists s. split; [exact Hs|]. exact (small_ordinary _ _ Hsmall).
Qed.

Lemma find_guess_float (self : MyWordleAgent) (fb : string) :
  can_guess self <> [] ->
  Forall (fun w => L <= String.length w) (can_guess self) ->
  Forall (fun w => L <= String.length w) (pool self) ->
  (Z.of_nat (length (pool self)) < 2 ^ 53)%Z ->
  feedback_so_far self = Some fb ->
  exists (t : Tree) (s : float),
    find_guess (T:=float) self
    = (Ok (Some t),
       if String.length fb =? 0 then count_search self
       else set_cache (setdefault (cache self) fb (val t)) (count_search self))
    /\ first_minimal (pool self) (can_guess self) t s
    /\ val t ∈ can_guess self
    /\ (forall g s', g ∈ can_guess self ->
          score_spec L g (pool self) = Ok s' -> PrimFloat.ltb s' s = false).
Proof.
  intros Hne Hguesses Hpool Hlen Hfb.
  pose proof (float_scored_ok (pool self) (can_guess self) Hguesses Hpool Hlen) as Hall.
  destruct (find_guess_loop_first_minimal (T:=float) fordinary float_ltb_inf
              float_ltb_trans float_ltb_weak (pool self) (can_guess self) Hne Hall)
    as (t & s & Hloop & Hmin).
  destruct (first_minimal_minimal (T:=float) fordinary float_ltb_irrefl float_ltb_trans
              (pool self) (can_guess self) t s Hall Hmin) as [Hin Hleast].
  exists t, s. split_and!; [|exact Hmin|exact Hin|exact Hleast].
  unfold find_guess. cbn [pool can_guess feedback_so_far cache count_search].
  rewrite Hloop, Hfb. destruct (String.length fb =? 0); reflexivity.
Qed.

(** C5: with a non-empty list of guesses, words of at least five letters, a
    pool shorter than [2^53] and a feedback history that is a string,
    [find_guess] returns a tree whose guess is one of the guesses (the
    allowed ones, as [can_guess] is [allowed]); it is the first guess in
    iteration order whose score no guess undercuts: every earlier guess
    scores strictly higher, no later guess scores strictly lower, and so no
    guess at all scores strictly lower. *)
Theorem find_guess_first_minimal (self : MyWordleAgent) (fb : string) :
  can_guess self = allowed self ->
  allowed self <> [] ->
  Forall (fun w => L <= String.length w) (allowed self) ->
  Forall (fun w => L <= String.length w) (pool self) ->
  (Z.of_nat (length (pool self)) < 2 ^ 53)%Z ->
  feedback_so_far self = Some fb ->
  exists (t : Tree) (s : float),
    (find_guess (T:=float) self).1 = Ok (Some t)
    /\ recursive_build_tree (pool self) (val t) = Ok (t, s)
    /\ val t ∈ allowed self
    /\ (forall g s', g ∈ allowed self ->
          score_spec L g (pool self) = Ok s' -> PrimFloat.ltb s' s = false)
    /\ exists earlier later,
        allowed self = earlier ++ val t :: later
        /\ (forall g s', g ∈ earlier ->
              score_spec L g (pool self) = Ok s' -> PrimFloat.ltb s s' = true)
        /\ (forall g s', g ∈ later ->
              score_spec L g (pool self) = Ok s' -> PrimFloat.ltb s' s = false).
Proof.
  intros Hcg Hne Hallowed Hpool Hlen Hfb. rewrite <- Hcg in *.
  destruct (find_guess_float self fb Hne Hallowed Hpool Hlen Hfb)
    as (t & s & Hfind & (Ht & l1 & l2 & Hsplit & Hl1 & Hl2) & Hin & Hleast).
  exists t, s. rewrite Hfind. split_and!; try done.
  exists l1, l2. auto.
Qed.

Lemma find_guess_first_minimal_witness :
  can_guess agent_at_start = allowed agent_at_start /\
  allowed agent_at_start <> [] /\
  Forall (fun w => L <= String.length w) (allowed agent_at_start) /\
  Forall (fun w => L <= String.length w) (pool agent_at_start) /\
  (Z.of_nat (length (pool agent_at_start)) < 2 ^ 53)%Z /\
  feedback_so_far agent_at_start = Some "" /\
  exists (t : Tree) (s : float),
    (find_guess (T:=float) agent_at_start).1 = Ok (Some t)
    /\ recursive_build_tree (pool agent_at_start) (val t) = Ok (t, s)
    /\ val t ∈ allowed agent_at_start
    /\ (forall g s', g ∈ allowed agent_at_start ->
          score_spec L g (pool agent_at_start) = Ok s' -> PrimFloat.ltb s' s = false)
    /\ exists earlier later,
        allowed agent_at_start = earlier ++ val t :: later
        /\ (forall g s', g ∈ earlier ->
              score_spec L g (pool agent_at_start) = Ok s' -> PrimFloat.ltb s s' = true)
        /\ (forall g s', g ∈ later ->
              score_spec L g (pool agent_at_start) = Ok s' -> PrimFloat.ltb s' s = false).
Proof.
  assert (H1 : can_guess agent_at_start = allowed agent_at_start) by reflexivity.
  assert (H2 : allowed agent_at_start <> []) by discriminate.
  assert (H3 : Forall (fun w => L <= String.length w) (allowed agent_at_start))
    by (repeat constructor; vm_compute; lia).
  assert (H4 : Forall (fun w => L <= String.length w) (pool agent_at_start))
    by (repeat constructor; vm_compute; lia).
  assert (H5 : (Z.of_nat (length (pool agent_at_start)) < 2 ^ 53)%Z) by (vm_compute; reflexivity).
  assert (H6 : feedback_so_far agent_at_start = Some "") by reflexivity.
  split_and!; try assumption.
  exact (find_guess_first_minimal agent_at_start "" H1 H2 H3 H4 H5 H6).
Defined.

(** ** The agent: cache, first guess and decision order *)

Lemma setdefault_lookup_Some (d : gmap string string) (k v k' v' : string) :
  d !! k' = Some v' -> setdefault d k v !! k' = Some v'.
Proof.
  intros Hk'. unfold setdefault. destruct (d !! k) eqn:Hk; [exact Hk'|].
  rewrite lookup_insert_ne; [exact Hk'|]. congruence.
Qed.

Lemma setdefault_lookup_other (d : gmap string string) (k v k' : string) :
  k <> k' -> setdefault d k v !! k' = d !! k'.
Proof.
  intros Hne. unfold setdefault. destruct (d !! k); [reflexivity|].
  apply lookup_insert_ne. exact Hne.
Qed.

Section AgentFacts.
Context {T : Type} `{Arith T} `{Order T}.
Lemma find_guess_frame (self : MyWordleAgent) :
  same_game self (find_guess self).2
  /\ guess (find_guess self).2 = guess self
  /\ searches (find_guess self).2 = S (searches self)
  /\ (cache (find_guess self).2 = cache self
      \/ exists fb t, feedback_so_far self = Some fb /\ fb <> ""
                      /\ (find_guess self).1 = Ok (Some t)
                      /\ cache (find_guess self).2 = setdefault (cache self) fb (val t)).
Proof.
  unfold find_guess, same_game.
  destruct (find_guess_loop _ _ _) as [[bt bs]|e]; cbn; [|tauto].
  destruct (feedback_so_far self) as [fb|] eqn:Hfb; cbn; [|tauto].
  destruct (String.length fb =? 0) eqn:Hlen; cbn; [tauto|].
  destruct bt as [t|]; cbn; [|tauto].
  split_and!; try done. right. exists fb, t. split_and!; try done.
  intros ->. discriminate.
Qed.

Lemma find_guess_val_frame (self : MyWordleAgent) :
  same_game self (find_guess_val self).2
  /\ guess (find_guess_val self).2 = guess self
  /\ searches (find_guess_val self).2 = S (searches self)
  /\ (cache (find_guess_val self).2 = cache self
      \/ exists fb w, feedback_so_far self = Some fb /\ fb <> ""
                      /\ (find_guess_val self).1 = Ok w
                      /\ cache (find_guess_val self).2 = setdefault (cache self) fb w).
Proof.
  pose proof (find_guess_frame self) as (Hs & Hg & Hn & Hc).
  unfold find_guess_val. destruct (find_guess self) as [[[t|]|e] self']; cbn in *;
    (split_and!; [exact Hs|exact Hg|exact Hn|]).
  - destruct Hc as [Hc|(fb & t' & Hfb & Hne & [= <-] & Hc)]; [tauto|].
    right. exists fb, (val t). auto.
  - destruct Hc as [Hc|(fb & t' & _ & _ & [=] & _)]. tauto.
  - destruct Hc as [Hc|(fb & t' & _ & _ & [=] & _)]. tauto.
Qed.

(** With the first guess stored, [first_guess] resets the game and returns
    it: no search, no write to the cache. *)
Lemma first_guess_memo (self : MyWordleAgent) (w : word) :
  guess self = Some w ->
  first_guess self =
    (Ok w, set_feedback_so_far (Some "")
             (set_can_guess (allowed self) (set_pool (possible self) self))).
Proof. intros Hg. unfold first_guess. cbn. rewrite Hg. reflexivity. Qed.

(** After a first guess was returned, the next [first_guess] returns the
    same word and leaves the agent as it is. *)
Lemma first_guess_again (self self' : MyWordleAgent) (w : word) :
  first_guess self = (Ok w, self') ->
  guess self' = Some w /\ first_guess self' = (Ok w, self').
Proof.
  intros Hfirst.
  assert (Hstate : guess self' = Some w /\ pool self' = possible self'
                   /\ can_guess self' = allowed self'
                   /\ feedback_so_far self' = Some "").
  { revert Hfirst. unfold first_guess.
    cbn [guess set_feedback_so_far set_can_guess set_pool].
    destruct (guess self) as [w0|] eqn:Hguess.
    - intros [= <- <-]. cbn. auto.
    - match goal with |- context [find_guess_val ?a] => set (self0 := a) end.
      pose proof (find_guess_val_frame self0) as ((Ha & Hp & Hpool & Hcg & Hfb) & _).
      destruct (find_guess_val self0) as [[w0|e] self1]; [|discriminate].
      intros [= <- <-]. cbn in *. rewrite Ha, Hp, Hpool, Hcg, Hfb. auto. }
  destruct Hstate as (Hg & Hpool & Hcg & Hfb). split; [exact Hg|].
  rewrite (first_guess_memo self' w Hg). f_equal.
  destruct self'; cbn in *. subst. reflexivity.
Qed.

(** C7: [next_guess] decides in this order: a pool of at most three words
    gives its first word, with no search and no use of the cache; else a
    feedback history found in the cache gives the cached guess, with no
    search; else the result is that of the guess selector, which was run
    once. *)
Theorem next_guess_decision_order (self : MyWordleAgent) :
  (forall w rest, pool self = w :: rest -> length (pool self) <= 3 ->
     next_guess self = (Ok w, self))
  /\ (forall fb w, 3 < length (pool self) ->
        feedback_so_far self = Some fb -> cache self !! fb = Some w ->
        next_guess self = (Ok w, self))
  /\ (3 < length (pool self) ->
      (forall fb, feedback_so_far self = Some fb -> cache self !! fb = None) ->
      next_guess self = find_guess_val self
      /\ searches (next_guess self).2 = S (searches self)).
Proof.
  unfold next_guess, GUESS_RANDOM_POOL_SIZE. split_and!.
  - intros w rest Hpool Hlen. apply Nat.leb_le in Hlen. rewrite Hlen, Hpool. reflexivity.
  - intros fb w Hlen Hfb Hhit. apply Nat.leb_gt in Hlen. rewrite Hlen, Hfb. cbn.
    rewrite Hhit. reflexivity.
  - intros Hlen Hmiss. apply Nat.leb_gt in Hlen. rewrite Hlen.
    assert (Hnone : feedback_so_far self ≫= (fun fb => cache self !! fb) = None).
    { destruct (feedback_so_far self) as [fb|]; cbn; auto. }
    rewrite Hnone. split; [reflexivity|].
    apply (find_guess_val_frame self).
Qed.

(** C9: on an empty pool [next_guess] raises [IndexError] and leaves the
    agent as it is: the caller gets a failure, not a word. *)
Theorem next_guess_empty_pool (self : MyWordleAgent) :
  pool self = [] -> next_guess self = (Raise IndexError, self).
Proof. intros Hpool. unfold next_guess. rewrite Hpool. reflexivity. Qed.
End AgentFacts.

Lemma next_guess_empty_pool_witness :
  pool agent_without_pool = []
  /\ next_guess (T:=float) agent_without_pool = (Raise IndexError, agent_without_pool).
Proof.
  assert (H : pool agent_without_pool = []) by reflexivity.
  split; [exact H|]. exact (next_guess_empty_pool (T:=float) agent_without_pool H).
Defined.

Section AgentRuns.
Context {T : Type} `{Arith T} `{Order T}.
Variable filter_possible_words : word -> list string -> list word -> list word.

(** One call never removes or changes a cache entry, never adds the empty
    key and never changes a first guess already stored. *)
Lemma step_keeps (self : MyWordleAgent) (c : call) :
  (forall k v, cache self !! k = Some v -> cache (step filter_possible_words self c) !! k = Some v)
  /\ (cache self !! "" = None -> cache (step filter_possible_words self c) !! "" = None)
  /\ (forall w, guess self = Some w -> guess (step filter_possible_words self c) = Some w).
Proof.
  destruct c as [| |g fb]; cbn [step].
  - unfold first_guess. cbn [guess set_feedback_so_far set_can_guess set_pool].
    destruct (guess self) as [w|] eqn:Hguess; cbn; [unchanged|].
    match goal with |- context [find_guess_val ?a] => set (self0 := a) end.
    pose proof (find_guess_val_frame self0) as (_ & _ & _ & Hc).
    destruct (find_guess_val self0) as [[w|e] self']; cbn in *;
      (destruct Hc as [->|(fb & w' & [= <-] & Hne & _)]; [unchanged|congruence]).
  - unfold next_guess.
    destruct (length (pool self) <=? GUESS_RANDOM_POOL_SIZE).
    { destruct (pool self); cbn; unchanged. }
    destruct (feedback_so_far self ≫= _); cbn; [unchanged|].
    pose proof (find_guess_val_frame self) as (_ & Hg & _ & Hc).
    destruct (find_guess_val self) as [r self']; cbn in *.
    split_and!.
    + intros k v Hk. destruct Hc as [->|(fb & w & _ & _ & _ & ->)]; [exact Hk|].
      apply setdefault_lookup_Some. exact Hk.
    + intros Hk. destruct Hc as [->|(fb & w & _ & Hne & _ & ->)]; [exact Hk|].
      rewrite setdefault_lookup_other by exact Hne. exact Hk.
    + intros w. rewrite Hg. tauto.
  - unfold report_feedback. cbn [feedback_so_far set_pool].
    destruct (feedback_so_far self); cbn; unchanged.
Qed.

(** A call that adds a key to the cache is a [next_guess] whose search
    succeeded; the key is the feedback history, which is not empty, and the
    value is the guess returned. *)
Lemma step_inserts (self : MyWordleAgent) (c : call) (k v : string) :
  cache self !! k = None ->
  cache (step filter_possible_words self c) !! k = Some v ->
  c = NextGuess /\ feedback_so_far self = Some k /\ k <> ""
  /\ (next_guess self).1 = Ok v.
Proof.
  intros Hnone. destruct c as [| |g fb]; cbn [step].
  - destruct (step_keeps self FirstGuess) as (_ & _ & _).
    unfold first_guess. cbn [guess set_feedback_so_far set_can_guess set_pool].
    destruct (guess self) as [w|] eqn:Hguess; cbn; [congruence|].
    match goal with |- context [find_guess_val ?a] => set (self0 := a) end.
    pose proof (find_guess_val_frame self0) as (_ & _ & _ & Hc).
    destruct (find_guess_val self0) as [[w|e] self']; cbn in *;
      (destruct Hc as [->|(fb & w' & [= <-] & Hne & _)]; congruence).
  - unfold next_guess.
    destruct (length (pool self) <=? GUESS_RANDOM_POOL_SIZE).
    { destruct (pool self); cbn; congruence. }
    destruct (feedback_so_far self ≫= _) eqn:Hhit; cbn; [congruence|].
    pose proof (find_guess_val_frame self) as (_ & _ & _ & Hc).
    destruct (find_guess_val self) as [r self']; cbn in *.
    destruct Hc as [->|(fb & w & Hfb & Hne & -> & ->)]; [congruence|].
    intros Hk. destruct (decide (fb = k)) as [->|Hfbk].
    + split_and!; try done. rewrite Hfb in Hhit. cbn in Hhit.
      unfold setdefault in Hk. rewrite Hhit, lookup_insert_eq in Hk. congruence.
    + rewrite setdefault_lookup_other in Hk by exact Hfbk. congruence.
  - unfold report_feedback. cbn [feedback_so_far set_pool].
    destruct (feedback_so_far self); cbn; congruence.
Qed.

Lemma run_keeps (cs : list call) (self : MyWordleAgent) :
  (forall k v, cache self !! k = Some v -> cache (run filter_possible_words cs self) !! k = Some v)
  /\ (cache self !! "" = None -> cache (run filter_possible_words cs self) !! "" = None)
  /\ (forall w, guess self = Some w -> guess (run filter_possible_words cs self) = Some w).
Proof.
  revert self. induction cs as [|c cs IH]; intros self; cbn; [tauto|].
  destruct (step_keeps self c) as (H1 & H2 & H3).
  destruct (IH (step filter_possible_words self c)) as (I1 & I2 & I3).
  split_and!; eauto.
Qed.

(** C6: in every state [a] the agent reaches from its construction, the
    cache has no entry for the empty history, and a call that adds a key
    adds the current, non-empty feedback history; whatever calls follow, an
    entry of the cache keeps its value (the first writer wins) and so does
    the stored first guess, which [first_guess] then returns without a
    search and without touching the cache. *)
Theorem cache_and_first_guess_write_once
        (allowed possible : list word) (cs cs' : list call) :
  let a := run filter_possible_words cs (initialize_agent allowed possible) in
  let a' := run filter_possible_words cs' a in
  cache a !! "" = None
  /\ (forall c k v, cache a !! k = None ->
        cache (step filter_possible_words a c) !! k = Some v ->
        feedback_so_far a = Some k /\ k <> "")
  /\ (forall k v, cache a !! k = Some v -> cache a' !! k = Some v)
  /\ (forall w, guess a = Some w ->
        guess a' = Some w
        /\ (first_guess a').1 = Ok w
        /\ guess (first_guess a').2 = Some w
        /\ cache (first_guess a').2 = cache a'
        /\ searches (first_guess a').2 = searches a').
Proof.
  intros a a'.
  destruct (run_keeps cs (initialize_agent allowed possible)) as (_ & Hempty & _).
  destruct (run_keeps cs' a) as (Hkeep & _ & Hguess).
  split_and!.
  - apply Hempty. reflexivity.
  - intros c k v Hnone Hsome.
    destruct (step_inserts a c k v Hnone Hsome) as (_ & Hfb & Hne & _). auto.
  - exact Hkeep.
  - intros w Hw. specialize (Hguess w Hw). fold a' in Hguess.
    rewrite (first_guess_memo a' w Hguess). cbn. auto.
Qed.

(** One call keeps the allowed words and the guesses searched. *)
Lemma step_can_guess (self : MyWordleAgent) (c : call) :
  allowed (step filter_possible_words self c) = allowed self
  /\ (can_guess self = allowed self ->
      can_guess (step filter_possible_words self c) = allowed self).
Proof.
  destruct c as [| |g fb]; cbn [step].
  - unfold first_guess. cbn [guess set_feedback_so_far set_can_guess set_pool].
    destruct (guess self); [cbn; auto|].
    match goal with |- context [find_guess_val ?a] => set (self0 := a) end.
    pose proof (find_guess_val_frame self0) as ((Ha & _ & _ & Hcg & _) & _).
    destruct (find_guess_val self0) as [[w|e] self1]; cbn in *; rewrite Ha, Hcg; auto.
  - unfold next_guess.
    destruct (length (pool self) <=? GUESS_RANDOM_POOL_SIZE).
    { destruct (pool self); cbn; auto. }
    destruct (feedback_so_far self ≫= _); [cbn; auto|].
    pose proof (find_guess_val_frame self) as ((Ha & _ & _ & Hcg & _) & _).
    rewrite Ha, Hcg. auto.
  - unfold report_feedback. cbn [feedback_so_far set_pool].
    destruct (feedback_so_far self); cbn; auto.
Qed.

(** X15: the agent always searches over all its allowed words: after any
    sequence of calls on a new agent, [allowed] is the list it was
    constructed with and [can_guess] is the same list. *)
Lemma run_can_guess (allowed_words possible_words : list word) (cs : list call) :
  allowed (run filter_possible_words cs (initialize_agent allowed_words possible_words))
  = allowed_words
  /\ can_guess (run filter_possible_words cs (initialize_agent allowed_words possible_words))
     = allowed_words.
Proof.
  assert (Hgen : forall self,
             can_guess self = allowed self ->
             allowed (run filter_possible_words cs self) = allowed self
             /\ can_guess (run filter_possible_words cs self) = allowed self).
  { induction cs as [|c cs IH]; intros self Hself; cbn [run foldl]; [auto|].
    destruct (step_can_guess self c) as [Ha Hcg].
    destruct (IH (step filter_possible_words self c)) as [Ia Icg].
    - rewrite Ha. auto.
    - unfold run in Ia, Icg. rewrite Ia, Icg, Ha. auto. }
  apply (Hgen (initialize_agent allowed_words possible_words)). reflexivity.
Qed.

Lemma step_feedback_so_far (self : MyWordleAgent) (c : call) :
  match c with
  | FirstGuess => feedback_so_far (step filter_possible_words self c) = Some ""
  | _ => feedback_so_far (step filter_possible_words self c) = None
         <-> feedback_so_far self = None
  end.
Proof.
  destruct c as [| |g fb]; cbn [step].
  - unfold first_guess. cbn [guess set_feedback_so_far set_can_guess set_pool].
    destruct (guess self); [reflexivity|].
    match goal with |- context [find_guess_val ?a] => set (self0 := a) end.
    pose proof (find_guess_val_frame self0) as ((_ & _ & _ & _ & Hfb) & _).
    destruct (find_guess_val self0) as [[w|e] self1]; cbn in *; exact Hfb.
  - unfold next_guess.
    destruct (length (pool self) <=? GUESS_RANDOM_POOL_SIZE).
    { destruct (pool self); reflexivity. }
    destruct (feedback_so_far self ≫= _); [reflexivity|].
    pose proof (find_guess_val_frame self) as ((_ & _ & _ & _ & Hfb) & _).
    rewrite Hfb. reflexivity.
  - unfold report_feedback. cbn [feedback_so_far set_pool].
    destruct (feedback_so_far self) eqn:Hfb; cbn; rewrite ?Hfb; split; congruence.
Qed.

Lemma run_feedback_so_far (cs : list call) (self : MyWordleAgent) :
  (FirstGuess ∈ cs -> is_Some (feedback_so_far (run filter_possible_words cs self)))
  /\ (FirstGuess ∉ cs -> feedback_so_far self = None ->
      feedback_so_far (run filter_possible_words cs self) = None)
  /\ (is_Some (feedback_so_far self) ->
      is_Some (feedback_so_far (run filter_possible_words cs self))).
Proof.
  revert self. induction cs as [|c cs IH]; intros self; cbn [run foldl].
  - split_and!; [intros Hin; inversion Hin|auto|auto].
  - destruct (IH (step filter_possible_words self c)) as (I1 & I2 & I3).
    fold (run filter_possible_words cs (step filter_possible_words self c)).
    pose proof (step_feedback_so_far self c) as Hstep.
    assert (Hsome : is_Some (feedback_so_far self) ->
                    is_Some (feedback_so_far (step filter_possible_words self c))).
    { destruct c; [rewrite Hstep; eauto| |];
        rewrite <- !not_eq_None_Some; tauto. }
    split_and!.
    + intros Hin. apply elem_of_cons in Hin as [<-|Hin]; [|auto].
      apply I3. rewrite Hstep. eauto.
    + intros Hnotin Hnone. apply not_elem_of_cons in Hnotin as [Hc Hnotin].
      apply I2; [exact Hnotin|]. destruct c; [congruence| |]; apply Hstep; exact Hnone.
    + auto.
Qed.

(** C10: a freshly constructed agent has [feedback_so_far = None], and
    [report_feedback] raises [TypeError] on it, also after any calls of
    [next_guess] and [report_feedback]; once [first_guess] was called,
    [report_feedback] succeeds. *)
Theorem report_feedback_needs_first_guess
        (allowed possible : list word) (cs : list call) (g : word) (feedback : list string) :
  let a := run filter_possible_words cs (initialize_agent allowed possible) in
  feedback_so_far (initialize_agent allowed possible) = None
  /\ (FirstGuess ∉ cs -> (report_feedback filter_possible_words g feedback a).1 = Raise TypeError)
  /\ (FirstGuess ∈ cs -> (report_feedback filter_possible_words g feedback a).1 = Ok tt).
Proof.
  intros a.
  destruct (run_feedback_so_far cs (initialize_agent allowed possible)) as (H1 & H2 & _).
  fold a in H1, H2. split_and!.
  - reflexivity.
  - intros Hnot. specialize (H2 Hnot eq_refl).
    unfold report_feedback. cbn [feedback_so_far set_pool]. rewrite H2. reflexivity.
  - intros Hin. destruct (H1 Hin) as [fb Hfb].
    unfold report_feedback. cbn [feedback_so_far set_pool]. rewrite Hfb. reflexivity.
Qed.
End AgentRuns.


(** C8: on a freshly constructed agent with a non-empty list of allowed
    words, all words of at least five letters and fewer than [2^53] possible
    answers, [first_guess] returns an allowed word after one search, and a
    second [first_guess] returns the same word and leaves the agent as it
    is: the search counter stays at one. *)
Theorem first_guess_idempotent (allowed_words possible_words : list word) :
  allowed_words <> [] ->
  Forall (fun w => L <= String.length w) allowed_words ->
  Forall (fun w => L <= String.length w) possible_words ->
  (Z.of_nat (length possible_words) < 2 ^ 53)%Z ->
  exists (w : word) (a1 : MyWordleAgent),
    first_guess (T:=float) (initialize_agent allowed_words possible_words) = (Ok w, a1)
    /\ first_guess (T:=float) a1 = (Ok w, a1)
    /\ w ∈ allowed_words
    /\ guess a1 = Some w
    /\ searches a1 = 1
    /\ searches (first_guess (T:=float) a1).2 = 1.
Proof.
  intros Hne Hallowed Hpossible Hlen.
  set (self0 := set_feedback_so_far (Some "")
                  (set_can_guess allowed_words
                     (set_pool possible_words
                        (initialize_agent allowed_words possible_words)))).
  destruct (find_guess_float self0 "") as (t & s & Hfind & _ & Hin & _); try done.
  cbn in Hfind, Hin.
  assert (Hfirst : first_guess (T:=float) (initialize_agent allowed_words possible_words)
                   = (Ok (val t), set_guess (Some (val t)) (count_search self0))).
  { unfold first_guess, find_guess_val. cbn [guess initialize_agent set_feedback_so_far
      set_can_guess set_pool allowed possible].
    fold self0. rewrite Hfind. reflexivity. }
  destruct (first_guess_again _ _ _ Hfirst) as [Hguess Hagain].
  exists (val t), (set_guess (Some (val t)) (count_search self0)).
  split_and!; first [done | rewrite Hagain; reflexivity].
Qed.

Lemma first_guess_idempotent_witness :
  answers <> [] /\
  Forall (fun w => L <= String.length w) answers /\
  (Z.of_nat (length answers) < 2 ^ 53)%Z /\
  exists (w : word) (a1 : MyWordleAgent),
    first_guess (T:=float) (initialize_agent answers answers) = (Ok w, a1)
    /\ first_guess (T:=float) a1 = (Ok w, a1)
    /\ w ∈ answers
    /\ guess a1 = Some w
    /\ searches a1 = 1
    /\ searches (first_guess (T:=float) a1).2 = 1.
Proof.
  assert (H1 : answers <> []) by discriminate.
  assert (H2 : Forall (fun w => L <= String.length w) answers)
    by (repeat constructor; vm_compute; lia).
  assert (H3 : (Z.of_nat (length answers) < 2 ^ 53)%Z) by (vm_compute; reflexivity).
  split_and!; try assumption.
  exact (first_guess_idempotent answers answers H1 H2 H2 H3).
Defined.

(** ** A game on the word list of the unit tests

    The external filter is replaced by one that keeps the pool as it is.
    [birch], [beech] and [cedar] all score 1; the first is kept, as
    [Test_first_guess] expects.  After one feedback the search result is
    cached under the feedback history, and the next request is served from
    the cache without a search. *)

Example game_first_guess :
  (first_guess (T:=float) (initialize_agent answers answers)).1 = Ok "birch".
Proof. vm_compute. reflexivity. Qed.

Example game_next_guess_searches :
  let a := run (T:=float) (fun _ _ p => p)
               [FirstGuess; ReportFeedback "birch" ["gray"; "gray"; "gray"; "gray"; "gray"]]
               (initialize_agent answers answers) in
  let a' := (next_guess (T:=float) a).2 in
  feedback_so_far a = Some "graygraygraygraygray"
  /\ cache a !! "graygraygraygraygray" = None
  /\ searches a = 1
  /\ (next_guess (T:=float) a).1 = Ok "birch"
  /\ cache a' !! "graygraygraygraygray" = Some "birch"
  /\ searches a' = 2
  /\ (next_guess (T:=float) a').1 = Ok "birch"
  /\ searches (next_guess (T:=float) a').2 = 2.
Proof. vm_compute. repeat split; reflexivity. Qed.

Example game_small_pool :
  (next_guess (T:=float) (set_pool ["cedar"; "maple"] agent_at_start))
  = (Ok "cedar", set_pool ["cedar"; "maple"] agent_at_start).
Proof. reflexivity. Qed.

(** * Further properties of the code *)

(** ** [get_pool]: when it raises *)

Lemma colour_at_None (g w : word) (pos : nat) :
  colour_at g pos w = None <-> String.length g <= pos \/ String.length w <= pos.
Proof.
  split.
  - intros Hnone.
    destruct (Nat.le_gt_cases (String.length g) pos) as [Hg|Hg]; [auto|].
    destruct (Nat.le_gt_cases (String.length w) pos) as [Hw|Hw]; [auto|].
    destruct (colour_at_total g w pos Hg Hw) as [c Hc]. congruence.
  - unfold colour_at. intros [Hg|Hw].
    + pose proof (index_Raise g pos Hg) as E. unfold index in E.
      destruct (String.get pos g); [discriminate|reflexivity].
    + pose proof (index_Raise w pos Hw) as E. unfold index in E.
      destruct (String.get pos g); [|reflexivity].
      destruct (String.get pos w); [discriminate|reflexivity].
Qed.

Lemma get_pool_step_None (g w : word) (pos : nat) (ret : buckets) :
  colour_at g pos w = None -> get_pool_step g pos ret w = Raise IndexError.
Proof.
  destruct ret as [[gs ys] rs]. unfold colour_at, get_pool_step, index.
  destruct (String.get pos g) as [a|]; [|reflexivity].
  destruct (String.get pos w) as [b|]; [discriminate|reflexivity].
Qed.

Lemma get_pool_loop_cases (g : word) (pos : nat) (pool gs ys rs : list word) :
  (Forall (fun w => is_Some (colour_at g pos w)) pool
   /\ get_pool_loop g pos pool (gs, ys, rs) =
        Ok (gs ++ filter (fun w => colour_at g pos w = Some Green) pool,
            ys ++ filter (fun w => colour_at g pos w = Some Yellow) pool,
            rs ++ filter (fun w => colour_at g pos w = Some Grey) pool))
  \/ (Exists (fun w => colour_at g pos w = None) pool
      /\ get_pool_loop g pos pool (gs, ys, rs) = Raise IndexError).
Proof.
  revert gs ys rs. induction pool as [|w pool IH]; intros gs ys rs.
  - left. split; [constructor|]. cbn [get_pool_loop]. rewrite !filter_nil, !app_nil_r.
    reflexivity.
  - cbn [get_pool_loop]. destruct (colour_at g pos w) as [c|] eqn:Hc.
    + rewrite (get_pool_step_colour _ _ _ c _ _ _ Hc). cbn [mbind res_bind].
      rewrite !filter_cons, Hc.
      destruct c;
        match goal with |- context [get_pool_loop g pos pool (?a, ?b, ?d)] =>
          destruct (IH a b d) as [[Hall ->]|[Hex ->]] end;
        first [ left; split; [constructor; [rewrite Hc; eauto|exact Hall]|];
                simpl; rewrite <- ?app_assoc; reflexivity
              | right; split; [apply Exists_cons_tl; exact Hex|reflexivity] ].
    + right. split; [apply Exists_cons_hd; exact Hc|].
      rewrite (get_pool_step_None _ _ _ _ Hc). reflexivity.
Qed.

Lemma get_pool_Ok_inv (g : word) (pos : nat) (pool a b c : list word) :
  get_pool g pos pool = Ok (a, b, c) ->
  Forall (fun w => is_Some (colour_at g pos w)) pool
  /\ a = filter (fun w => colour_at g pos w = Some Green) pool
  /\ b = filter (fun w => colour_at g pos w = Some Yellow) pool
  /\ c = filter (fun w => colour_at g pos w = Some Grey) pool.
Proof.
  unfold get_pool. destruct (get_pool_loop_cases g pos pool [] [] [])
    as [[Hall ->]|[_ ->]]; [|discriminate].
  intros [= <- <- <-]. auto.
Qed.

(** X1: [get_pool] raises exactly when the pool holds a word that cannot be
    indexed at [pos] against the guess: the guess or the word is too short.
    It raises nothing but [IndexError]; a position out of range goes
    unnoticed on an empty pool. *)
Theorem get_pool_raises_iff (g : word) (pos : nat) (pool : list word) :
  (get_pool g pos pool = Raise IndexError <->
   exists w, w ∈ pool /\ (String.length g <= pos \/ String.length w <= pos))
  /\ (forall e, get_pool g pos pool = Raise e -> e = IndexError)
  /\ ((forall w, w ∈ pool -> pos < String.length g /\ pos < String.length w) ->
      exists a b c, get_pool g pos pool = Ok (a, b, c)).
Proof.
  unfold get_pool.
  destruct (get_pool_loop_cases g pos pool [] [] []) as [[Hall E]|[Hex E]]; rewrite E.
  - split_and!.
    + split; [discriminate|]. intros (w & Hin & Hshort).
      rewrite Forall_forall in Hall. destruct (Hall w Hin) as [c Hc].
      apply colour_at_None in Hshort. congruence.
    + discriminate.
    + intros _. eauto.
  - split_and!.
    + split; [|reflexivity]. intros _. apply Exists_exists in Hex as (w & Hin & Hnone).
      exists w. split; [exact Hin|]. apply colour_at_None. exact Hnone.
    + intros e [= <-]. reflexivity.
    + intros Hok. exfalso. apply Exists_exists in Hex as (w & Hin & Hnone).
      apply colour_at_None in Hnone. destruct (Hok w Hin). lia.
Qed.

(** ** The tree that [calculate_score] builds *)

Lemma calculate_score_fuel_built {T : Type} `{Arith T}
      (fuel : nat) (g : word) (pos : nat) (p : list word) (s : T) (n : Node) :
  calculate_score_fuel fuel g pos (Node_init p) = Ok (s, n) ->
  built g pos p n /\ s = tree_score n.
Proof.
  revert pos p s n. induction fuel as [|fuel IH]; intros pos p s n; [discriminate|].
  cbn [calculate_score_fuel node_pool Node_init].
  destruct (length p <=? MIN_POOL_SIZE) eqn:Hlen.
  { intros [= <- <-]. split.
    - apply built_leaf. left. apply Nat.leb_le in Hlen. exact Hlen.
    - cbn. rewrite Hlen. reflexivity. }
  destruct (LAST_POSITION <? pos) eqn:Hpos.
  { intros [= <- <-]. split.
    - apply built_leaf. right. apply Nat.ltb_lt in Hpos. exact Hpos.
    - cbn. rewrite Hlen. reflexivity. }
  apply Nat.leb_gt in Hlen. apply Nat.ltb_ge in Hpos.
  destruct (get_pool g pos p) as [[[a b] c]|e] eqn:Hpool; [|discriminate].
  cbn [mbind res_bind].
  destruct (calculate_score_fuel fuel g (pos + 1) (Node_init a)) as [[sa na]|e] eqn:Ha;
    [|discriminate].
  cbn [mbind res_bind].
  destruct (calculate_score_fuel fuel g (pos + 1) (Node_init b)) as [[sb nb]|e] eqn:Hb;
    [|discriminate].
  cbn [mbind res_bind].
  destruct (calculate_score_fuel fuel g (pos + 1) (Node_init c)) as [[sc nc]|e] eqn:Hc;
    [|discriminate].
  cbn [mbind res_bind]. intros [= <- <-].
  destruct (IH _ _ _ _ Ha) as [Ba ->]. destruct (IH _ _ _ _ Hb) as [Bb ->].
  destruct (IH _ _ _ _ Hc) as [Bc ->].
  split.
  - eapply built_node; eauto.
  - assert (Hna : node_pool na = a) by (inversion Ba; reflexivity).
    assert (Hnb : node_pool nb = b) by (inversion Bb; reflexivity).
    assert (Hnc : node_pool nc = c) by (inversion Bc; reflexivity).
    cbn [tree_score]. rewrite Hna, Hnb, Hnc. reflexivity.
Qed.

Lemma built_node_pool (g : word) (pos : nat) (p : list word) (n : Node) :
  built g pos p n -> node_pool n = p.
Proof. intros B. inversion B; reflexivity. Qed.

Lemma recursive_build_tree_built {T : Type} `{Arith T}
      (pool : list word) (g : word) (t : Tree) (s : T) :
  recursive_build_tree pool g = Ok (t, s) ->
  val t = g /\ built g 0 pool (root_node t) /\ s = tree_score (root_node t).
Proof.
  unfold recursive_build_tree, calculate_score.
  cbn [Tree_init root_node val].
  destruct (calculate_score_fuel _ g 0 (Node_init pool)) as [[s' root]|e] eqn:E;
    [|discriminate].
  cbn [mbind res_bind]. intros [= <- <-]. cbn [val root_node].
  destruct (calculate_score_fuel_built _ _ _ _ _ _ E) as [B ->]. auto.
Qed.

Lemma recursive_build_tree_total {T : Type} `{Arith T} (pool : list word) (g : word) :
  L <= String.length g ->
  Forall (fun w => L <= String.length w) pool ->
  exists (t : Tree) (s : T), recursive_build_tree pool g = Ok (t, s).
Proof.
  intros Hg Hpool.
  destruct (score_spec_invariant (fun _ _ _ => True) g Hg) with
    (left := L) (pool := pool) as (s & Hs & _); auto.
  destruct (recursive_build_tree_Ok pool g s Hs) as (t & Ht & _). eauto.
Qed.

Lemma built_leaves (g : word) (pos : nat) (p : list word) (n : Node) :
  built g pos p n ->
  concat (leaf_pools n) ≡ₚ p /\ height n <= S LAST_POSITION - pos.
Proof.
  induction 1 as [pos p Hleaf|pos p a b c na nb nc Hlen Hpos Hpool _ [IHa Ha] _ [IHb Hb] _ [IHc Hc]].
  - cbn. rewrite app_nil_r. split; [reflexivity|lia].
  - cbn [leaf_pools height]. split.
    + rewrite !concat_app, IHa, IHb, IHc.
      apply get_pool_Ok_inv in Hpool as (Hall & -> & -> & ->).
      apply colour_filters_Permutation. exact Hall.
    + unfold LAST_POSITION in *. lia.
Qed.

(** X2: the tree [recursive_build_tree] returns is rooted at the guess and
    the pool, has at most five levels below the root, and its nodes without
    children hold every word of the pool exactly once between them.  On
    words of at least five letters a tree is returned. *)
Theorem recursive_build_tree_leaves {T : Type} `{Arith T} (pool : list word) (g : word) :
  (forall (t : Tree) (s : T),
      recursive_build_tree pool g = Ok (t, s) ->
      val t = g
      /\ node_pool (root_node t) = pool
      /\ concat (leaf_pools (root_node t)) ≡ₚ pool
      /\ height (root_node t) <= 5)
  /\ (L <= String.length g ->
      Forall (fun w => L <= String.length w) pool ->
      exists (t : Tree) (s : T), recursive_build_tree pool g = Ok (t, s)).
Proof.
  split; [|apply recursive_build_tree_total].
  intros t s Ht. apply recursive_build_tree_built in Ht as (Hval & B & _).
  destruct (built_leaves _ _ _ _ B) as [Hperm Hheight].
  split_and!; [exact Hval|exact (built_node_pool _ _ _ _ B)|exact Hperm|].
  unfold LAST_POSITION in Hheight. lia.
Qed.

Lemma colours_from_cons (g w : word) (pos k : nat) (c : colour) (cs : list colour) :
  colours_from g pos (S k) w = Some (c :: cs)
  <-> colour_at g pos w = Some c /\ colours_from g (S pos) k w = Some cs.
Proof.
  cbn [colours_from].
  destruct (colour_at g pos w) as [c'|]; [|split; [discriminate|intros [? _]; discriminate]].
  destruct (colours_from g (S pos) k w) as [cs'|];
    [|split; [discriminate|intros [_ ?]; discriminate]].
  split; [intros [= -> ->]; auto|intros [[= ->] [= ->]]; reflexivity].
Qed.

Lemma filter_all {A : Type} (P : A -> Prop) `{forall x, Decision (P x)} (l : list A) :
  (forall x, P x) -> filter P l = l.
Proof.
  intros HP. induction l as [|x l IH]; [reflexivity|].
  rewrite filter_cons_True by apply HP. rewrite IH. reflexivity.
Qed.

Lemma built_child (g : word) (pos : nat) (p : list word) (n m : Node) (c : colour) :
  built g pos p n ->
  child c n = Some m ->
  1 < length p /\ pos <= LAST_POSITION
  /\ built g (pos + 1) (filter (fun w => colour_at g pos w = Some c) p) m.
Proof.
  intros B Hchild. destruct B as [pos p Hleaf|pos p a b d na nb nc Hlen Hpos Hpool Ba Bb Bc].
  - destruct c; discriminate.
  - apply get_pool_Ok_inv in Hpool as (_ & -> & -> & ->).
    destruct c; cbn in Hchild; injection Hchild as <-; auto.
Qed.

Lemma built_descend (g : word) (path : list colour) (pos : nat) (p : list word) (n m : Node) :
  built g pos p n ->
  descend path n = Some m ->
  built g (pos + length path)
        (filter (fun w => colours_from g pos (length path) w = Some path) p) m.
Proof.
  revert pos p n. induction path as [|c path IH]; intros pos p n B Hpath.
  - cbn in Hpath. injection Hpath as <-. cbn [length colours_from].
    rewrite Nat.add_0_r, filter_all by reflexivity. exact B.
  - cbn [descend] in Hpath. destruct (child c n) as [k|] eqn:Hchild; [|discriminate].
    destruct (built_child _ _ _ _ _ _ B Hchild) as (_ & _ & Bk).
    specialize (IH _ _ _ Bk Hpath). cbn [length].
    replace (pos + S (length path)) with (pos + 1 + length path) by lia.
    rewrite list_filter_filter in IH.
    rewrite (list_filter_iff _
               (fun w => colours_from g (pos + 1) (length path) w = Some path
                         /\ colour_at g pos w = Some c)); [exact IH|].
    intros w. rewrite colours_from_cons, Nat.add_1_r. tauto.
Qed.

Lemma built_descend_depth (g : word) (path : list colour) (pos : nat) (p : list word)
      (n m : Node) :
  built g pos p n ->
  descend path n = Some m ->
  path = [] \/ pos + length path <= S LAST_POSITION.
Proof.
  revert pos p n. induction path as [|c path IH]; intros pos p n B Hpath; [auto|].
  right. cbn [descend] in Hpath. destruct (child c n) as [k|] eqn:Hchild; [|discriminate].
  destruct (built_child _ _ _ _ _ _ B Hchild) as (_ & Hpos & Bk).
  destruct (IH _ _ _ Bk Hpath) as [->|Hle]; cbn [length]; lia.
Qed.

(** X3: in the tree [recursive_build_tree] returns, the node reached from
    the root by a path of colours holds exactly the words of the pool, in
    pool order, whose letters against the guess take these colours: after
    [green, green] the words that share the first two letters of the
    guess, as the docstring of [Tree] draws it.  No path is longer than
    five. *)
Theorem recursive_build_tree_path {T : Type} `{Arith T} (pool : list word) (g : word) :
  (forall (t : Tree) (s : T) (path : list colour) (m : Node),
      recursive_build_tree pool g = Ok (t, s) ->
      descend path (root_node t) = Some m ->
      node_pool m = filter (fun w => colours_from g 0 (length path) w = Some path) pool
      /\ length path <= 5)
  /\ (L <= String.length g ->
      Forall (fun w => L <= String.length w) pool ->
      exists (t : Tree) (s : T), recursive_build_tree pool g = Ok (t, s)).
Proof.
  split; [|apply recursive_build_tree_total].
  intros t s path m Ht Hpath. apply recursive_build_tree_built in Ht as (_ & B & _).
  pose proof (built_descend _ _ _ _ _ _ B Hpath) as Bm.
  split; [exact (built_node_pool _ _ _ _ Bm)|].
  destruct (built_descend_depth _ _ _ _ _ _ B Hpath) as [->|Hle]; cbn [length].
  - lia.
  - unfold LAST_POSITION in Hle. lia.
Qed.

Lemma built_children (g : word) (pos : nat) (p : list word) (n : Node) (c : colour) :
  built g pos p n ->
  is_Some (child c n) <-> 1 < length p /\ pos <= LAST_POSITION.
Proof.
  intros B. destruct B as [pos p Hleaf|pos p a b d na nb nc Hlen Hpos Hpool Ba Bb Bc].
  - split.
    + intros [m Hm]. destruct c; discriminate.
    + intros [H1 H2]. lia.
  - split; [auto|]. intros _. destruct c; cbn; eauto.
Qed.

(** X4: the tree is built lazily: a node of the tree [recursive_build_tree]
    returns has a child of a given colour exactly when its pool has more
    than one word and it lies fewer than five levels below the root; the
    three children come together. *)
Theorem recursive_build_tree_lazy {T : Type} `{Arith T} (pool : list word) (g : word) :
  (forall (t : Tree) (s : T) (path : list colour) (m : Node) (c : colour),
      recursive_build_tree pool g = Ok (t, s) ->
      descend path (root_node t) = Some m ->
      (is_Some (child c m) <-> 1 < length (node_pool m) /\ length path < 5)
      /\ (is_Some (green m) <-> is_Some (yellow m))
      /\ (is_Some (yellow m) <-> is_Some (grey m)))
  /\ (L <= String.length g ->
      Forall (fun w => L <= String.length w) pool ->
      exists (t : Tree) (s : T), recursive_build_tree pool g = Ok (t, s)).
Proof.
  split; [|apply recursive_build_tree_total].
  intros t s path m c Ht Hpath. apply recursive_build_tree_built in Ht as (_ & B & _).
  pose proof (built_descend _ _ _ _ _ _ B Hpath) as Bm.
  pose proof (built_node_pool _ _ _ _ Bm) as Hpool. cbn [Nat.add] in Bm.
  pose proof (fun c => built_children _ _ _ _ c Bm) as Hc.
  rewrite <- Hpool in Hc. unfold LAST_POSITION in Hc.
  split_and!.
  - rewrite (Hc c). lia.
  - rewrite (Hc Green), (Hc Yellow). tauto.
  - rewrite (Hc Yellow), (Hc Grey). tauto.
Qed.

(** ** The score and the order of the pool *)

Lemma get_pool_Permutation (g : word) (pos : nat) (p p' : list word) :
  p ≡ₚ p' ->
  match get_pool g pos p, get_pool g pos p' with
  | Ok (a, b, c), Ok (a', b', c') => a ≡ₚ a' /\ b ≡ₚ b' /\ c ≡ₚ c'
  | Raise e, Raise e' => e = e'
  | _, _ => False
  end.
Proof.
  intros Hperm. unfold get_pool.
  destruct (get_pool_loop_cases g pos p [] [] []) as [[Hall ->]|[Hex ->]];
    destruct (get_pool_loop_cases g pos p' [] [] []) as [[Hall' ->]|[Hex' ->]].
  - cbn [app]. rewrite Hperm. auto.
  - rewrite Hperm in Hall. apply Exists_exists in Hex' as (w & Hin & Hnone).
    rewrite Forall_forall in Hall. destruct (Hall w Hin) as [c Hc]. congruence.
  - rewrite <- Hperm in Hall'. apply Exists_exists in Hex as (w & Hin & Hnone).
    rewrite Forall_forall in Hall'. destruct (Hall' w Hin) as [c Hc]. congruence.
  - reflexivity.
Qed.

Lemma score_spec_Permutation {T : Type} `{Arith T} (left : nat) (g : word) (p p' : list word) :
  p ≡ₚ p' -> score_spec (T:=T) left g p = score_spec left g p'.
Proof.
  revert p p'. induction left as [|left IH]; intros p p' Hperm; cbn [score_spec];
    rewrite <- (Permutation_length Hperm); destruct (length p <=? 1); try reflexivity.
  pose proof (get_pool_Permutation g (L - S left) p p' Hperm) as Hpool.
  destruct (get_pool g (L - S left) p) as [[[a b] c]|e];
    destruct (get_pool g (L - S left) p') as [[[a' b'] c']|e']; try contradiction.
  - destruct Hpool as (Ha & Hb & Hc). cbn [mbind res_bind].
    rewrite (IH a a' Ha), (IH b b' Hb), (IH c c' Hc).
    unfold weighted.
    rewrite (Permutation_length Ha), (Permutation_length Hb), (Permutation_length Hc).
    reflexivity.
  - subst e'. reflexivity.
Qed.

(** X6: the score of a guess does not depend on the order of the words in
    the pool: on two pools that are permutations of each other
    [recursive_build_tree] returns the same score, bit for bit in binary64,
    or raises the same exception. *)
Theorem score_ignores_pool_order {T : Type} `{Arith T} (g : word) (p p' : list word) :
  p ≡ₚ p' ->
  snd <$> recursive_build_tree (T:=T) p g = snd <$> recursive_build_tree (T:=T) p' g.
Proof.
  intros Hperm. rewrite !recursive_build_tree_spec.
  apply score_spec_Permutation. exact Hperm.
Qed.

Lemma score_ignores_pool_order_witness :
  answers ≡ₚ reverse answers
  /\ snd <$> recursive_build_tree (T:=float) answers "ebony"
     = snd <$> recursive_build_tree (T:=float) (reverse answers) "ebony".
Proof.
  assert (Hperm : answers ≡ₚ reverse answers) by (symmetry; apply reverse_Permutation).
  split; [exact Hperm|].
  exact (score_ignores_pool_order (T:=float) "ebony" answers (reverse answers) Hperm).
Defined.

(** ** More on the agent *)

Lemma string_app_nil_r (x : string) : x +:+ "" = x.
Proof.
  induction x as [|c x IH]; [reflexivity|].
  change (String c (x +:+ "") = String c x). rewrite IH. reflexivity.
Qed.

Lemma string_app_assoc (x y z : string) : (x +:+ y) +:+ z = x +:+ (y +:+ z).
Proof.
  induction x as [|c x IH]; [reflexivity|].
  change (String c ((x +:+ y) +:+ z) = String c (x +:+ (y +:+ z))).
  rewrite IH. reflexivity.
Qed.

Lemma string_concat_app (l k : list string) :
  String.concat "" (l ++ k) = String.concat "" l +:+ String.concat "" k.
Proof.
  induction l as [|x l IH]; [reflexivity|].
  cbn [app]. destruct l as [|y l].
  - cbn [app String.concat]. destruct k as [|z k]; cbn [String.concat].
    + rewrite string_app_nil_r. reflexivity.
    + reflexivity.
  - cbn [app String.concat] in *. rewrite IH. rewrite !string_app_assoc. reflexivity.
Qed.

Ltac not_first_guess H :=
  repeat (apply elem_of_cons in H as [H|H]; [discriminate|]); inversion H.

Section AgentGames.
Context {T : Type} `{Arith T} `{Order T}.
Variable filter_possible_words : word -> list string -> list word -> list word.

Lemma step_game (self : MyWordleAgent) (c : call) :
  c <> FirstGuess ->
  possible (step filter_possible_words self c) = possible self
  /\ forall fb, feedback_so_far self = Some fb ->
      match c with
      | ReportFeedback g feedback =>
          feedback_so_far (step filter_possible_words self c)
          = Some (fb +:+ String.concat "" feedback)
          /\ pool (step filter_possible_words self c)
             = filter_possible_words g feedback (pool self)
      | _ =>
          feedback_so_far (step filter_possible_words self c) = Some fb
          /\ pool (step filter_possible_words self c) = pool self
      end.
Proof.
  intros Hc. destruct c as [| |g feedback]; [destruct Hc; reflexivity| |]; cbn [step].
  - unfold next_guess.
    destruct (length (pool self) <=? GUESS_RANDOM_POOL_SIZE).
    { destruct (pool self) eqn:Epool; cbn; rewrite ?Epool; auto. }
    destruct (feedback_so_far self ≫= _); [cbn; auto|].
    pose proof (find_guess_val_frame self) as ((_ & Hp & Hpool & _ & Hfb) & _).
    rewrite Hp, Hpool, Hfb. auto.
  - unfold report_feedback. cbn [feedback_so_far set_pool].
    destruct (feedback_so_far self) as [fb0|]; cbn; [|split; [reflexivity|discriminate]].
    split; [reflexivity|]. intros fb [= ->]. auto.
Qed.

Lemma run_game (cs : list call) (self : MyWordleAgent) (fb : string) :
  FirstGuess ∉ cs ->
  feedback_so_far self = Some fb ->
  possible (run filter_possible_words cs self) = possible self
  /\ feedback_so_far (run filter_possible_words cs self)
     = Some (fb +:+ String.concat "" (concat (map snd (reports_of cs))))
  /\ pool (run filter_possible_words cs self)
     = foldl (fun p r => filter_possible_words r.1 r.2 p) (pool self) (reports_of cs).
Proof.
  revert self fb. induction cs as [|c cs IH]; intros self fb Hnot Hfb.
  - cbn. rewrite string_app_nil_r. auto.
  - apply not_elem_of_cons in Hnot as [Hc Hnot].
    destruct (step_game self c (not_eq_sym Hc)) as [Hposs Hstep].
    specialize (Hstep fb Hfb). cbn [run foldl].
    fold (run filter_possible_words cs (step filter_possible_words self c)).
    destruct c as [| |g feedback]; [destruct Hc; reflexivity| |].
    + destruct Hstep as [Hfb' Hpool'].
      destruct (IH _ _ Hnot Hfb') as (I1 & I2 & I3).
      change (reports_of (NextGuess :: cs)) with (reports_of cs).
      rewrite I1, I2, I3, Hposs, Hpool'. auto.
    + destruct Hstep as [Hfb' Hpool'].
      destruct (IH _ _ Hnot Hfb') as (I1 & I2 & I3).
      change (reports_of (ReportFeedback g feedback :: cs))
        with ((g, feedback) :: reports_of cs).
      cbn [map concat snd foldl fst].
      rewrite I1, I2, I3, Hposs, Hpool'. rewrite string_concat_app, string_app_assoc.
      auto.
Qed.

Lemma first_guess_resets (self : MyWordleAgent) :
  possible (first_guess self).2 = possible self
  /\ pool (first_guess self).2 = possible self
  /\ feedback_so_far (first_guess self).2 = Some "".
Proof.
  unfold first_guess. cbn [guess set_feedback_so_far set_can_guess set_pool].
  destruct (guess self); [cbn; auto|].
  match goal with |- context [find_guess_val ?a] => set (self0 := a) end.
  pose proof (find_guess_val_frame self0) as ((_ & Hp & Hpool & _ & Hfb) & _).
  destruct (find_guess_val self0) as [[w|e] self1]; cbn in *; auto.
Qed.

(** X7: a game is its reports: whatever the agent went through before,
    after [first_guess] and any calls of [next_guess] and [report_feedback]
    the feedback history is the concatenation, in order, of all the feedback
    reported since, and the pool is the list of possible answers narrowed by
    the external filter once per report, in order; [next_guess] and a
    [first_guess] that raised change neither. *)
Theorem game_is_its_reports (self : MyWordleAgent) (cs : list call) :
  FirstGuess ∉ cs ->
  feedback_so_far (run filter_possible_words (FirstGuess :: cs) self)
  = Some (String.concat "" (concat (map snd (reports_of cs))))
  /\ pool (run filter_possible_words (FirstGuess :: cs) self)
     = foldl (fun p r => filter_possible_words r.1 r.2 p) (possible self) (reports_of cs)
  /\ possible (run filter_possible_words (FirstGuess :: cs) self) = possible self.
Proof.
  intros Hnot. cbn [run foldl step].
  fold (run filter_possible_words cs (first_guess self).2).
  destruct (first_guess_resets self) as (Hposs & Hpool & Hfb).
  destruct (run_game cs _ _ Hnot Hfb) as (I1 & I2 & I3).
  rewrite I1, I2, I3, Hposs, Hpool. auto.
Qed.

(** What the external filter promises: the words it returns are words of
    the pool it was given, in the same order. *)
Hypothesis filter_sublist : forall g feedback p, sublist (filter_possible_words g feedback p) p.

Lemma step_pool_sublist (self : MyWordleAgent) (c : call) :
  possible (step filter_possible_words self c) = possible self
  /\ (sublist (pool self) (possible self) ->
      sublist (pool (step filter_possible_words self c)) (possible self))
  /\ (c <> FirstGuess -> sublist (pool (step filter_possible_words self c)) (pool self)).
Proof.
  destruct c as [| |g feedback].
  - cbn [step]. destruct (first_guess_resets self) as (Hposs & Hpool & _).
    rewrite Hposs, Hpool. split_and!; [reflexivity|reflexivity|congruence].
  - cbn [step]. unfold next_guess.
    destruct (length (pool self) <=? GUESS_RANDOM_POOL_SIZE).
    { destruct (pool self) eqn:Epool; cbn; rewrite ?Epool; auto. }
    destruct (feedback_so_far self ≫= _); [cbn; auto|].
    pose proof (find_guess_val_frame self) as ((_ & Hp & Hpool & _) & _).
    rewrite Hp, Hpool. auto.
  - cbn [step]. unfold report_feedback. cbn [feedback_so_far set_pool].
    destruct (feedback_so_far self); cbn;
      (split_and!; [reflexivity| |intros _; apply filter_sublist]);
      intros Hsub; (etrans; [apply filter_sublist|exact Hsub]).
Qed.

(** X8: if the external filter returns a sub-list of the pool it is given,
    then the pool only shrinks within a game, call by call, and after any
    sequence of calls on a new agent it is a sub-list of the possible
    answers. *)
Theorem pool_only_shrinks (allowed_words possible_words : list word) (cs : list call) (c : call) :
  let a := run filter_possible_words cs (initialize_agent allowed_words possible_words) in
  sublist (pool a) possible_words
  /\ (c <> FirstGuess -> sublist (pool (step filter_possible_words a c)) (pool a)).
Proof.
  intros a. split; [|apply step_pool_sublist].
  subst a.
  assert (Hgen : forall self,
             sublist (pool self) (possible self) ->
             possible (run filter_possible_words cs self) = possible self
             /\ sublist (pool (run filter_possible_words cs self)) (possible self)).
  { induction cs as [|c0 cs IH]; intros self Hself; cbn [run foldl]; [auto|].
    destruct (step_pool_sublist self c0) as (Hp & Hsub & _).
    destruct (IH (step filter_possible_words self c0)) as [Ip Isub].
    - rewrite Hp. auto.
    - unfold run in Ip, Isub. rewrite Ip, Hp in *. auto. }
  apply (Hgen (initialize_agent allowed_words possible_words)). reflexivity.
Qed.
End AgentGames.

Lemma game_is_its_reports_witness :
  (FirstGuess ∉ [NextGuess; ReportFeedback "birch" all_gray; NextGuess;
                 ReportFeedback "beech" all_gray])
  /\ feedback_so_far
       (run (T:=float) drop_guess
            (FirstGuess :: [NextGuess; ReportFeedback "birch" all_gray; NextGuess;
                            ReportFeedback "beech" all_gray])
            (initialize_agent answers answers))
     = Some (String.concat ""
               (concat (map snd (reports_of
                  [NextGuess; ReportFeedback "birch" all_gray; NextGuess;
                   ReportFeedback "beech" all_gray]))))
  /\ pool
       (run (T:=float) drop_guess
            (FirstGuess :: [NextGuess; ReportFeedback "birch" all_gray; NextGuess;
                            ReportFeedback "beech" all_gray])
            (initialize_agent answers answers))
     = foldl (fun p r => drop_guess r.1 r.2 p)
             (possible (initialize_agent answers answers))
             (reports_of [NextGuess; ReportFeedback "birch" all_gray; NextGuess;
                          ReportFeedback "beech" all_gray])
  /\ possible
       (run (T:=float) drop_guess
            (FirstGuess :: [NextGuess; ReportFeedback "birch" all_gray; NextGuess;
                            ReportFeedback "beech" all_gray])
            (initialize_agent answers answers))
     = possible (initialize_agent answers answers).
Proof.
  assert (Hnot : FirstGuess ∉ [NextGuess; ReportFeedback "birch" all_gray; NextGuess;
                               ReportFeedback "beech" all_gray]).
  { intros Hin. not_first_guess Hin. }
  split; [exact Hnot|].
  exact (game_is_its_reports (T:=float) drop_guess (initialize_agent answers answers) _ Hnot).
Defined.

Lemma drop_guess_sublist (g : word) (feedback : list string) (p : list word) :
  sublist (drop_guess g feedback p) p.
Proof. apply sublist_filter. Qed.

Lemma pool_only_shrinks_witness :
  (forall g feedback p, sublist (drop_guess g feedback p) p)
  /\ sublist
       (pool (run (T:=float) drop_guess [FirstGuess; ReportFeedback "birch" all_gray]
                  (initialize_agent answers answers)))
       answers
  /\ (ReportFeedback "beech" all_gray <> FirstGuess ->
      sublist
        (pool (step (T:=float) drop_guess
                 (run (T:=float) drop_guess [FirstGuess; ReportFeedback "birch" all_gray]
                      (initialize_agent answers answers))
                 (ReportFeedback "beech" all_gray)))
        (pool (run (T:=float) drop_guess [FirstGuess; ReportFeedback "birch" all_gray]
                   (initialize_agent answers answers)))).
Proof.
  split; [exact drop_guess_sublist|].
  exact (pool_only_shrinks (T:=float) drop_guess drop_guess_sublist answers answers
           [FirstGuess; ReportFeedback "birch" all_gray] (ReportFeedback "beech" all_gray)).
Defined.

(** ** Edge cases of the agent *)

Section AgentEdges.
Context {T : Type} `{Arith T} `{Order T}.

(** The result of a search depends on the pool, the guesses and the
    feedback history only. *)
Lemma find_guess_val_same (a b : MyWordleAgent) :
  pool b = pool a -> can_guess b = can_guess a ->
  feedback_so_far b = feedback_so_far a ->
  (find_guess_val b).1 = (find_guess_val a).1.
Proof.
  intros Hpool Hcg Hfb. unfold find_guess_val, find_guess.
  cbn [pool can_guess feedback_so_far cache count_search]. rewrite Hpool, Hcg, Hfb.
  destruct (find_guess_loop (pool a) (can_guess a) (None, num_inf)) as [[bt bs]|e];
    [|reflexivity].
  destruct (feedback_so_far a) as [fb|]; [|reflexivity].
  destruct (negb (String.length fb =? 0)); [|destruct bt; reflexivity].
  destruct bt; reflexivity.
Qed.

(** X9: asking twice gives the same answer: a second [next_guess] right
    after the first returns the same word, or raises the same exception,
    whether the first answered from the pool, from the cache or from a
    search. *)
Theorem next_guess_twice (self : MyWordleAgent) :
  (next_guess (next_guess self).2).1 = (next_guess self).1.
Proof.
  unfold next_guess at 2 3.
  destruct (length (pool self) <=? GUESS_RANDOM_POOL_SIZE) eqn:Hlen.
  { destruct (pool self) eqn:Hpool; cbn [snd fst];
      unfold next_guess; rewrite Hpool, Hlen; reflexivity. }
  destruct (feedback_so_far self ≫= (fun fb => cache self !! fb)) as [w|] eqn:Hhit.
  { cbn [snd fst]. unfold next_guess. rewrite Hlen, Hhit. reflexivity. }
  pose proof (find_guess_val_frame self) as ((_ & _ & Hpool & Hcg & Hfb) & _ & _ & Hcache).
  unfold next_guess. rewrite Hpool, Hlen, Hfb.
  destruct Hcache as [Hsame|(fb & w & Hfbs & Hne & Hres & Hins)].
  - rewrite Hsame, Hhit. apply find_guess_val_same; assumption.
  - rewrite Hins, Hfbs, Hres. cbn [mbind option_bind].
    rewrite Hfbs in Hhit. cbn in Hhit.
    unfold setdefault. rewrite Hhit, lookup_insert_eq. reflexivity.
Qed.

(** X10: a search that [next_guess] ran on a non-empty feedback history
    stores the word it returns in the cache under that history, and the
    next [next_guess] returns the word from there and leaves the agent as
    it is: no second search. *)
Theorem next_guess_caches (self : MyWordleAgent) (fb : string) (w : word) :
  GUESS_RANDOM_POOL_SIZE < length (pool self) ->
  feedback_so_far self = Some fb ->
  fb <> "" ->
  cache self !! fb = None ->
  (next_guess self).1 = Ok w ->
  cache (next_guess self).2 !! fb = Some w
  /\ searches (next_guess self).2 = S (searches self)
  /\ next_guess (next_guess self).2 = (Ok w, (next_guess self).2).
Proof.
  intros Hlen Hfb Hne Hmiss Hres. apply Nat.leb_gt in Hlen.
  assert (Hnext : next_guess self = find_guess_val self).
  { unfold next_guess. rewrite Hlen, Hfb. cbn. rewrite Hmiss. reflexivity. }
  rewrite Hnext in *.
  pose proof (find_guess_val_frame self) as ((_ & _ & Hpool & _ & Hfb') & _ & Hn & _).
  assert (Hcache : cache (find_guess_val self).2 !! fb = Some w).
  { revert Hres. unfold find_guess_val, find_guess.
    cbn [pool can_guess feedback_so_far cache count_search].
    destruct (find_guess_loop (pool self) (can_guess self) (None, num_inf)) as [[bt bs]|e];
      [|discriminate].
    rewrite Hfb.
    assert (Hlenfb : negb (String.length fb =? 0) = true).
    { destruct fb; [congruence|reflexivity]. }
    rewrite Hlenfb. destruct bt as [t|]; [|discriminate].
    cbn. intros [= <-]. unfold setdefault. rewrite Hmiss. apply lookup_insert_eq. }
  split_and!; [exact Hcache|exact Hn|].
  unfold next_guess. rewrite Hpool, Hlen, Hfb', Hfb. cbn. rewrite Hcache. reflexivity.
Qed.

(** X11: with no allowed word there is nothing to select: [first_guess]
    raises [AttributeError] and stores no first guess, so that every further
    [first_guess] searches and raises again; [next_guess], where it must
    search, raises [AttributeError] too and leaves the cache as it is. *)
Theorem no_allowed_word (self : MyWordleAgent) :
  (allowed self = [] -> guess self = None ->
   (first_guess self).1 = Raise AttributeError
   /\ guess (first_guess self).2 = None
   /\ searches (first_guess self).2 = S (searches self)
   /\ (first_guess (first_guess self).2).1 = Raise AttributeError)
  /\ (can_guess self = [] ->
      GUESS_RANDOM_POOL_SIZE < length (pool self) ->
      forall fb, feedback_so_far self = Some fb -> cache self !! fb = None ->
      (next_guess self).1 = Raise AttributeError
      /\ cache (next_guess self).2 = cache self).
Proof.
  split.
  - intros Hallowed Hguess.
    assert (Hfirst : forall a, allowed a = [] -> guess a = None ->
               first_guess a
               = (Raise AttributeError,
                  count_search (set_feedback_so_far (Some "")
                                  (set_can_guess [] (set_pool (possible a) a))))).
    { intros a Ha Hg. unfold first_guess, find_guess_val, find_guess.
      cbn [guess pool can_guess feedback_so_far cache count_search set_feedback_so_far
           set_can_guess set_pool allowed possible].
      rewrite Hg, Ha. reflexivity. }
    rewrite (Hfirst self Hallowed Hguess). cbn [fst snd].
    split_and!; [reflexivity|cbn; exact Hguess|reflexivity|].
    rewrite Hfirst; [reflexivity|exact Hallowed|exact Hguess].
  - intros Hcg Hlen fb Hfb Hmiss. apply Nat.leb_gt in Hlen.
    unfold next_guess. rewrite Hlen, Hfb. cbn [mbind option_bind]. rewrite Hmiss.
    unfold find_guess_val, find_guess.
    cbn [pool can_guess feedback_so_far cache count_search]. rewrite Hcg, Hfb.
    cbn [find_guess_loop]. destruct (negb (String.length fb =? 0)); split; reflexivity.
Qed.

Lemma find_guess_loop_total (pool guesses : list word) (best : option Tree * T) :
  Forall (fun w => L <= String.length w) guesses ->
  Forall (fun w => L <= String.length w) pool ->
  exists best', find_guess_loop pool guesses best = Ok best'.
Proof.
  intros Hguesses Hpool. revert best.
  induction Hguesses as [|g guesses Hg _ IH]; intros best; [cbn; eauto|].
  destruct (recursive_build_tree_total (T:=T) pool g Hg Hpool) as (t & s & Ht).
  cbn [find_guess_loop]. rewrite Ht. cbn [mbind res_bind]. apply IH.
Qed.

(** X12: [next_guess] before any [first_guess]: on a new agent with more
    than three possible answers (all words of at least five letters) it
    runs the whole search and then raises [TypeError], as the feedback
    history is still [None]; nothing is cached.  With one to three possible
    answers it returns the first of them. *)
Theorem next_guess_before_first_guess (allowed_words possible_words : list word) :
  Forall (fun w => L <= String.length w) allowed_words ->
  Forall (fun w => L <= String.length w) possible_words ->
  (GUESS_RANDOM_POOL_SIZE < length possible_words ->
   next_guess (initialize_agent allowed_words possible_words)
   = (Raise TypeError, count_search (initialize_agent allowed_words possible_words)))
  /\ (forall w rest, possible_words = w :: rest -> length rest < GUESS_RANDOM_POOL_SIZE ->
      next_guess (initialize_agent allowed_words possible_words)
      = (Ok w, initialize_agent allowed_words possible_words)).
Proof.
  intros Hallowed Hpossible. split.
  - intros Hlen. apply Nat.leb_gt in Hlen. unfold next_guess.
    cbn [pool initialize_agent feedback_so_far]. rewrite Hlen. cbn [mbind option_bind].
    unfold find_guess_val, find_guess.
    cbn [pool can_guess feedback_so_far cache count_search initialize_agent].
    destruct (find_guess_loop_total possible_words allowed_words (None, num_inf)
                Hallowed Hpossible) as [[bt bs] ->].
    reflexivity.
  - intros w rest -> Hlen. unfold next_guess. cbn [pool initialize_agent].
    assert (E : (length (w :: rest) <=? GUESS_RANDOM_POOL_SIZE) = true).
    { apply Nat.leb_le. cbn [length]. lia. }
    rewrite E. reflexivity.
Qed.
End AgentEdges.

Lemma next_guess_caches_witness :
  GUESS_RANDOM_POOL_SIZE < length (pool agent_after_feedback)
  /\ feedback_so_far agent_after_feedback = Some "graygraygraygraygray"
  /\ "graygraygraygraygray" <> ""
  /\ cache agent_after_feedback !! "graygraygraygraygray" = None
  /\ (next_guess (T:=float) agent_after_feedback).1 = Ok "birch"
  /\ cache (next_guess (T:=float) agent_after_feedback).2 !! "graygraygraygraygray"
     = Some "birch"
  /\ searches (next_guess (T:=float) agent_after_feedback).2
     = S (searches agent_after_feedback)
  /\ next_guess (T:=float) (next_guess (T:=float) agent_after_feedback).2
     = (Ok "birch", (next_guess (T:=float) agent_after_feedback).2).
Proof.
  assert (H1 : GUESS_RANDOM_POOL_SIZE < length (pool agent_after_feedback))
    by (vm_compute; lia).
  assert (H2 : feedback_so_far agent_after_feedback = Some "graygraygraygraygray")
    by (vm_compute; reflexivity).
  assert (H3 : "graygraygraygraygray" <> "") by discriminate.
  assert (H4 : cache agent_after_feedback !! "graygraygraygraygray" = None)
    by (vm_compute; reflexivity).
  assert (H5 : (next_guess (T:=float) agent_after_feedback).1 = Ok "birch")
    by (vm_compute; reflexivity).
  split_and!; try assumption;
    apply (next_guess_caches (T:=float) agent_after_feedback
             "graygraygraygraygray" "birch" H1 H2 H3 H4 H5).
Defined.

Lemma next_guess_before_first_guess_witness :
  Forall (fun w => L <= String.length w) answers
  /\ (GUESS_RANDOM_POOL_SIZE < length answers ->
      next_guess (T:=float) (initialize_agent answers answers)
      = (Raise TypeError, count_search (initialize_agent answers answers)))
  /\ (forall w rest, answers = w :: rest -> length rest < GUESS_RANDOM_POOL_SIZE ->
      next_guess (T:=float) (initialize_agent answers answers)
      = (Ok w, initialize_agent answers answers)).
Proof.
  assert (H1 : Forall (fun w => L <= String.length w) answers)
    by (repeat constructor; vm_compute; lia).
  split; [exact H1|].
  exact (next_guess_before_first_guess (T:=float) answers answers H1 H1).
Defined.

(** ** Binary64 scores are numbers *)

Section FloatScores.
#[local] Open Scope Z_scope.

Lemma ordinary_not_nan (x : float) : fordinary x -> PrimFloat.is_nan x = false.
Proof.
  intros Hx. unfold PrimFloat.is_nan. rewrite FloatAxioms.eqb_spec.
  destruct Hx as [->|(m & e & ->)]; [reflexivity|].
  unfold SFeqb, SFcompare. rewrite Z.compare_refl.
  change (Pos.compare_cont Eq m m) with (Pos.compare m m). rewrite Pos.compare_refl.
  reflexivity.
Qed.

Lemma ordinary_nonneg (x : float) : fordinary x -> PrimFloat.leb 0 x = true.
Proof.
  intros Hx. rewrite FloatAxioms.leb_spec.
  change (Prim2SF 0) with (S754_zero false).
  destruct Hx as [->|(m & e & ->)]; reflexivity.
Qed.

(** X13: on words of at least five letters and a pool shorter than [2^53]
    the binary64 score is a number: never [nan], never negative, strictly
    below [float('inf')], so that the first guess evaluated always replaces
    the initial best score. *)
Theorem float_score_is_finite (g : word) (pool : list word) :
  (L <= String.length g)%nat ->
  Forall (fun w => (L <= String.length w)%nat) pool ->
  Z.of_nat (length pool) < 2 ^ 53 ->
  exists (t : Tree) (s : float),
    recursive_build_tree (T:=float) pool g = Ok (t, s)
    /\ PrimFloat.is_nan s = false
    /\ PrimFloat.leb 0 s = true
    /\ PrimFloat.ltb s PrimFloat.infinity = true.
Proof.
  intros Hg Hpool Hlen.
  destruct (float_score_small g pool Hg Hpool) as (s & Hs & Hsmall); [lia|].
  apply small_ordinary in Hsmall. fold (fordinary s) in Hsmall.
  destruct (recursive_build_tree_Ok pool g s Hs) as (t & Ht & _).
  exists t, s. split_and!.
  - exact Ht.
  - apply ordinary_not_nan. exact Hsmall.
  - apply ordinary_nonneg. exact Hsmall.
  - exact (float_ltb_inf s Hsmall).
Qed.
End FloatScores.

Lemma float_score_is_finite_witness :
  L <= String.length "about"
  /\ Forall (fun w => L <= String.length w) pool6
  /\ (Z.of_nat (length pool6) < 2 ^ 53)%Z
  /\ exists (t : Tree) (s : float),
      recursive_build_tree (T:=float) pool6 "about" = Ok (t, s)
      /\ PrimFloat.is_nan s = false
      /\ PrimFloat.leb 0 s = true
      /\ PrimFloat.ltb s PrimFloat.infinity = true.
Proof.
  assert (H1 : L <= String.length "about") by (vm_compute; lia).
  assert (H2 : Forall (fun w => L <= String.length w) pool6)
    by (repeat constructor; vm_compute; lia).
  assert (H3 : (Z.of_nat (length pool6) < 2 ^ 53)%Z) by (vm_compute; reflexivity).
  split_and!; try assumption.
  exact (float_score_is_finite "about" pool6 H1 H2 H3).
Defined.

(** ** The range of the binary64 score

    The scorer computes [a/n * sa + b/n * sb + c/n * sc] in binary64, so its
    result is the exact value moved by at most eight roundings per level.
    The lemmas below read each operation of [SpecFloat] on the reals: the
    result of a division, a product or a sum of positive floats is a
    neighbour of the exact result ([rounds_to]), hence within a factor
    [1 +- eps] of it, and never above an integer that bounds the exact
    result.  An induction over the levels of the scorer then gives the
    range of the score. *)

Section RealFacts.
#[local] Open Scope R_scope.

Lemma pow2_pos (e : Z) : 0 < pow2 e.
Proof. apply powerRZ_lt. lra. Qed.

Lemma pow2_add (a b : Z) : pow2 (a + b) = pow2 a * pow2 b.
Proof. apply powerRZ_add. lra. Qed.

Lemma pow2_IZR (e : Z) : (0 <= e)%Z -> pow2 e = IZR (2 ^ e).
Proof.
  intros He. unfold pow2. destruct e as [|p|p]; try lia.
  - reflexivity.
  - rewrite <- Zpower_pos_powerRZ. reflexivity.
Qed.

Lemma pow2_1 : pow2 1 = 2.
Proof. unfold pow2. simpl. lra. Qed.

Lemma pow2_opp (e : Z) : pow2 (- e) = / pow2 e.
Proof. apply powerRZ_neg'. Qed.

Lemma pow2_le (a b : Z) : (a <= b)%Z -> pow2 a <= pow2 b.
Proof.
  intros Hab. replace b with (a + (b - a))%Z by lia. rewrite pow2_add.
  rewrite (pow2_IZR (b - a)) by lia.
  assert (1 <= IZR (2 ^ (b - a))).
  { apply IZR_le. pose proof (Z.pow_pos_nonneg 2 (b - a)). lia. }
  pose proof (pow2_pos a). nra.
Qed.

Lemma pow2_lt (a b : Z) : (a < b)%Z -> pow2 a < pow2 b.
Proof.
  intros Hab. replace b with (a + (b - a))%Z by lia. rewrite pow2_add.
  rewrite (pow2_IZR (b - a)) by lia.
  assert (2 <= IZR (2 ^ (b - a))).
  { apply IZR_le. replace (b - a)%Z with (Z.succ (b - a - 1)) by lia.
    rewrite Z.pow_succ_r by lia. pose proof (Z.pow_pos_nonneg 2 (b - a - 1)). lia. }
  pose proof (pow2_pos a). nra.
Qed.

Lemma pow2_lt_inv (a b : Z) : pow2 a < pow2 b -> (a < b)%Z.
Proof.
  intros H. destruct (Z.lt_ge_cases a b) as [Hlt|Hge]; [exact Hlt|].
  pose proof (pow2_le b a Hge). lra.
Qed.

Lemma pow2_digits (m : Z) :
  (0 < m)%Z -> pow2 (Zdigits2 m - 1) <= IZR m < pow2 (Zdigits2 m).
Proof.
  intros Hm. pose proof (Zdigits2_pos m Hm) as Hd.
  rewrite !pow2_IZR by lia. split.
  - apply IZR_le. rewrite Zdigits2_log2 by exact Hm.
    replace (Z.log2 m + 1 - 1)%Z with (Z.log2 m) by lia. apply Z.log2_spec. exact Hm.
  - apply IZR_lt. apply Zdigits2_lt_pow2; lia.
Qed.

End RealFacts.

Section Rounding.
#[local] Open Scope Z_scope.

Lemma shr_1_exact (mrs : shr_record) :
  shr_r mrs = false -> shr_s mrs = false -> Z.even (shr_m mrs) = true ->
  shr_r (shr_1 mrs) = false /\ shr_s (shr_1 mrs) = false.
Proof.
  destruct mrs as [m r s]. simpl. intros -> -> Hm.
  destruct m as [|[p|p|]|[p|p|]]; simpl in *; try discriminate; split; reflexivity.
Qed.

Lemma shr_iter_exact (p : positive) (mrs : shr_record) :
  0 <= shr_m mrs -> shr_r mrs = false -> shr_s mrs = false ->
  shr_m mrs mod 2 ^ Zpos p = 0 ->
  shr_r (SpecFloat.iter_pos shr_1 p mrs) = false
  /\ shr_s (SpecFloat.iter_pos shr_1 p mrs) = false.
Proof.
  intros Hm Hr Hs. rewrite iter_pos_iter.
  induction p as [|p IH] using Pos.peano_ind; intros Hmod.
  - simpl. apply shr_1_exact; try assumption.
    rewrite Z.even_spec. apply Z.mod_divide in Hmod; [|lia].
    destruct Hmod as [k Hk]. exists k. lia.
  - rewrite Pos.iter_succ.
    assert (Hdiv : (2 ^ Zpos (Pos.succ p) | shr_m mrs)) by (apply Z.mod_divide; [lia|exact Hmod]).
    destruct Hdiv as [k Hk]. rewrite Pos2Z.inj_succ, Z.pow_succ_r in Hk by lia.
    apply shr_1_exact.
    + apply IH. rewrite Hk. replace (k * (2 * 2 ^ Zpos p)) with (2 * k * 2 ^ Zpos p) by lia.
      apply Z.mod_mul. lia.
    + apply IH. rewrite Hk. replace (k * (2 * 2 ^ Zpos p)) with (2 * k * 2 ^ Zpos p) by lia.
      apply Z.mod_mul. lia.
    + rewrite <- iter_pos_iter, shr_iter_m by exact Hm.
      rewrite Z.shiftr_div_pow2 by lia. rewrite Hk.
      replace (k * (2 * 2 ^ Zpos p)) with (2 * k * 2 ^ Zpos p) by lia.
      rewrite Z.div_mul by lia. rewrite Z.even_spec. exists k. lia.
Qed.

Lemma shr_fexp_exact (m e : Z) :
  0 <= m ->
  m mod 2 ^ Z.max 0 (fexp prec emax (Zdigits2 m + e) - e) = 0 ->
  loc_of_shr_record (fst (shr_fexp prec emax m e loc_Exact)) = loc_Exact.
Proof.
  intros Hm. unfold shr_fexp, shr.
  destruct (fexp prec emax (Zdigits2 m + e) - e) as [|p|p] eqn:E; simpl fst; try reflexivity.
  intros Hmod. replace (Z.max 0 (Zpos p)) with (Zpos p) in Hmod by lia.
  destruct (shr_iter_exact p (shr_record_of_loc m loc_Exact)) as [Hr Hs];
    try reflexivity; try assumption.
  change {| shr_m := m; shr_r := false; shr_s := false |}
    with (shr_record_of_loc m loc_Exact).
  destruct (SpecFloat.iter_pos shr_1 p (shr_record_of_loc m loc_Exact)) as [m' r s].
  simpl in Hr, Hs. subst. reflexivity.
Qed.

Lemma Zdigits2_53 (F : Z) : 0 <= F -> Zdigits2 F = 53 -> 2 ^ 52 <= F < 2 ^ 53.
Proof.
  intros HF Hd. assert (0 < F) by (destruct F; simpl in *; lia).
  split.
  - rewrite Zdigits2_log2 in Hd by lia.
    replace 52 with (Z.log2 F) by lia. apply Z.log2_spec. lia.
  - apply Zdigits2_lt_pow2; lia.
Qed.

Lemma binary_round_aux_rounds (mx ex : Z) (lx : location) (x : R) :
  0 < mx -> 53 <= Zdigits2 mx -> -1074 <= Zdigits2 mx + ex - 53 -> Zdigits2 mx + ex <= 1023 ->
  (IZR mx * pow2 ex <= x < IZR (mx + 1) * pow2 ex)%R ->
  (x = (IZR mx * pow2 ex)%R -> lx = loc_Exact) ->
  exists m e, binary_round_aux prec emax false mx ex lx = S754_finite false m e
              /\ rounds_to x (IZR (Zpos m) * pow2 e).
Proof.
  intros Hmx Hd Hlo Hhi Hx Hlx. unfold binary_round_aux.
  assert (Hmx0 : 0 <= mx) by lia.
  pose proof (shr_fexp_spec mx ex lx Hmx0) as [Hm1 He1].
  pose proof (shr_fexp_exact mx ex Hmx0) as Hloc.
  destruct (shr_fexp prec emax mx ex lx) as [mrs1 e1] eqn:Eshr.
  simpl fst in Hm1. simpl snd in He1.
  set (m2 := round_nearest_even (shr_m mrs1) (loc_of_shr_record mrs1)).
  rewrite fexp_eq in *.
  set (n1 := Z.max 0 (Z.max (Zdigits2 mx + ex - 53) (-1074) - ex)) in *.
  assert (Hn1 : n1 = Zdigits2 mx - 53) by lia.
  assert (Hm1' : 0 <= shr_m mrs1) by (rewrite Hm1; apply Z.shiftr_nonneg; lia).
  assert (Hd1 : Zdigits2 (shr_m mrs1) = 53) by (rewrite Hm1, Zdigits2_shiftr; lia).
  pose proof (Zdigits2_53 _ Hm1' Hd1) as HF.
  set (F := shr_m mrs1) in *.
  assert (HK : 0 < 2 ^ n1) by (apply Z.pow_pos_nonneg; lia).
  assert (Hdiv : mx = F * 2 ^ n1 + mx mod 2 ^ n1).
  { rewrite Hm1, Z.shiftr_div_pow2 by lia. pose proof (Z.div_mod mx (2 ^ n1)). lia. }
  pose proof (Z.mod_pos_bound mx (2 ^ n1) HK) as Hr.
  assert (Hp1 : pow2 e1 = (pow2 ex * IZR (2 ^ n1))%R).
  { rewrite He1, pow2_add, (pow2_IZR n1) by lia. reflexivity. }
  pose proof (pow2_pos ex) as HP.
  assert (Hlow : (IZR F * pow2 e1 <= IZR mx * pow2 ex)%R).
  { rewrite Hp1. replace (IZR F * (pow2 ex * IZR (2 ^ n1)))%R
      with (IZR (F * 2 ^ n1) * pow2 ex)%R by (rewrite mult_IZR; ring).
    apply Rmult_le_compat_r; [lra|apply IZR_le; lia]. }
  assert (Hupp : (IZR (mx + 1) * pow2 ex <= IZR (F + 1) * pow2 e1)%R).
  { rewrite Hp1. replace (IZR (F + 1) * (pow2 ex * IZR (2 ^ n1)))%R
      with (IZR ((F + 1) * 2 ^ n1) * pow2 ex)%R by (rewrite mult_IZR; ring).
    apply Rmult_le_compat_r; [lra|apply IZR_le; lia]. }
  assert (Hm2 : (x = (IZR F * pow2 e1)%R /\ m2 = F)
                \/ (x <> (IZR F * pow2 e1)%R /\ (m2 = F \/ m2 = F + 1))).
  { destruct (Req_dec x (IZR F * pow2 e1)) as [HxF|HxF].
    - left. split; [exact HxF|]. subst m2.
      assert (Hex : x = (IZR mx * pow2 ex)%R) by lra.
      specialize (Hlx Hex). subst lx. rewrite Eshr in Hloc. simpl fst in Hloc.
      rewrite Hloc; [reflexivity|].
      assert (E : IZR mx = IZR (F * 2 ^ n1)).
      { rewrite mult_IZR. rewrite Hex, Hp1 in HxF.
        apply (Rmult_eq_reg_r (pow2 ex)); [|lra]. rewrite HxF. ring. }
      apply eq_IZR in E. lia.
    - right. split; [exact HxF|]. apply round_nearest_even_cases. }
  clear Hloc Eshr.
  assert (Hm2' : 0 <= m2 /\ 53 <= Zdigits2 m2 <= 54).
  { destruct Hm2 as [[_ ->]|[_ [->| ->]]]; try lia.
    split; [lia|]. pose proof (Zdigits2_succ F Hm1').
    pose proof (Zdigits2_le_mono F (F + 1)). lia. }
  destruct Hm2' as [Hm2p Hd2].
  pose proof (shr_fexp_spec m2 e1 loc_Exact Hm2p) as [Hm3 He3].
  destruct (shr_fexp prec emax m2 e1 loc_Exact) as [mrs3 e3].
  simpl fst in Hm3. simpl snd in He3.
  rewrite fexp_eq in *.
  assert (Hd3 : Zdigits2 (shr_m mrs3) = 53) by (rewrite Hm3, Zdigits2_shiftr; lia).
  assert (Hm3' : 0 <= shr_m mrs3) by (rewrite Hm3; apply Z.shiftr_nonneg; lia).
  assert (Hval : (IZR (shr_m mrs3) * pow2 e3 = IZR m2 * pow2 e1)%R).
  { destruct (Z.eq_dec (Zdigits2 m2) 53) as [E53|E53].
    - replace (Z.max 0 (Z.max (Zdigits2 m2 + e1 - 53) (-1074) - e1)) with 0 in * by lia.
      rewrite Z.shiftr_0_r in Hm3. rewrite Hm3, He3, Z.add_0_r. reflexivity.
    - replace (Z.max 0 (Z.max (Zdigits2 m2 + e1 - 53) (-1074) - e1)) with 1 in * by lia.
      assert (Em2 : m2 = 2 ^ 53).
      { assert (~ m2 < 2 ^ 53) by (rewrite Zdigits2_lt_pow2; lia).
        destruct Hm2 as [[_ E]|[_ [E|E]]]; lia. }
      rewrite Hm3, He3, Em2, pow2_add. change (Z.shiftr (2 ^ 53) 1) with (2 ^ 52).
      rewrite <- (pow2_IZR 52), <- (pow2_IZR 53) by lia.
      replace 53 with (52 + 1) by lia. rewrite (pow2_add 52 1). ring. }
  destruct (shr_m mrs3) as [|m|m] eqn:Em; simpl in Hd3; try lia.
  assert (He : e3 <= 971) by lia.
  apply Z.leb_le in He. change (emax - prec) with 971. rewrite He.
  exists m, e3. split; [reflexivity|].
  exists F, e1. split; [exact HF|]. split; [lra|]. rewrite Hval.
  destruct Hm2 as [[HxF ->]|[HxF [->| ->]]]; auto.
Qed.

End Rounding.

Section RoundedValues.
#[local] Open Scope R_scope.

Lemma eps_pos : 0 < eps.
Proof. apply pow2_pos. Qed.

Lemma pow2_52 : pow2 52 = IZR (2 ^ 52).
Proof. apply pow2_IZR. lia. Qed.

Lemma eps_pow2_52 : eps * pow2 52 = 1.
Proof. unfold eps. rewrite <- pow2_add. reflexivity. Qed.

Lemma rounds_to_rel (x v : R) : rounds_to x v -> x * (1 - eps) <= v <= x * (1 + eps).
Proof.
  intros (F & e & HF & Hx & Hv).
  pose proof (pow2_pos e) as HP. pose proof eps_pos as He. pose proof eps_pow2_52 as He52.
  rewrite pow2_52 in He52.
  assert (HF1 : IZR (2 ^ 52) <= IZR F) by (apply IZR_le; lia).
  assert (HF2 : IZR (F + 1) = IZR F + 1) by (rewrite plus_IZR; reflexivity).
  rewrite HF2 in *.
  assert (Hulp : pow2 e <= eps * (IZR F * pow2 e)).
  { replace (pow2 e) with (eps * IZR (2 ^ 52) * pow2 e) at 1 by (rewrite He52; ring).
    rewrite Rmult_assoc. apply Rmult_le_compat_l; [lra|].
    apply Rmult_le_compat_r; lra. }
  assert (Hulp' : pow2 e <= eps * x).
  { eapply Rle_trans; [exact Hulp|]. apply Rmult_le_compat_l; lra. }
  destruct Hv as [->|[_ ->]]; nra.
Qed.

Lemma rounds_to_grid (x v : R) :
  rounds_to x v -> x < pow2 53 ->
  exists (F e : Z),
    (e <= 0)%Z
    /\ IZR F * pow2 e <= x < IZR (F + 1) * pow2 e
    /\ (v = IZR F * pow2 e \/ (x <> IZR F * pow2 e /\ v = IZR (F + 1) * pow2 e)).
Proof.
  intros (F & e & HF & Hx & Hv) Hlt. exists F, e. split; [|split; assumption].
  pose proof (pow2_pos e) as HP.
  assert (HF1 : pow2 52 <= IZR F) by (rewrite pow2_52; apply IZR_le; lia).
  assert (pow2 (52 + e) < pow2 53).
  { rewrite pow2_add. eapply Rle_lt_trans; [|exact Hlt].
    eapply Rle_trans; [|apply Hx]. apply Rmult_le_compat_r; lra. }
  apply pow2_lt_inv in H. lia.
Qed.

Lemma IZR_grid (y e : Z) : (e <= 0)%Z -> IZR y = IZR (y * 2 ^ (- e)) * pow2 e.
Proof.
  intros He. rewrite mult_IZR, <- (pow2_IZR (- e)) by lia.
  rewrite Rmult_assoc, <- pow2_add. replace (- e + e)%Z with 0%Z by lia.
  change (pow2 0) with 1. ring.
Qed.

Lemma rounds_to_exact (x v : R) (y : Z) :
  rounds_to x v -> x = IZR y -> x < pow2 53 -> v = x.
Proof.
  intros Hr Hy Hlt. destruct (rounds_to_grid x v Hr Hlt) as (F & e & He & Hx & Hv).
  pose proof (pow2_pos e) as HP.
  rewrite (IZR_grid y e He) in Hy.
  assert (Hlo : IZR F <= IZR (y * 2 ^ (- e))).
  { apply (Rmult_le_reg_r (pow2 e)); [exact HP|]. lra. }
  assert (Hhi : IZR (y * 2 ^ (- e)) < IZR (F + 1)).
  { apply (Rmult_lt_reg_r (pow2 e)); [exact HP|]. lra. }
  apply le_IZR in Hlo. apply lt_IZR in Hhi.
  assert (E : (y * 2 ^ (- e))%Z = F) by lia.
  rewrite E in Hy. destruct Hv as [->|[Hne _]]; [lra|contradiction].
Qed.

Lemma rounds_to_le_int (x v : R) (y : Z) :
  rounds_to x v -> x <= IZR y -> x < pow2 53 -> v <= IZR y.
Proof.
  intros Hr Hy Hlt. destruct (rounds_to_grid x v Hr Hlt) as (F & e & He & Hx & Hv).
  pose proof (pow2_pos e) as HP.
  destruct Hv as [->|[Hne ->]]; [lra|].
  rewrite (IZR_grid y e He) in *.
  assert (Hhi : IZR F < IZR (y * 2 ^ (- e))).
  { apply (Rmult_lt_reg_r (pow2 e)); [exact HP|]. lra. }
  apply lt_IZR in Hhi.
  apply Rmult_le_compat_r; [lra|]. apply IZR_le. lia.
Qed.

Lemma finite_bounds (m : positive) (e : Z) :
  pow2 (Zdigits2 (Zpos m) + e - 1) <= IZR (Zpos m) * pow2 e < pow2 (Zdigits2 (Zpos m) + e).
Proof.
  pose proof (pow2_digits (Zpos m) ltac:(lia)) as [H1 H2].
  pose proof (pow2_pos e) as HP.
  replace (Zdigits2 (Zpos m) + e - 1)%Z with (Zdigits2 (Zpos m) - 1 + e)%Z by lia.
  rewrite !pow2_add. split.
  - apply Rmult_le_compat_r; lra.
  - apply Rmult_lt_compat_r; lra.
Qed.

Lemma finite_normal (m : positive) (e : Z) :
  valid_binary (S754_finite false m e) = true ->
  pow2 (-1022) <= IZR (Zpos m) * pow2 e ->
  Zdigits2 (Zpos m) = 53%Z /\ (e <= 971)%Z.
Proof.
  intros Hv Hlo. apply valid_exponent in Hv as [Hc He].
  change (Zpos (digits2_pos m)) with (Zdigits2 (Zpos m)) in Hc.
  pose proof (finite_bounds m e) as [_ Hhi].
  assert (Hlt : pow2 (-1022) < pow2 (Zdigits2 (Zpos m) + e)) by lra.
  apply pow2_lt_inv in Hlt. lia.
Qed.

Lemma binary_round_aux_exact (mx : positive) (ex : Z) :
  (53 <= Zdigits2 (Zpos mx))%Z ->
  pow2 (-1021) <= IZR (Zpos mx) * pow2 ex < pow2 1023 ->
  exists m e, binary_round_aux prec emax false (Zpos mx) ex loc_Exact = S754_finite false m e
              /\ rounds_to (IZR (Zpos mx) * pow2 ex) (IZR (Zpos m) * pow2 e).
Proof.
  intros Hd [Hlo Hhi]. pose proof (finite_bounds mx ex) as [Hb1 Hb2].
  assert (H1 : pow2 (-1021) < pow2 (Zdigits2 (Zpos mx) + ex)) by lra.
  assert (H2 : pow2 (Zdigits2 (Zpos mx) + ex - 1) < pow2 1023) by lra.
  apply pow2_lt_inv in H1, H2. pose proof (pow2_pos ex) as HP.
  apply binary_round_aux_rounds; try lia; [|reflexivity].
  split; [lra|]. apply Rmult_lt_compat_r; [exact HP|]. apply IZR_lt. lia.
Qed.

Lemma shl_align_val (mx : positive) (ex ex' : Z) :
  IZR (Zpos (fst (shl_align mx ex ex'))) * pow2 (snd (shl_align mx ex ex'))
  = IZR (Zpos mx) * pow2 ex.
Proof.
  unfold shl_align. destruct (ex' - ex)%Z as [|d|d] eqn:E; simpl fst; simpl snd;
    try reflexivity.
  rewrite Zpos_iter_xO, Z.shiftl_mul_pow2 by lia.
  rewrite mult_IZR, <- (pow2_IZR (Zpos d)) by lia.
  rewrite Rmult_assoc, <- pow2_add. f_equal. f_equal. lia.
Qed.

Lemma binary_round_rounds (mx : positive) (ex : Z) :
  pow2 (-1021) <= IZR (Zpos mx) * pow2 ex < pow2 1023 ->
  exists m e, binary_round prec emax false mx ex = S754_finite false m e
              /\ rounds_to (IZR (Zpos mx) * pow2 ex) (IZR (Zpos m) * pow2 e).
Proof.
  intros Hx. unfold binary_round.
  pose proof (shl_align_spec mx ex (fexp prec emax (Zpos (digits2_pos mx) + ex))) as [He Hd].
  pose proof (shl_align_val mx ex (fexp prec emax (Zpos (digits2_pos mx) + ex))) as Hval.
  destruct (shl_align _ _ _) as [mz ez]. simpl fst in *. simpl snd in *.
  rewrite fexp_eq in He. change (Zpos (digits2_pos mx)) with (Zdigits2 (Zpos mx)) in He.
  pose proof (finite_bounds mx ex) as [Hb1 Hb2].
  assert (H1 : pow2 (-1021) < pow2 (Zdigits2 (Zpos mx) + ex)) by lra.
  apply pow2_lt_inv in H1.
  rewrite <- Hval in *. apply binary_round_aux_exact; [lia|exact Hx].
Qed.

End RoundedValues.

Section RoundedOperations.
#[local] Open Scope R_scope.

Lemma pow2_half_range (v w : R) :
  pow2 (-500) <= v < pow2 500 -> pow2 (-500) <= w < pow2 500 ->
  pow2 (-1000) <= v * w < pow2 1000.
Proof.
  intros [Hv1 Hv2] [Hw1 Hw2]. pose proof (pow2_pos (-500)) as HP.
  replace (-1000)%Z with (-500 + -500)%Z by lia.
  replace 1000%Z with (500 + 500)%Z by lia. rewrite !pow2_add. split.
  - apply Rmult_le_compat; lra.
  - apply Rmult_le_0_lt_compat; lra.
Qed.

Lemma SFmul_rounds (mx my : positive) (ex ey : Z) :
  valid_binary (S754_finite false mx ex) = true ->
  pow2 (-500) <= IZR (Zpos mx) * pow2 ex < pow2 500 ->
  pow2 (-500) <= IZR (Zpos my) * pow2 ey < pow2 500 ->
  exists m e, SF64mul (S754_finite false mx ex) (S754_finite false my ey) = S754_finite false m e
              /\ rounds_to (IZR (Zpos mx) * pow2 ex * (IZR (Zpos my) * pow2 ey))
                           (IZR (Zpos m) * pow2 e).
Proof.
  intros Vx Hx Hy. unfold SF64mul, SFmul. simpl xorb.
  destruct (finite_normal mx ex Vx) as [Dx _].
  { eapply Rle_trans; [apply (pow2_le (-1022) (-500)); lia|apply Hx]. }
  replace (IZR (Zpos mx) * pow2 ex * (IZR (Zpos my) * pow2 ey))
    with (IZR (Zpos (mx * my)) * pow2 (ex + ey))
    by (rewrite Pos2Z.inj_mul, mult_IZR, pow2_add; ring).
  apply binary_round_aux_exact.
  - apply Zdigits2_53 in Dx; [|lia].
    change 53%Z with (Zdigits2 (2 ^ 52)). apply Zdigits2_le_mono. nia.
  - replace (IZR (Zpos (mx * my)) * pow2 (ex + ey))
      with (IZR (Zpos mx) * pow2 ex * (IZR (Zpos my) * pow2 ey))
      by (rewrite Pos2Z.inj_mul, mult_IZR, pow2_add; ring).
    pose proof (pow2_half_range _ _ Hx Hy) as [H1 H2].
    pose proof (pow2_le (-1021) (-1000) ltac:(lia)).
    pose proof (pow2_le 1000 1023 ltac:(lia)). lra.
Qed.

Lemma SFadd_rounds (mx my : positive) (ex ey : Z) :
  pow2 (-500) <= IZR (Zpos mx) * pow2 ex < pow2 500 ->
  pow2 (-500) <= IZR (Zpos my) * pow2 ey < pow2 500 ->
  exists m e, SF64add (S754_finite false mx ex) (S754_finite false my ey) = S754_finite false m e
              /\ rounds_to (IZR (Zpos mx) * pow2 ex + IZR (Zpos my) * pow2 ey)
                           (IZR (Zpos m) * pow2 e).
Proof.
  intros Hx Hy. unfold SF64add, SFadd. simpl cond_Zopp.
  change (IntDef.Z.min ex ey) with (Z.min ex ey).
  pose proof (shl_align_spec mx ex (Z.min ex ey)) as [Hex _].
  pose proof (shl_align_spec my ey (Z.min ex ey)) as [Hey _].
  pose proof (shl_align_val mx ex (Z.min ex ey)) as Hvx.
  pose proof (shl_align_val my ey (Z.min ex ey)) as Hvy.
  destruct (shl_align mx ex (Z.min ex ey)) as [mx' ex'].
  destruct (shl_align my ey (Z.min ex ey)) as [my' ey'].
  simpl fst in *. simpl snd in *.
  replace ex' with (Z.min ex ey) in Hvx by lia.
  replace ey' with (Z.min ex ey) in Hvy by lia.
  change (Zpos mx' + Zpos my')%Z with (Zpos (mx' + my')). simpl binary_normalize.
  replace (IZR (Zpos mx) * pow2 ex + IZR (Zpos my) * pow2 ey)
    with (IZR (Zpos (mx' + my')) * pow2 (Z.min ex ey))
    by (rewrite <- Hvx, <- Hvy, Pos2Z.inj_add, plus_IZR; ring).
  apply binary_round_rounds.
  replace (IZR (Zpos (mx' + my')) * pow2 (Z.min ex ey))
    with (IZR (Zpos mx) * pow2 ex + IZR (Zpos my) * pow2 ey)
    by (rewrite <- Hvx, <- Hvy, Pos2Z.inj_add, plus_IZR; ring).
  pose proof (pow2_le (-1021) (-500) ltac:(lia)).
  pose proof (pow2_lt 500 501 ltac:(lia)).
  pose proof (pow2_le 501 1023 ltac:(lia)).
  pose proof (pow2_pos (-500)).
  assert (pow2 501 = 2 * pow2 500)
    by (replace 501%Z with (1 + 500)%Z by lia; rewrite pow2_add, pow2_1; reflexivity).
  lra.
Qed.

Lemma new_location_exact (nb : Z) : new_location nb 0 = loc_Exact.
Proof. unfold new_location. destruct (IntDef.Z.even nb); reflexivity. Qed.

Lemma SFdiv_rounds (mx my : positive) (ex ey : Z) :
  pow2 (-500) <= IZR (Zpos mx) * pow2 ex < pow2 500 ->
  pow2 (-500) <= IZR (Zpos my) * pow2 ey < pow2 500 ->
  exists m e, SF64div (S754_finite false mx ex) (S754_finite false my ey) = S754_finite false m e
              /\ rounds_to (IZR (Zpos mx) * pow2 ex / (IZR (Zpos my) * pow2 ey))
                           (IZR (Zpos m) * pow2 e).
Proof.
  intros Hx Hy. unfold SF64div, SFdiv, SFdiv_core_binary. simpl xorb.
  rewrite fexp_eq.
  set (d := (Zdigits2 (Zpos mx) + ex - (Zdigits2 (Zpos my) + ey))%Z).
  change (IntDef.Z.min (Z.max (d - 53) (-1074)) (ex - ey))
    with (Z.min (Z.max (d - 53) (-1074)) (ex - ey)).
  set (e' := Z.min (Z.max (d - 53) (-1074)) (ex - ey)).
  set (m' := match (ex - ey - e')%Z with
             | Z0 => Zpos mx
             | Zpos _ => IntDef.Z.shiftl (Zpos mx) (ex - ey - e')
             | Zneg _ => 0%Z
             end).
  assert (Hm' : m' = (Zpos mx * 2 ^ (ex - ey - e'))%Z).
  { subst m'. destruct (ex - ey - e')%Z eqn:E; try lia.
    change (IntDef.Z.shiftl (Zpos mx) (Zpos p)) with (Z.shiftl (Zpos mx) (Zpos p)).
    rewrite Z.shiftl_mul_pow2 by lia. reflexivity. }
  clearbody m'.
  set (x := IZR (Zpos mx) * pow2 ex / (IZR (Zpos my) * pow2 ey)).
  pose proof (pow2_pos ex) as HPx. pose proof (pow2_pos ey) as HPy.
  pose proof (pow2_pos e') as HPe.
  assert (Hmy : 0 < IZR (Zpos my)) by (apply IZR_lt; lia).
  assert (Hx' : x = IZR m' / IZR (Zpos my) * pow2 e').
  { subst x. rewrite Hm', mult_IZR, <- pow2_IZR by lia.
    replace ex with ((ex - ey - e') + e' + ey)%Z at 1 by lia.
    rewrite !pow2_add. field. lra. }
  change (IntDef.Z.div_eucl m' (Zpos my)) with (Z.div_eucl m' (Zpos my)).
  pose proof (Z_div_mod m' (Zpos my) ltac:(lia)) as Hqr.
  destruct (Z.div_eucl m' (Zpos my)) as [q r]. destruct Hqr as [Hqr Hr].
  assert (Hq : IZR m' / IZR (Zpos my) = IZR q + IZR r / IZR (Zpos my)).
  { rewrite Hqr, plus_IZR, mult_IZR. field. lra. }
  assert (Hr' : 0 <= IZR r / IZR (Zpos my) < 1).
  { split.
    - apply Rmult_le_pos; [apply IZR_le; lia|]. left. apply Rinv_0_lt_compat. lra.
    - apply (Rmult_lt_reg_r (IZR (Zpos my))); [lra|].
      unfold Rdiv. rewrite Rmult_assoc, Rinv_l, Rmult_1_r, Rmult_1_l by lra.
      apply IZR_lt. lia. }
  (* the magnitude of the quotient *)
  pose proof (finite_bounds mx ex) as [Hbx1 Hbx2].
  pose proof (finite_bounds my ey) as [Hby1 Hby2].
  assert (Hvy : 0 < IZR (Zpos my) * pow2 ey) by (apply Rmult_lt_0_compat; lra).
  assert (Hxlo : pow2 (d - 1) < x).
  { subst x. apply (Rmult_lt_reg_r (IZR (Zpos my) * pow2 ey)); [exact Hvy|].
    unfold Rdiv. rewrite Rmult_assoc, Rinv_l, Rmult_1_r by lra.
    eapply Rlt_le_trans; [|exact Hbx1].
    replace (Zdigits2 (Zpos mx) + ex - 1)%Z with (d - 1 + (Zdigits2 (Zpos my) + ey))%Z
      by (subst d; lia).
    rewrite pow2_add. apply Rmult_lt_compat_l; [apply pow2_pos|lra]. }
  assert (Hxr : pow2 (-1000) < x < pow2 1000).
  { subst x. pose proof (pow2_pos (-500)) as HP. pose proof (pow2_pos 500) as HP'.
    replace (-1000)%Z with (-500 + - (500))%Z by lia.
    replace 1000%Z with (500 + - (-500))%Z by lia.
    rewrite !pow2_add, !pow2_opp. split.
    - apply (Rmult_lt_reg_r (IZR (Zpos my) * pow2 ey)); [exact Hvy|].
      unfold Rdiv at 1. rewrite (Rmult_assoc (IZR (Zpos mx) * pow2 ex)), Rinv_l, Rmult_1_r by lra.
      eapply Rlt_le_trans; [|apply Hx].
      rewrite Rmult_assoc. rewrite <- (Rmult_1_r (pow2 (-500))) at 2.
      apply Rmult_lt_compat_l; [lra|].
      apply (Rmult_lt_reg_l (pow2 500)); [lra|].
      rewrite <- Rmult_assoc, Rinv_r, Rmult_1_l, Rmult_1_r by lra. lra.
    - apply (Rmult_lt_reg_r (IZR (Zpos my) * pow2 ey)); [exact Hvy|].
      unfold Rdiv at 1. rewrite (Rmult_assoc (IZR (Zpos mx) * pow2 ex)), Rinv_l, Rmult_1_r by lra.
      eapply Rlt_le_trans; [apply Hx|].
      rewrite Rmult_assoc. rewrite <- (Rmult_1_r (pow2 500)) at 1.
      apply Rmult_le_compat_l; [lra|].
      apply (Rmult_le_reg_l (pow2 (-500))); [lra|].
      rewrite <- Rmult_assoc, Rinv_r, Rmult_1_l, Rmult_1_r by lra. lra. }
  assert (Hd : (-1000 <= d)%Z).
  { assert (Hxhi : x < pow2 (d + 1)).
    { subst x. apply (Rmult_lt_reg_r (IZR (Zpos my) * pow2 ey)); [exact Hvy|].
      unfold Rdiv. rewrite Rmult_assoc, Rinv_l, Rmult_1_r by lra.
      eapply Rlt_le_trans; [exact Hbx2|].
      replace (Zdigits2 (Zpos mx) + ex)%Z with (d + 1 + (Zdigits2 (Zpos my) + ey - 1))%Z
        by (subst d; lia).
      rewrite pow2_add. apply Rmult_le_compat_l; [left; apply pow2_pos|lra]. }
    assert (H : pow2 (-1000) < pow2 (d + 1)) by lra.
    apply pow2_lt_inv in H. lia. }
  assert (Hbr : IZR q * pow2 e' <= x < IZR (q + 1) * pow2 e').
  { rewrite Hx', Hq, plus_IZR. split.
    - apply Rmult_le_compat_r; lra.
    - apply Rmult_lt_compat_r; lra. }
  assert (Hq52 : (2 ^ 52 <= q)%Z).
  { assert (H : pow2 52 < IZR (q + 1)).
    { apply (Rmult_lt_reg_r (pow2 e')); [exact HPe|]. rewrite <- pow2_add.
      eapply Rle_lt_trans; [|apply Hbr]. eapply Rle_trans; [|left; exact Hxlo].
      apply pow2_le. subst e'. lia. }
    rewrite pow2_52 in H. apply lt_IZR in H. lia. }
  assert (Hdq : (53 <= Zdigits2 q)%Z).
  { change 53%Z with (Zdigits2 (2 ^ 52)). apply Zdigits2_le_mono. lia. }
  destruct q as [|q|q]; try lia.
  pose proof (finite_bounds q e') as [Hbq1 Hbq2].
  assert (H1 : pow2 (Zdigits2 (Zpos q) + e' - 1) < pow2 1000) by lra.
  assert (H2 : pow2 (-1000) < pow2 (Zdigits2 (Zpos q) + e' + 1)).
  { eapply Rlt_le_trans; [apply Hxr|]. eapply Rle_trans; [left; apply Hbr|].
    rewrite plus_IZR. replace (Zdigits2 (Zpos q) + e' + 1)%Z
      with (1 + (Zdigits2 (Zpos q) + e'))%Z by lia.
    rewrite (pow2_add 1), pow2_1.
    assert (1 <= IZR (Zpos q)) by (apply IZR_le; lia). nra. }
  apply pow2_lt_inv in H1, H2.
  apply binary_round_aux_rounds; try lia; [exact Hbr|].
  intros E. rewrite Hx', Hq in E.
  assert (Er : IZR r / IZR (Zpos my) = 0).
  { apply (Rmult_eq_reg_r (pow2 e')); [|lra]. lra. }
  assert (Er' : IZR r = 0).
  { apply (Rmult_eq_reg_r (/ IZR (Zpos my))); [|apply Rinv_neq_0_compat; lra].
    unfold Rdiv in Er. lra. }
  apply eq_IZR in Er'. subst r. apply new_location_exact.
Qed.

End RoundedOperations.

Section FloatValues.
#[local] Open Scope R_scope.

Lemma eps_val : eps * 4503599627370496 = 1.
Proof. pose proof eps_pow2_52 as H. rewrite pow2_52 in H. exact H. Qed.

Lemma mid_range_bounds (v : R) :
  / 1267650600228229401496703205376 <= v <= 1267650600228229401496703205376 -> mid_range v.
Proof.
  intros [H1 H2]. unfold mid_range.
  pose proof (pow2_le (-500) (-100) ltac:(lia)) as Hlo.
  pose proof (pow2_lt 100 500 ltac:(lia)) as Hhi.
  assert (Hinv : pow2 (-100) * pow2 100 = 1) by (rewrite <- pow2_add; reflexivity).
  rewrite (pow2_IZR 100) in * by lia.
  change (2 ^ 100)%Z with 1267650600228229401496703205376%Z in *. lra.
Qed.

Lemma fpos_val_pos (a : float) (v : R) : fpos_val a v -> 0 < v.
Proof.
  intros (m & e & _ & ->). apply Rmult_lt_0_compat; [apply IZR_lt; lia|apply pow2_pos].
Qed.

Lemma float_of_nat_val (n : nat) :
  (0 < n)%nat -> (Z.of_nat n < 2 ^ 53)%Z -> fpos_val (float_of_nat n) (IZR (Z.of_nat n)).
Proof.
  intros Hn Hlt. unfold fpos_val, float_of_nat.
  rewrite FloatAxioms.of_uint63_spec, Uint63.of_Z_spec.
  change wB with (2 ^ 63)%Z. rewrite Z.mod_small by lia.
  destruct (Z.of_nat n) as [|p|p] eqn:E; try lia. simpl binary_normalize.
  assert (Hp : 1 <= IZR (Zpos p) < pow2 53).
  { split; [apply IZR_le; lia|]. rewrite pow2_IZR by lia. apply IZR_lt. exact Hlt. }
  destruct (binary_round_rounds p 0) as (m & e & Em & Hr).
  { change (pow2 0) with 1. rewrite Rmult_1_r.
    pose proof (pow2_le (-1021) 0 ltac:(lia)). pose proof (pow2_le 53 1023 ltac:(lia)).
    change (pow2 0) with 1 in *. lra. }
  exists m, e. split; [exact Em|].
  change (pow2 0) with 1 in Hr. rewrite Rmult_1_r in Hr.
  symmetry. apply (rounds_to_exact _ _ (Zpos p) Hr); [reflexivity|lra].
Qed.

Lemma float_div_val (a b : float) (va vb : R) :
  fpos_val a va -> fpos_val b vb -> mid_range va -> mid_range vb ->
  exists v, fpos_val (a / b) v /\ rounds_to (va / vb) v.
Proof.
  intros (ma & ea & Ea & ->) (mb & eb & Eb & ->) Ha Hb.
  destruct (SFdiv_rounds ma mb ea eb Ha Hb) as (m & e & E & Hr).
  exists (IZR (Zpos m) * pow2 e). split; [|exact Hr].
  exists m, e. split; [|reflexivity]. rewrite FloatAxioms.div_spec, Ea, Eb. exact E.
Qed.

Lemma float_mul_val (a b : float) (va vb : R) :
  fpos_val a va -> fpos_val b vb -> mid_range va -> mid_range vb ->
  exists v, fpos_val (a * b) v /\ rounds_to (va * vb) v.
Proof.
  intros (ma & ea & Ea & ->) (mb & eb & Eb & ->) Ha Hb.
  pose proof (Prim2SF_valid a) as Va. rewrite Ea in Va.
  destruct (SFmul_rounds ma mb ea eb Va Ha Hb) as (m & e & E & Hr).
  exists (IZR (Zpos m) * pow2 e). split; [|exact Hr].
  exists m, e. split; [|reflexivity]. rewrite FloatAxioms.mul_spec, Ea, Eb. exact E.
Qed.

Lemma float_add_val (a b : float) (va vb : R) :
  fpos_val a va -> fpos_val b vb -> mid_range va -> mid_range vb ->
  exists v, fpos_val (a + b) v /\ rounds_to (va + vb) v.
Proof.
  intros (ma & ea & Ea & ->) (mb & eb & Eb & ->) Ha Hb.
  destruct (SFadd_rounds ma mb ea eb Ha Hb) as (m & e & E & Hr).
  exists (IZR (Zpos m) * pow2 e). split; [|exact Hr].
  exists m, e. split; [|reflexivity]. rewrite FloatAxioms.add_spec, Ea, Eb. exact E.
Qed.

Lemma fnonneg_add (a b : float) (va vb : R) :
  fnonneg_val a va -> fnonneg_val b vb -> (va <> 0 -> mid_range va) -> (vb <> 0 -> mid_range vb) ->
  exists v, fnonneg_val (a + b) v
            /\ (va + vb) * (1 - eps) <= v <= (va + vb) * (1 + eps)
            /\ (forall y : Z, va + vb <= IZR y -> va + vb < pow2 53 -> v <= IZR y).
Proof.
  pose proof eps_pos as He.
  intros [[Ea ->]|Ha] [[Eb ->]|Hb] Hra Hrb.
  - exists 0. split; [|split; [lra|intros; lra]].
    left. split; [|reflexivity]. rewrite FloatAxioms.add_spec, Ea, Eb. reflexivity.
  - pose proof (fpos_val_pos _ _ Hb). exists vb. split; [|split; [nra|intros; lra]].
    right. destruct Hb as (m & e & E & ->). exists m, e. split; [|reflexivity].
    rewrite FloatAxioms.add_spec, Ea, E. reflexivity.
  - pose proof (fpos_val_pos _ _ Ha). exists va. split; [|split; [nra|intros; lra]].
    right. destruct Ha as (m & e & E & ->). exists m, e. split; [|reflexivity].
    rewrite FloatAxioms.add_spec, Eb, E. reflexivity.
  - pose proof (fpos_val_pos _ _ Ha). pose proof (fpos_val_pos _ _ Hb).
    destruct (float_add_val a b va vb Ha Hb) as (v & Hv & Hr); [apply Hra; lra|apply Hrb; lra|].
    exists v. split; [right; exact Hv|]. split; [exact (rounds_to_rel _ _ Hr)|].
    intros y. apply rounds_to_le_int. exact Hr.
Qed.

End FloatValues.

Section FloatScoreRange.
#[local] Open Scope R_scope.

Lemma ratio_bounds (a n : R) :
  1 <= a -> a <= n -> n <= 1125899906842624 ->
  a / n * n = a /\ / 1125899906842624 <= a / n <= 1.
Proof.
  intros Ha Han Hn.
  assert (Hinv : 0 < / n) by (apply Rinv_0_lt_compat; lra).
  assert (E : a / n * n = a) by (field; lra).
  assert (E1 : / n * n = 1) by (field; lra).
  split; [exact E|]. unfold Rdiv in *. split; nra.
Qed.

Lemma weighted_val (bucket : list word) (N : nat) (s : float) (vs : R) :
  (0 < N)%nat -> (length bucket <= N)%nat -> (Z.of_nat N < 2 ^ 50)%Z ->
  fpos_val s vs -> / 2 <= vs <= 1125899906842624 ->
  exists t,
    fnonneg_val (weighted bucket N s) t
    /\ IZR (Z.of_nat (length bucket)) / IZR (Z.of_nat N) * vs * ((1 - eps) * (1 - eps)) <= t
       <= IZR (Z.of_nat (length bucket)) / IZR (Z.of_nat N) * vs * ((1 + eps) * (1 + eps))
    /\ ((t = 0 \/ / 1152921504606846976 <= t) /\ t <= 4503599627370496)
    /\ (length bucket = N -> forall y : Z, vs <= IZR y -> t <= IZR y).
Proof.
  intros HN Hlen HN50 Hs Hvs. unfold weighted. cbn [num_mul num_div num_of_nat float_arith].
  pose proof eps_pos as He. pose proof eps_val as Hev.
  assert (Hn : 1 <= IZR (Z.of_nat N) <= 1125899906842624).
  { split; apply IZR_le; lia. }
  pose proof (float_of_nat_val N HN ltac:(lia)) as HfN.
  destruct (length bucket) as [|A'] eqn:EA.
  - exists 0. split; [|split; [|split]].
    + left. split; [|reflexivity].
      destruct HfN as (mn & en & En & _). destruct Hs as (ms & es & Es & _).
      rewrite FloatAxioms.mul_spec, FloatAxioms.div_spec, float_of_nat_0, En, Es. reflexivity.
    + change (IZR (Z.of_nat 0)) with 0. unfold Rdiv. rewrite !Rmult_0_l. lra.
    + split; [left; reflexivity|lra].
    + intros E. lia.
  - set (A := S A') in *.
    assert (Ha : 1 <= IZR (Z.of_nat A) <= IZR (Z.of_nat N)).
    { split; apply IZR_le; lia. }
    pose proof (float_of_nat_val A ltac:(lia) ltac:(lia)) as HfA.
    destruct (ratio_bounds (IZR (Z.of_nat A)) (IZR (Z.of_nat N))) as [Er Hr]; try lra.
    destruct (float_div_val _ _ _ _ HfA HfN) as (w & Hw & Hrw);
      [apply mid_range_bounds; lra|apply mid_range_bounds; lra|].
    pose proof (rounds_to_rel _ _ Hrw) as Hwrel.
    set (r := IZR (Z.of_nat A) / IZR (Z.of_nat N)) in *.
    assert (Hwb : / 2251799813685248 <= w <= 2) by nra.
    destruct (float_mul_val _ _ _ _ Hw Hs) as (t & Ht & Hrt);
      [apply mid_range_bounds; lra|apply mid_range_bounds; lra|].
    pose proof (rounds_to_rel _ _ Hrt) as Htrel.
    assert (He1 : / 2 <= 1 - eps <= 1) by lra.
    assert (Hlo : r * vs * ((1 - eps) * (1 - eps)) <= w * vs * (1 - eps)).
    { replace (r * vs * ((1 - eps) * (1 - eps))) with (r * (1 - eps) * (vs * (1 - eps))) by ring.
      rewrite (Rmult_assoc w). apply Rmult_le_compat_r; [|lra].
      apply Rmult_le_pos; lra. }
    assert (Hhi : w * vs * (1 + eps) <= r * vs * ((1 + eps) * (1 + eps))).
    { replace (r * vs * ((1 + eps) * (1 + eps))) with (r * (1 + eps) * (vs * (1 + eps))) by ring.
      rewrite (Rmult_assoc w). apply Rmult_le_compat_r; [|lra].
      apply Rmult_le_pos; lra. }
    assert (Hwv : / 4503599627370496 <= w * vs).
    { replace (/ 4503599627370496) with (/ 2251799813685248 * / 2) by lra.
      apply Rmult_le_compat; lra. }
    exists t. split; [right; exact Ht|]. split; [|split].
    + lra.
    + split.
      * right. apply Rle_trans with (w * vs * (1 - eps)); [|lra].
        replace (/ 1152921504606846976) with (/ 4503599627370496 * / 256) by lra.
        apply Rmult_le_compat; lra.
      * apply Rle_trans with (w * vs * (1 + eps)); [lra|].
        replace 4503599627370496 with (2 * 1125899906842624 * 2) by lra.
        apply Rmult_le_compat; try lra.
        apply Rmult_le_compat; lra.
    + intros E y Hy.
      assert (Hr1 : r = 1) by (subst r; rewrite E; field; lra).
      rewrite Hr1 in Hrw.
      assert (Hw1 : w = 1).
      { apply (rounds_to_exact _ _ 1 Hrw); [reflexivity|].
        pose proof (pow2_lt 0 53 ltac:(lia)) as H. change (pow2 0) with 1 in H. exact H. }
      rewrite Hw1, Rmult_1_l in Hrt.
      apply (rounds_to_le_int _ _ y Hrt Hy).
      rewrite pow2_IZR by lia. change (2 ^ 53)%Z with 9007199254740992%Z. lra.
Qed.

Lemma node_lower (wa wb wc va vb vc ta tb tc p s lo : R) :
  0 <= wa -> 0 <= wb -> 0 <= wc -> wa + wb + wc = 1 ->
  0 <= lo <= 1 -> lo <= va -> lo <= vb -> lo <= vc ->
  wa * va * ((1 - eps) * (1 - eps)) <= ta ->
  wb * vb * ((1 - eps) * (1 - eps)) <= tb ->
  wc * vc * ((1 - eps) * (1 - eps)) <= tc ->
  (ta + tb) * (1 - eps) <= p ->
  (p + tc) * (1 - eps) <= s ->
  lo - 4 * eps <= s.
Proof.
  intros Hwa Hwb Hwc Hw Hlo Hva Hvb Hvc Hta Htb Htc Hp Hs.
  pose proof eps_pos as He. pose proof eps_val as Hev.
  set (q := 1 - eps) in *.
  assert (Hq : / 2 <= q <= 1) by (subst q; lra).
  assert (Hqq : 0 <= q * q) by nra.
  assert (Ha : wa * lo * (q * q) <= ta).
  { eapply Rle_trans; [|exact Hta]. apply Rmult_le_compat_r; [exact Hqq|].
    apply Rmult_le_compat_l; lra. }
  assert (Hb : wb * lo * (q * q) <= tb).
  { eapply Rle_trans; [|exact Htb]. apply Rmult_le_compat_r; [exact Hqq|].
    apply Rmult_le_compat_l; lra. }
  assert (Hc : wc * lo * (q * q) <= tc).
  { eapply Rle_trans; [|exact Htc]. apply Rmult_le_compat_r; [exact Hqq|].
    apply Rmult_le_compat_l; lra. }
  assert (H0c : 0 <= tc).
  { eapply Rle_trans; [|exact Hc]. apply Rmult_le_pos; [apply Rmult_le_pos; lra|exact Hqq]. }
  assert (H3 : lo * (q * q) <= ta + tb + tc).
  { replace (lo * (q * q)) with ((wa + wb + wc) * lo * (q * q)) by (rewrite Hw; ring). lra. }
  assert (H4 : (ta + tb + tc) * q <= p + tc) by nra.
  assert (H5 : lo * (q * q) * q <= p + tc).
  { eapply Rle_trans; [|exact H4]. apply Rmult_le_compat_r; lra. }
  assert (H6 : lo * (q * q) * q * q <= s).
  { eapply Rle_trans; [|exact Hs]. apply Rmult_le_compat_r; lra. }
  assert (H7 : 1 - 4 * eps <= q * q * q * q).
  { subst q. assert (0 <= eps * eps) by nra.
    replace ((1 - eps) * (1 - eps) * (1 - eps) * (1 - eps))
      with (1 - 4 * eps + eps * eps * (6 - 4 * eps + eps * eps)) by ring.
    assert (0 <= eps * eps * (6 - 4 * eps + eps * eps)) by (apply Rmult_le_pos; nra).
    lra. }
  assert (H8 : lo * (1 - 4 * eps) <= lo * (q * q * q * q)).
  { apply Rmult_le_compat_l; lra. }
  assert (H9 : lo - 4 * eps <= lo * (1 - 4 * eps)) by nra.
  replace (lo * (q * q) * q * q) with (lo * (q * q * q * q)) in H6 by ring. lra.
Qed.

Lemma node_upper (A B C n wa wb wc va vb vc ta tb tc p : R) :
  wa * n = A -> wb * n = B -> wc * n = C ->
  0 <= A -> 0 <= B -> 0 <= C ->
  2 <= n <= 1125899906842624 ->
  A * A + B * B + C * C <= n * n - 2 * n + 2 ->
  0 <= va -> 0 <= vb -> 0 <= vc ->
  (A = 0 \/ va <= A) -> (B = 0 \/ vb <= B) -> (C = 0 \/ vc <= C) ->
  ta <= wa * va * ((1 + eps) * (1 + eps)) ->
  tb <= wb * vb * ((1 + eps) * (1 + eps)) ->
  0 <= tc <= wc * vc * ((1 + eps) * (1 + eps)) ->
  p <= (ta + tb) * (1 + eps) ->
  p + tc <= n.
Proof.
  intros Ewa Ewb Ewc HA HB HC Hn Hsq Hva Hvb Hvc HvA HvB HvC Hta Htb Htc Hp.
  pose proof eps_pos as He. pose proof eps_val as Hev.
  set (r := 1 + eps) in *.
  assert (Hr : 1 <= r <= 2) by (subst r; lra).
  assert (Hrr : 0 <= r * r) by nra.
  assert (Hwa : 0 <= wa) by nra. assert (Hwb : 0 <= wb) by nra. assert (Hwc : 0 <= wc) by nra.
  assert (Ha : wa * va <= wa * A).
  { destruct HvA as [E|E]; [|apply Rmult_le_compat_l; lra].
    assert (wa = 0) by nra. subst wa. lra. }
  assert (Hb : wb * vb <= wb * B).
  { destruct HvB as [E|E]; [|apply Rmult_le_compat_l; lra].
    assert (wb = 0) by nra. subst wb. lra. }
  assert (Hc : wc * vc <= wc * C).
  { destruct HvC as [E|E]; [|apply Rmult_le_compat_l; lra].
    assert (wc = 0) by nra. subst wc. lra. }
  set (M := wa * A + wb * B + wc * C).
  assert (HMn : M * n <= n * n - 2 * n + 2).
  { subst M. replace ((wa * A + wb * B + wc * C) * n)
      with (wa * n * A + wb * n * B + wc * n * C) by ring.
    rewrite Ewa, Ewb, Ewc. exact Hsq. }
  assert (HM0 : 0 <= M) by (subst M; nra).
  assert (H3 : ta + tb + tc <= M * (r * r)).
  { subst M. assert (wa * va * (r * r) <= wa * A * (r * r)) by (apply Rmult_le_compat_r; lra).
    assert (wb * vb * (r * r) <= wb * B * (r * r)) by (apply Rmult_le_compat_r; lra).
    assert (wc * vc * (r * r) <= wc * C * (r * r)) by (apply Rmult_le_compat_r; lra).
    lra. }
  assert (H4 : p + tc <= (ta + tb + tc) * r) by nra.
  assert (H5 : p + tc <= M * (r * r) * r).
  { eapply Rle_trans; [exact H4|]. apply Rmult_le_compat_r; lra. }
  assert (H6 : r * r * r <= 1 + 4 * eps).
  { subst r. replace ((1 + eps) * (1 + eps) * (1 + eps))
      with (1 + 3 * eps + eps * (eps * (3 + eps))) by ring.
    assert (eps * (3 + eps) <= 1) by nra.
    assert (eps * (eps * (3 + eps)) <= eps * 1) by (apply Rmult_le_compat_l; lra). lra. }
  assert (H7 : 4 * eps * n <= 1) by nra.
  set (K := n * n - 2 * n + 2) in *.
  assert (HK : 0 <= K) by (subst K; nra).
  assert (H8 : 4 * eps * K <= n - 1).
  { subst K. replace (4 * eps * (n * n - 2 * n + 2)) with (4 * eps * n * (n - 2) + 8 * eps) by ring.
    assert (4 * eps * n * (n - 2) <= 1 * (n - 2)) by (apply Rmult_le_compat_r; lra).
    lra. }
  assert (H9 : M * (r * r) * r * n <= n * n).
  { replace (M * (r * r) * r * n) with (M * n * (r * r * r)) by ring.
    apply Rle_trans with (K * (r * r * r)).
    - apply Rmult_le_compat_r; [nra|exact HMn].
    - apply Rle_trans with (K * (1 + 4 * eps)); [apply Rmult_le_compat_l; lra|].
      subst K. lra. }
  assert (H10 : M * (r * r) * r <= n).
  { apply (Rmult_le_reg_r n); lra. }
  lra.
Qed.

Lemma three_buckets_squares (a b c n : Z) :
  (0 <= a -> 0 <= b -> 0 <= c -> a + b + c = n -> a < n -> b < n -> c < n ->
   a * a + b * b + c * c <= n * n - 2 * n + 2)%Z.
Proof. intros. subst n. nia. Qed.

Lemma get_pool_lengths (g : word) (pos : nat) (pool a b c : list word) :
  get_pool g pos pool = Ok (a, b, c) ->
  (length a + length b + length c = length pool)%nat.
Proof.
  intros E. apply get_pool_Ok_inv in E as (Hall & -> & -> & ->).
  pose proof (colour_filters_Permutation g pos pool Hall) as Hperm.
  apply Permutation_length in Hperm. rewrite !length_app in Hperm. lia.
Qed.

Lemma pow2_53 : pow2 53 = 9007199254740992.
Proof. rewrite pow2_IZR by lia. reflexivity. Qed.

Lemma score_spec_range (left : nat) (g : word) (pool : list word) (s : float) :
  (left <= L)%nat -> (Z.of_nat (length pool) < 2 ^ 50)%Z ->
  score_spec (T:=float) left g pool = Ok s ->
  exists v, fpos_val s v
            /\ 1 - 4 * INR left * eps <= v <= IZR (Z.of_nat (Nat.max 1 (length pool))).
Proof.
  pose proof eps_pos as He. pose proof eps_val as Hev. pose proof pow2_53 as H53.
  revert pool s. induction left as [|left IH]; intros pool s Hleft Hlen;
    cbn [score_spec]; destruct (length pool <=? 1)%nat eqn:Hle.
  1,3: intros [= <-]; exists 1; split;
       [exact (float_of_nat_val 1 ltac:(lia) ltac:(lia))|];
       match goal with |- context [INR ?k] => pose proof (pos_INR k) end;
       assert (1 <= IZR (Z.of_nat (Nat.max 1 (length pool)))) by (apply IZR_le; lia);
       split; [nra|lra].
  - apply Nat.leb_gt in Hle. intros [= <-].
    exists (IZR (Z.of_nat (length pool))). split.
    + apply float_of_nat_val; lia.
    + replace (Nat.max 1 (length pool)) with (length pool) by lia.
      assert (1 <= IZR (Z.of_nat (length pool))) by (apply IZR_le; lia).
      simpl INR. lra.
  - apply Nat.leb_gt in Hle.
    destruct (get_pool g (L - S left) pool) as [[[a b] c]|e] eqn:Eg; [|discriminate].
    cbn [mbind res_bind].
    pose proof (get_pool_lengths _ _ _ _ _ _ Eg) as Hsum.
    destruct (score_spec left g a) as [sa|] eqn:Ea; [|discriminate].
    destruct (score_spec left g b) as [sb|] eqn:Eb; [|discriminate].
    destruct (score_spec left g c) as [sc|] eqn:Ec; [|discriminate].
    cbn [mbind res_bind]. intros [= <-].
    destruct (IH a sa ltac:(lia) ltac:(lia) Ea) as (va & Hfa & Hva).
    destruct (IH b sb ltac:(lia) ltac:(lia) Eb) as (vb & Hfb & Hvb).
    destruct (IH c sc ltac:(lia) ltac:(lia) Ec) as (vc & Hfc & Hvc).
    set (N := length pool) in *.
    set (lo := 1 - 4 * INR left * eps) in *.
    assert (Hleft4 : 0 <= INR left <= 4).
    { split; [apply pos_INR|]. replace 4 with (INR 4) by (simpl; lra). apply le_INR. unfold L in Hleft. lia. }
    assert (Hlo : / 2 <= lo <= 1) by (subst lo; nra).
    assert (Hmax : forall x : list word, (length x <= N)%nat ->
                     IZR (Z.of_nat (Nat.max 1 (length x))) <= IZR (Z.of_nat N)).
    { intros x Hx. apply IZR_le. lia. }
    assert (Hn : 2 <= IZR (Z.of_nat N) <= 1125899906842624).
    { split; apply IZR_le; lia. }
    pose proof (Hmax a ltac:(lia)) as HmA. pose proof (Hmax b ltac:(lia)) as HmB.
    pose proof (Hmax c ltac:(lia)) as HmC.
    destruct (weighted_val a N sa va) as (ta & Fta & Bta & [Pta Uta] & Mta);
      [lia|lia|lia|exact Hfa|lra|].
    destruct (weighted_val b N sb vb) as (tb & Ftb & Btb & [Ptb Utb] & Mtb);
      [lia|lia|lia|exact Hfb|lra|].
    destruct (weighted_val c N sc vc) as (tc & Ftc & Btc & [Ptc Utc] & Mtc);
      [lia|lia|lia|exact Hfc|lra|].
    cbn [num_add float_arith].
    destruct (fnonneg_add _ _ ta tb Fta Ftb) as (p & Fp & Bp & Mp).
    { intros Hne. apply mid_range_bounds. lra. }
    { intros Hne. apply mid_range_bounds. lra. }
    assert (He1 : / 2 <= 1 - eps <= 1) by lra.
    assert (He2 : 1 <= 1 + eps <= 2) by lra.
    assert (H0a : 0 <= ta) by lra. assert (H0b : 0 <= tb) by lra.
    assert (H0c : 0 <= tc) by lra.
    assert (Pp : (p = 0 \/ / 2305843009213693952 <= p) /\ p <= 18014398509481984).
    { split.
      - destruct Pta as [Za|Pa], Ptb as [Zb|Pb].
        + left. subst ta tb. lra.
        + right. apply Rle_trans with ((ta + tb) * (1 - eps)); [|lra].
          replace (/ 2305843009213693952) with (/ 1152921504606846976 * / 2) by lra.
          apply Rmult_le_compat; lra.
        + right. apply Rle_trans with ((ta + tb) * (1 - eps)); [|lra].
          replace (/ 2305843009213693952) with (/ 1152921504606846976 * / 2) by lra.
          apply Rmult_le_compat; lra.
        + right. apply Rle_trans with ((ta + tb) * (1 - eps)); [|lra].
          replace (/ 2305843009213693952) with (/ 1152921504606846976 * / 2) by lra.
          apply Rmult_le_compat; lra.
      - apply Rle_trans with ((ta + tb) * (1 + eps)); [lra|].
        replace 18014398509481984 with (9007199254740992 * 2) by lra.
        apply Rmult_le_compat; lra. }
    destruct Pp as [Pp Up].
    destruct (fnonneg_add _ _ p tc Fp Ftc) as (v & Fv & Bv & Mv).
    { intros Hne. apply mid_range_bounds. lra. }
    { intros Hne. apply mid_range_bounds. lra. }
    (* the weights *)
    set (n := IZR (Z.of_nat N)) in *.
    set (A := IZR (Z.of_nat (length a))) in *.
    set (B := IZR (Z.of_nat (length b))) in *.
    set (C := IZR (Z.of_nat (length c))) in *.
    assert (HA : 0 <= A) by (apply IZR_le; lia).
    assert (HB : 0 <= B) by (apply IZR_le; lia).
    assert (HC : 0 <= C) by (apply IZR_le; lia).
    assert (HABC : A + B + C = n).
    { subst A B C n. rewrite <- !plus_IZR. f_equal. lia. }
    assert (Hinv : 0 < / n) by (apply Rinv_0_lt_compat; lra).
    assert (EA : A / n * n = A) by (field; lra).
    assert (EB : B / n * n = B) by (field; lra).
    assert (EC : C / n * n = C) by (field; lra).
    assert (HwA : 0 <= A / n) by (apply Rmult_le_pos; lra).
    assert (HwB : 0 <= B / n) by (apply Rmult_le_pos; lra).
    assert (HwC : 0 <= C / n) by (apply Rmult_le_pos; lra).
    assert (Hw1 : A / n + B / n + C / n = 1) by (rewrite <- HABC; field; lra).
    assert (Hlower : lo - 4 * eps <= v).
    { apply (node_lower (A / n) (B / n) (C / n) va vb vc ta tb tc p v lo); try lra. }
    assert (Hlower' : 1 - 4 * INR (S left) * eps <= v).
    { rewrite S_INR. subst lo. lra. }
    assert (Hvpos : 0 < v) by (subst lo; nra).
    assert (Fv' : fpos_val (weighted a N sa + weighted b N sb + weighted c N sc)%float v).
    { destruct Fv as [[_ Ev]|Fv]; [lra|exact Fv]. }
    exists v. split; [exact Fv'|]. split; [exact Hlower'|].
    replace (Nat.max 1 N) with N by lia. fold n.
    assert (Hzero : forall (x : list word) vx tx,
               length x = 0%nat ->
               IZR (Z.of_nat (length x)) / n * vx * ((1 - eps) * (1 - eps)) <= tx
               <= IZR (Z.of_nat (length x)) / n * vx * ((1 + eps) * (1 + eps)) -> tx = 0).
    { intros x vx tx Ex. rewrite Ex. change (IZR (Z.of_nat 0)) with 0.
      unfold Rdiv. rewrite !Rmult_0_l. lra. }
    assert (Hone : forall (x : list word) vx,
               vx <= IZR (Z.of_nat (Nat.max 1 (length x))) ->
               IZR (Z.of_nat (length x)) = 0 \/ vx <= IZR (Z.of_nat (length x))).
    { intros x vx Hvx. destruct (length x) as [|k]; [left; reflexivity|right].
      replace (Nat.max 1 (S k)) with (S k) in Hvx by lia. exact Hvx. }
    destruct (Nat.eq_dec (length a) N) as [EaN|NaN];
      [|destruct (Nat.eq_dec (length b) N) as [EbN|NbN];
        [|destruct (Nat.eq_dec (length c) N) as [EcN|NcN]]].
    + assert (tb = 0) by (apply (Hzero b vb); [lia|exact Btb]).
      assert (tc = 0) by (apply (Hzero c vc); [lia|exact Btc]).
      assert (ta <= n) by (apply (Mta EaN (Z.of_nat N)); fold n; lra).
      assert (p <= n) by (apply (Mp (Z.of_nat N)); fold n; lra).
      apply (Mv (Z.of_nat N)); fold n; lra.
    + assert (ta = 0) by (apply (Hzero a va); [lia|exact Bta]).
      assert (tc = 0) by (apply (Hzero c vc); [lia|exact Btc]).
      assert (tb <= n) by (apply (Mtb EbN (Z.of_nat N)); fold n; lra).
      assert (p <= n) by (apply (Mp (Z.of_nat N)); fold n; lra).
      apply (Mv (Z.of_nat N)); fold n; lra.
    + assert (ta = 0) by (apply (Hzero a va); [lia|exact Bta]).
      assert (tb = 0) by (apply (Hzero b vb); [lia|exact Btb]).
      assert (tc <= n) by (apply (Mtc EcN (Z.of_nat N)); fold n; lra).
      assert (p = 0) by nra.
      apply (Mv (Z.of_nat N)); fold n; lra.
    + assert (Hsq : A * A + B * B + C * C <= n * n - 2 * n + 2).
      { subst A B C n. rewrite <- !mult_IZR, <- minus_IZR, <- !plus_IZR.
        apply IZR_le. apply three_buckets_squares; lia. }
      assert (Hreal : p + tc <= n).
      { apply (node_upper A B C n (A / n) (B / n) (C / n) va vb vc ta tb tc p);
          try lra; try (apply Hone; lra). }
      apply (Mv (Z.of_nat N)); fold n; lra.
Qed.

End FloatScoreRange.

Section FloatOrder.
#[local] Open Scope R_scope.

Lemma fpos_leb (a b : float) (va vb : R) :
  fpos_val a va -> fpos_val b vb -> / 2 <= va -> / 2 <= vb -> va <= vb ->
  PrimFloat.leb a b = true.
Proof.
  intros (ma & ea & Ea & ->) (mb & eb & Eb & ->) Ha Hb Hab.
  assert (Hhalf : pow2 (-1022) <= / 2).
  { pose proof (pow2_le (-1022) (-1) ltac:(lia)) as H.
    assert (pow2 (-1) * 2 = 1) by (rewrite <- pow2_1, <- pow2_add; reflexivity). lra. }
  pose proof (Prim2SF_valid a) as Va. rewrite Ea in Va.
  pose proof (Prim2SF_valid b) as Vb. rewrite Eb in Vb.
  destruct (finite_normal ma ea Va) as [Da _]; [lra|].
  destruct (finite_normal mb eb Vb) as [Db _]; [lra|].
  apply Zdigits2_53 in Da; [|lia]. apply Zdigits2_53 in Db; [|lia].
  rewrite FloatAxioms.leb_spec, Ea, Eb. unfold SFleb, SFcompare.
  change (PosDef.Pos.compare_cont Eq ma mb) with (Pos.compare ma mb).
  pose proof (pow2_pos ea) as HPa. pose proof (pow2_pos eb) as HPb.
  destruct (Z.compare_spec ea eb) as [E|Hlt|Hgt]; [|reflexivity|exfalso].
  - subst eb. destruct (Pos.compare_spec ma mb) as [E|Hlt|Hgt]; try reflexivity.
    exfalso. assert (IZR (Zpos mb) < IZR (Zpos ma)) by (apply IZR_lt; lia). nra.
  - assert (H1 : IZR (Zpos mb) < pow2 53) by (rewrite pow2_IZR by lia; apply IZR_lt; lia).
    assert (H2 : pow2 52 <= IZR (Zpos ma)) by (rewrite pow2_IZR by lia; apply IZR_le; lia).
    assert (H3 : pow2 (52 + ea) <= IZR (Zpos ma) * pow2 ea).
    { rewrite pow2_add. apply Rmult_le_compat_r; lra. }
    assert (H4 : IZR (Zpos mb) * pow2 eb < pow2 (53 + eb)).
    { rewrite pow2_add. apply Rmult_lt_compat_r; lra. }
    pose proof (pow2_le (53 + eb) (52 + ea) ltac:(lia)). lra.
Qed.

Lemma score_floor_val : fpos_val (1 - 0x1p-47)%float (1 - 32 * eps).
Proof.
  exists 9007199254740928%positive, (-53)%Z. split; [vm_compute; reflexivity|].
  pose proof eps_val as Hev.
  assert (H : pow2 (-53) * 2 = eps).
  { unfold eps. rewrite <- pow2_1, <- pow2_add. reflexivity. }
  lra.
Qed.

End FloatOrder.

(** C4, as the specification states it: fails twice.  An empty pool scores 1,
    above its size 0; and on [pool6] the guess [about] splits the pool 2/3/1
    and each bucket scores 1, so that binary64 adds [2/6 + 3/6 + 1/6] to
    [0.99999999999999989], below 1. *)
Lemma score_outside_range :
  (calculate_score (T:=float) "about" 0 (Node_init []) = Ok (1%float, Node_init [])
   /\ PrimFloat.ltb (float_of_nat (length (@nil word))) 1 = true)
  /\ (exists s tree,
        calculate_score (T:=float) "about" 0 (Node_init pool6) = Ok (s, tree)
        /\ PrimFloat.ltb s 1 = true).
Proof.
  split.
  - split; reflexivity.
  - eexists _, _. split; vm_compute; reflexivity.
Qed.

(** The deficit below 1 is not always a single unit in the last place: on
    this pool of eleven strings the guess [dffch] tells all words apart,
    and binary64 returns [1 - 2^-52]. *)
Example score_two_ulps_below_one :
  (fun r => match r with
            | Ok (s, _) => PrimFloat.eqb s 0x1.ffffffffffffep-1
            | Raise _ => false
            end)
    (calculate_score (T:=float) "dffch" 0
       (Node_init ["cfcaa"; "cafdh"; "cegbf"; "gbegf"; "hdeff"; "efdhe"; "agcda"; "fhggf";
                   "eeddh"; "chghf"; "hhaaa"])) = true.
Proof. vm_compute. reflexivity. Qed.

(** C4, amended: for every guess and every pool, a pool of at most one word
    is scored exactly 1; and every binary64 score [s] that the scorer
    returns for a non-empty pool of fewer than [2^50] words satisfies
    [1 - 2^-47 <= s <= len(pool)]: the upper bound of the claim holds as
    stated, the lower bound up to the rounding of the weighted sums.  On
    words of at least five letters a score is returned. *)
Theorem score_in_range (g : word) (pool : list word) :
  (length pool <= 1 ->
   calculate_score (T:=float) g 0 (Node_init pool) = Ok (1%float, Node_init pool))
  /\ (forall (s : float) (tree : Node),
        calculate_score (T:=float) g 0 (Node_init pool) = Ok (s, tree) ->
        pool <> [] -> (Z.of_nat (length pool) < 2 ^ 50)%Z ->
        PrimFloat.leb s (float_of_nat (length pool)) = true
        /\ PrimFloat.leb (1 - 0x1p-47) s = true)
  /\ (L <= String.length g -> Forall (fun w => L <= String.length w) pool ->
      exists (s : float) (tree : Node),
        calculate_score (T:=float) g 0 (Node_init pool) = Ok (s, tree)).
Proof.
  split_and!.
  - intros Hlen. exact (calculate_score_small (T:=float) g 0 (Node_init pool) Hlen).
  - intros s tree Hs Hne Hlen.
    pose proof (calculate_score_spec (T:=float) g 0 (Node_init pool)) as E.
    rewrite Hs in E. cbn [fmap res_fmap fst node_pool Node_init] in E. symmetry in E.
    destruct (score_spec_range _ g pool s (Nat.le_refl _) Hlen E) as (v & Hv & Hlo & Hhi).
    assert (Hpos : 0 < length pool) by (destruct pool; [congruence|simpl; lia]).
    replace (Nat.max 1 (length pool)) with (length pool) in Hhi by lia.
    pose proof eps_pos as He. pose proof eps_val as Hev.
    assert (HL : INR L = 5%R) by (simpl; lra). rewrite HL in Hlo.
    assert (H1 : (1 <= IZR (Z.of_nat (length pool)))%R) by (apply IZR_le; lia).
    split.
    + apply (fpos_leb _ _ v (IZR (Z.of_nat (length pool)))); try lra; [exact Hv|].
      apply float_of_nat_val; lia.
    + apply (fpos_leb _ _ (1 - 32 * eps)%R v); try lra; [exact score_floor_val|exact Hv].
  - intros Hg Hpool.
    destruct (score_spec_invariant (T:=float) (fun _ _ _ => True) g Hg) with (left := L) (pool := pool)
      as (s & Hs & _); auto.
    destruct (calculate_score_of_spec g 0 (Node_init pool) s Hs) as [tree Ht]. eauto.
Qed.

Lemma score_in_range_witness :
  exists (s : float) (tree : Node),
    calculate_score (T:=float) "about" 0 (Node_init pool6) = Ok (s, tree)
    /\ PrimFloat.leb s (float_of_nat (length pool6)) = true
    /\ PrimFloat.leb (1 - 0x1p-47) s = true.
Proof.
  eexists _, _. split; [vm_compute; reflexivity|].
  eapply (proj1 (proj2 (score_in_range "about" pool6))).
  - vm_compute. reflexivity.
  - discriminate.
  - vm_compute. reflexivity.
Defined.

(** ** The score as a mean leaf size

    In exact arithmetic the score of a guess is the sum of the squares of
    the sizes of the pools of the childless nodes of its tree, divided by
    the size of the pool.  The binary64 score stays within a relative error
    of [2^-47] of that value, which is enough to order a guess that tells
    all words apart before one that does not. *)

Lemma built_score_spec {T : Type} `{Arith T} (g : word) (pos : nat) (p : list word) (n : Node) :
  built g pos p n -> score_spec (T:=T) (L - pos) g p = Ok (tree_score n).
Proof.
  induction 1 as [pos p Hleaf|pos p a b c na nb nc Hlen Hpos Hpool Ba IHa Bb IHb Bc IHc].
  - cbn [tree_score Node_init]. unfold MIN_POOL_SIZE.
    destruct (L - pos) as [|left] eqn:El; cbn [score_spec];
      destruct (length p <=? 1) eqn:Hle; try reflexivity.
    apply Nat.leb_gt in Hle. unfold L, LAST_POSITION in *. lia.
  - assert (El : L - pos = S (L - (pos + 1))) by (unfold L, LAST_POSITION in *; lia).
    rewrite El. cbn [score_spec].
    assert (Hle : (length p <=? 1) = false) by (apply Nat.leb_gt; lia). rewrite Hle.
    replace (L - S (L - (pos + 1))) with pos by (unfold L, LAST_POSITION in *; lia).
    rewrite Hpool. cbn [mbind res_bind]. rewrite IHa, IHb, IHc. cbn [mbind res_bind].
    cbn [tree_score].
    rewrite (built_node_pool _ _ _ _ Ba), (built_node_pool _ _ _ _ Bb),
      (built_node_pool _ _ _ _ Bc). reflexivity.
Qed.

Lemma sum_squares_app (l k : list (list word)) :
  sum_squares (l ++ k) = sum_squares l + sum_squares k.
Proof. induction l as [|p l IH]; simpl; [reflexivity|]. rewrite IH. lia. Qed.

Lemma sum_squares_told_apart (pools : list (list word)) :
  Forall (fun p => length p <= 1) pools -> sum_squares pools = length (concat pools).
Proof.
  induction 1 as [|p pools Hp _ IH]; simpl; [reflexivity|].
  rewrite length_app, IH. nia.
Qed.

Lemma sum_squares_not_told_apart (pools : list (list word)) :
  ~ Forall (fun p => length p <= 1) pools -> length (concat pools) + 2 <= sum_squares pools.
Proof.
  intros Hnot. apply not_Forall_Exists in Hnot; [|intros p; apply _].
  induction pools as [|p pools IH]; [inversion Hnot|].
  simpl. rewrite length_app.
  assert (Hall : length (concat pools) <= sum_squares pools).
  { clear. induction pools as [|q pools IH]; simpl; [lia|]. rewrite length_app. nia. }
  inversion Hnot as [? ? Hp|? ? Hrest]; subst.
  - unfold compose in Hp. assert (Hp2 : 2 <= length p) by lia.
    assert (length p + 2 <= length p * length p) by nia. lia.
  - specialize (IH Hrest). assert (length p <= length p * length p) by nia. lia.
Qed.

Section FloatScoreMean.
#[local] Open Scope R_scope.

Lemma fpos_val_inj (a : float) (v w : R) : fpos_val a v -> fnonneg_val a w -> v = w.
Proof.
  intros (m & e & E & ->) [[E' _]|(m' & e' & E' & ->)]; congruence.
Qed.

Lemma pow_below (k : nat) : (k <= 20)%nat -> 1 - INR k * eps <= (1 - eps) ^ k <= 1.
Proof.
  pose proof eps_pos as He. pose proof eps_val as Hev.
  induction k as [|k IH]; intros Hk.
  - simpl. lra.
  - specialize (IH ltac:(lia)). rewrite S_INR. cbn [pow].
    assert (0 <= INR k <= 20).
    { split; [apply pos_INR|]. replace 20 with (INR 20) by (simpl; lra). apply le_INR. lia. }
    split; nra.
Qed.

Lemma pow_above (k : nat) : (k <= 20)%nat -> 1 <= (1 + eps) ^ k <= 1 + 3 / 2 * INR k * eps.
Proof.
  pose proof eps_pos as He. pose proof eps_val as Hev.
  induction k as [|k IH]; intros Hk.
  - simpl. lra.
  - specialize (IH ltac:(lia)). rewrite S_INR. cbn [pow].
    assert (0 <= INR k <= 20).
    { split; [apply pos_INR|]. replace 20 with (INR 20) by (simpl; lra). apply le_INR. lia. }
    split; nra.
Qed.

Lemma node_close (wa wb wc va vb vc ta tb tc p s : R) :
  0 <= wa -> 0 <= wb -> 0 <= wc -> 0 <= va -> 0 <= vb -> 0 <= vc ->
  wa * va * ((1 - eps) * (1 - eps)) <= ta <= wa * va * ((1 + eps) * (1 + eps)) ->
  wb * vb * ((1 - eps) * (1 - eps)) <= tb <= wb * vb * ((1 + eps) * (1 + eps)) ->
  wc * vc * ((1 - eps) * (1 - eps)) <= tc <= wc * vc * ((1 + eps) * (1 + eps)) ->
  (ta + tb) * (1 - eps) <= p <= (ta + tb) * (1 + eps) ->
  (p + tc) * (1 - eps) <= s <= (p + tc) * (1 + eps) ->
  (wa * va + wb * vb + wc * vc) * (1 - eps) ^ 4 <= s
  <= (wa * va + wb * vb + wc * vc) * (1 + eps) ^ 4.
Proof.
  intros Hwa Hwb Hwc Hva Hvb Hvc Hta Htb Htc Hp Hs.
  pose proof eps_pos as He. pose proof eps_val as Hev.
  set (q := 1 - eps) in *. set (r := 1 + eps) in *.
  assert (Hq : / 2 <= q <= 1) by (subst q; lra).
  assert (Hr : 1 <= r <= 2) by (subst r; lra).
  set (U := wa * va + wb * vb + wc * vc).
  assert (HU : 0 <= U) by (subst U; nra).
  assert (Hqq : 0 <= q * q) by nra.
  assert (H0a : 0 <= ta).
  { apply Rle_trans with (wa * va * (q * q)); [|lra]. repeat apply Rmult_le_pos; lra. }
  assert (H0b : 0 <= tb).
  { apply Rle_trans with (wb * vb * (q * q)); [|lra]. repeat apply Rmult_le_pos; lra. }
  assert (H0c : 0 <= tc).
  { apply Rle_trans with (wc * vc * (q * q)); [|lra]. repeat apply Rmult_le_pos; lra. }
  assert (H3 : U * (q * q) <= ta + tb + tc <= U * (r * r)) by (subst U; lra).
  assert (H4 : (ta + tb + tc) * q <= p + tc <= (ta + tb + tc) * r) by nra.
  assert (H5 : U * (q * q) * q <= p + tc <= U * (r * r) * r).
  { split.
    - apply Rle_trans with ((ta + tb + tc) * q); [apply Rmult_le_compat_r; lra|lra].
    - apply Rle_trans with ((ta + tb + tc) * r); [lra|apply Rmult_le_compat_r; lra]. }
  replace (q ^ 4) with (q * q * q * q) by ring. replace (r ^ 4) with (r * r * r * r) by ring.
  split.
  - apply Rle_trans with ((p + tc) * q); [|lra].
    replace (U * (q * q * q * q)) with (U * (q * q) * q * q) by ring.
    apply Rmult_le_compat_r; lra.
  - apply Rle_trans with ((p + tc) * r); [lra|].
    replace (U * (r * r * r * r)) with (U * (r * r) * r * r) by ring.
    apply Rmult_le_compat_r; lra.
Qed.

Lemma built_score_mean (g : word) (pos : nat) (p : list word) (n : Node) :
  built g pos p n -> (Z.of_nat (length p) < 2 ^ 50)%Z ->
  exists v,
    fpos_val (tree_score (T:=float) n) v
    /\ IZR (Z.of_nat (sum_squares (leaf_pools n))) * (1 - eps) ^ (4 * (L - pos))
       <= v * IZR (Z.of_nat (length p))
       <= IZR (Z.of_nat (sum_squares (leaf_pools n))) * (1 + eps) ^ (4 * (L - pos)).
Proof.
  pose proof eps_pos as He. pose proof eps_val as Hev.
  induction 1 as [pos p Hleaf|pos p a b c na nb nc Hlen Hpos Hpool Ba IHa Bb IHb Bc IHc];
    intros Hp50.
  - pose proof (built_score_spec (T:=float) g pos p _ (built_leaf g pos p Hleaf)) as Hs.
    destruct (score_spec_range (L - pos) g p _ (Nat.le_sub_l L pos) Hp50 Hs) as (v & Hv & _).
    exists v. split; [exact Hv|].
    cbn [leaf_pools Node_init sum_squares foldr]. rewrite Nat.add_0_r.
    rewrite Nat2Z.inj_mul, mult_IZR.
    assert (Hq : 0 <= (1 - eps) ^ (4 * (L - pos)) <= 1).
    { split; [apply pow_le; lra|].
      apply Rle_trans with (1 ^ (4 * (L - pos))); [apply pow_incr; lra|rewrite pow1; lra]. }
    assert (Hr : 1 <= (1 + eps) ^ (4 * (L - pos))) by (apply pow_R1_Rle; lra).
    assert (HN : 0 <= IZR (Z.of_nat (length p))) by (apply IZR_le; lia).
    assert (Ev : v * IZR (Z.of_nat (length p))
                 = IZR (Z.of_nat (length p)) * IZR (Z.of_nat (length p))).
    { cbn [tree_score Node_init] in Hv. unfold MIN_POOL_SIZE in Hv.
      destruct (length p <=? 1)%nat eqn:Hle.
      - apply Nat.leb_le in Hle.
        pose proof (float_of_nat_val 1 ltac:(lia) ltac:(lia)) as H1.
        rewrite (fpos_val_inj _ _ _ Hv (or_intror H1)).
        destruct (length p) as [|[|k]]; [|reflexivity|lia].
        change (Z.of_nat 0) with 0%Z. change (Z.of_nat 1) with 1%Z. lra.
      - apply Nat.leb_gt in Hle.
        pose proof (float_of_nat_val (length p) ltac:(lia) ltac:(lia)) as H1.
        rewrite (fpos_val_inj _ _ _ Hv (or_intror H1)). reflexivity. }
    rewrite Ev. set (N2 := IZR (Z.of_nat (length p)) * IZR (Z.of_nat (length p))).
    assert (0 <= N2) by (subst N2; nra). split; nra.
  - pose proof (get_pool_lengths _ _ _ _ _ _ Hpool) as Hsum.
    destruct (IHa ltac:(lia)) as (va & Fva & Cva).
    destruct (IHb ltac:(lia)) as (vb & Fvb & Cvb).
    destruct (IHc ltac:(lia)) as (vc & Fvc & Cvc).
    pose proof (built_node g pos p a b c na nb nc Hlen Hpos Hpool Ba Bb Bc) as Bn.
    pose proof (built_score_spec (T:=float) _ _ _ _ Bn) as Hs.
    destruct (score_spec_range (L - pos) g p _ (Nat.le_sub_l L pos) Hp50 Hs) as (v & Hv & _).
    pose proof (built_score_spec (T:=float) _ _ _ _ Ba) as Hsa.
    pose proof (built_score_spec (T:=float) _ _ _ _ Bb) as Hsb.
    pose proof (built_score_spec (T:=float) _ _ _ _ Bc) as Hsc.
    destruct (score_spec_range (L - (pos + 1)) g a _ (Nat.le_sub_l L (pos + 1)) ltac:(lia) Hsa) as (va' & Fva' & Rva).
    destruct (score_spec_range (L - (pos + 1)) g b _ (Nat.le_sub_l L (pos + 1)) ltac:(lia) Hsb) as (vb' & Fvb' & Rvb).
    destruct (score_spec_range (L - (pos + 1)) g c _ (Nat.le_sub_l L (pos + 1)) ltac:(lia) Hsc) as (vc' & Fvc' & Rvc).
    rewrite <- (fpos_val_inj _ _ _ Fva (or_intror Fva')) in Rva.
    rewrite <- (fpos_val_inj _ _ _ Fvb (or_intror Fvb')) in Rvb.
    rewrite <- (fpos_val_inj _ _ _ Fvc (or_intror Fvc')) in Rvc.
    clear va' vb' vc' Fva' Fvb' Fvc'.
    set (N := length p) in *.
    assert (Hleft : 0 <= INR (L - (pos + 1)) <= 4).
    { split; [apply pos_INR|]. replace 4 with (INR 4) by (simpl; lra). apply le_INR.
      unfold L. lia. }
    assert (Hmax : forall x : list word, (length x <= N)%nat ->
                     IZR (Z.of_nat (Nat.max 1 (length x))) <= 1125899906842624).
    { intros x Hx. apply IZR_le. lia. }
    pose proof (Hmax a ltac:(lia)) as HmA. pose proof (Hmax b ltac:(lia)) as HmB.
    pose proof (Hmax c ltac:(lia)) as HmC.
    destruct (weighted_val a N (tree_score na) va) as (ta & Fta & Bta & [Pta Uta] & _);
      [lia|lia|lia|exact Fva|nra|].
    destruct (weighted_val b N (tree_score nb) vb) as (tb & Ftb & Btb & [Ptb Utb] & _);
      [lia|lia|lia|exact Fvb|nra|].
    destruct (weighted_val c N (tree_score nc) vc) as (tc & Ftc & Btc & [Ptc Utc] & _);
      [lia|lia|lia|exact Fvc|nra|].
    destruct (fnonneg_add _ _ ta tb Fta Ftb) as (q & Fq & Bq & _).
    { intros Hne. apply mid_range_bounds. lra. }
    { intros Hne. apply mid_range_bounds. lra. }
    assert (He1 : / 2 <= 1 - eps <= 1) by lra.
    assert (He2 : 1 <= 1 + eps <= 2) by lra.
    assert (H0a : 0 <= ta) by lra. assert (H0b : 0 <= tb) by lra.
    assert (H0c : 0 <= tc) by lra.
    assert (Pq : (q = 0 \/ / 2305843009213693952 <= q) /\ q <= 18014398509481984).
    { split.
      - destruct Pta as [Za|Pa], Ptb as [Zb|Pb].
        + left. subst ta tb. lra.
        + right. apply Rle_trans with ((ta + tb) * (1 - eps)); [|lra].
          replace (/ 2305843009213693952) with (/ 1152921504606846976 * / 2) by lra.
          apply Rmult_le_compat; lra.
        + right. apply Rle_trans with ((ta + tb) * (1 - eps)); [|lra].
          replace (/ 2305843009213693952) with (/ 1152921504606846976 * / 2) by lra.
          apply Rmult_le_compat; lra.
        + right. apply Rle_trans with ((ta + tb) * (1 - eps)); [|lra].
          replace (/ 2305843009213693952) with (/ 1152921504606846976 * / 2) by lra.
          apply Rmult_le_compat; lra.
      - apply Rle_trans with ((ta + tb) * (1 + eps)); [lra|].
        replace 18014398509481984 with (9007199254740992 * 2) by lra.
        apply Rmult_le_compat; lra. }
    destruct Pq as [Pq Uq].
    destruct (fnonneg_add _ _ q tc Fq Ftc) as (v' & Fv' & Bv' & _).
    { intros Hne. apply mid_range_bounds. lra. }
    { intros Hne. apply mid_range_bounds. lra. }
    assert (Ev : v = v').
    { apply (fpos_val_inj _ _ _ Hv). cbn [tree_score].
      rewrite (built_node_pool _ _ _ _ Ba), (built_node_pool _ _ _ _ Bb),
        (built_node_pool _ _ _ _ Bc). exact Fv'. }
    subst v'. exists v. split; [exact Hv|].
    set (n := IZR (Z.of_nat N)) in *.
    set (A := IZR (Z.of_nat (length a))) in *.
    set (B := IZR (Z.of_nat (length b))) in *.
    set (C := IZR (Z.of_nat (length c))) in *.
    assert (Hn : 2 <= n) by (apply IZR_le; lia).
    assert (HA : 0 <= A) by (apply IZR_le; lia).
    assert (HB : 0 <= B) by (apply IZR_le; lia).
    assert (HC : 0 <= C) by (apply IZR_le; lia).
    assert (Hinv : 0 < / n) by (apply Rinv_0_lt_compat; lra).
    assert (HwA : 0 <= A / n) by (apply Rmult_le_pos; lra).
    assert (HwB : 0 <= B / n) by (apply Rmult_le_pos; lra).
    assert (HwC : 0 <= C / n) by (apply Rmult_le_pos; lra).
    destruct (node_close (A / n) (B / n) (C / n) va vb vc ta tb tc q v) as [Hlo Hhi];
      try assumption; try lra; try nra.
    assert (EU : (A / n * va + B / n * vb + C / n * vc) * n = va * A + vb * B + vc * C)
      by (field; lra).
    cbn [leaf_pools]. rewrite !sum_squares_app, !Nat2Z.inj_add, !plus_IZR.
    set (SA := IZR (Z.of_nat (sum_squares (leaf_pools na)))) in *.
    set (SB := IZR (Z.of_nat (sum_squares (leaf_pools nb)))) in *.
    set (SC := IZR (Z.of_nat (sum_squares (leaf_pools nc)))) in *.
    replace (4 * (L - pos))%nat with (4 + 4 * (L - (pos + 1)))%nat
      by (unfold L, LAST_POSITION in *; lia).
    rewrite !pow_add.
    set (qh := (1 - eps) ^ (4 * (L - (pos + 1)))) in *.
    set (rh := (1 + eps) ^ (4 * (L - (pos + 1)))) in *.
    set (q4 := (1 - eps) ^ 4) in *. set (r4 := (1 + eps) ^ 4) in *.
    assert (Hq4 : 0 <= q4) by (subst q4; apply pow_le; lra).
    assert (Hr4 : 0 <= r4) by (subst r4; apply pow_le; lra).
    set (U := A / n * va + B / n * vb + C / n * vc) in *.
    split.
    + apply Rle_trans with (U * q4 * n); [|apply Rmult_le_compat_r; lra].
      replace (U * q4 * n) with (U * n * q4) by ring. rewrite EU.
      replace ((SA + (SB + SC)) * (q4 * qh)) with ((SA * qh + SB * qh + SC * qh) * q4) by ring.
      apply Rmult_le_compat_r; lra.
    + apply Rle_trans with (U * r4 * n); [apply Rmult_le_compat_r; lra|].
      replace (U * r4 * n) with (U * n * r4) by ring. rewrite EU.
      replace ((SA + (SB + SC)) * (r4 * rh)) with ((SA * rh + SB * rh + SC * rh) * r4) by ring.
      apply Rmult_le_compat_r; lra.
Qed.

End FloatScoreMean.

Section FloatScoreOrder.
#[local] Open Scope R_scope.

Lemma fpos_ltb (a b : float) (va vb : R) :
  fpos_val a va -> fpos_val b vb -> / 2 <= va -> va < vb ->
  PrimFloat.ltb a b = true.
Proof.
  intros (ma & ea & Ea & ->) (mb & eb & Eb & ->) Ha Hab.
  assert (Hhalf : pow2 (-1022) <= / 2).
  { pose proof (pow2_le (-1022) (-1) ltac:(lia)) as H.
    assert (pow2 (-1) * 2 = 1) by (rewrite <- pow2_1, <- pow2_add; reflexivity). lra. }
  pose proof (Prim2SF_valid a) as Va. rewrite Ea in Va.
  pose proof (Prim2SF_valid b) as Vb. rewrite Eb in Vb.
  destruct (finite_normal ma ea Va) as [Da _]; [lra|].
  destruct (finite_normal mb eb Vb) as [Db _]; [lra|].
  apply Zdigits2_53 in Da; [|lia]. apply Zdigits2_53 in Db; [|lia].
  rewrite FloatAxioms.ltb_spec, Ea, Eb. apply SFltb_finite.
  pose proof (pow2_pos ea) as HPa. pose proof (pow2_pos eb) as HPb.
  destruct (Z.lt_trichotomy ea eb) as [Hlt|[E|Hgt]]; [left; exact Hlt| |exfalso].
  - right. split; [exact E|]. subst eb.
    destruct (Pos.lt_total ma mb) as [Hm|[Hm|Hm]]; [exact Hm| |]; exfalso.
    + subst mb. lra.
    + assert (IZR (Zpos mb) < IZR (Zpos ma)) by (apply IZR_lt; lia). nra.
  - assert (H1 : IZR (Zpos mb) < pow2 53) by (rewrite pow2_IZR by lia; apply IZR_lt; lia).
    assert (H2 : pow2 52 <= IZR (Zpos ma)) by (rewrite pow2_IZR by lia; apply IZR_le; lia).
    assert (H3 : pow2 (52 + ea) <= IZR (Zpos ma) * pow2 ea).
    { rewrite pow2_add. apply Rmult_le_compat_r; lra. }
    assert (H4 : IZR (Zpos mb) * pow2 eb < pow2 (53 + eb)).
    { rewrite pow2_add. apply Rmult_lt_compat_r; lra. }
    pose proof (pow2_le (53 + eb) (52 + ea) ltac:(lia)). lra.
Qed.

Lemma pow2_47 : pow2 (-47) = 32 * eps.
Proof.
  unfold eps. replace (-47)%Z with (5 + -52)%Z by lia. rewrite pow2_add.
  rewrite (pow2_IZR 5) by lia. reflexivity.
Qed.

Lemma tree_score_mean (pool : list word) (g : word) (t : Tree) (s : float) :
  recursive_build_tree (T:=float) pool g = Ok (t, s) ->
  (Z.of_nat (length pool) < 2 ^ 50)%Z ->
  exists v : R,
    fpos_val s v
    /\ IZR (Z.of_nat (sum_squares (leaf_pools (root_node t)))) * (1 - 20 * eps)
       <= v * IZR (Z.of_nat (length pool))
       <= IZR (Z.of_nat (sum_squares (leaf_pools (root_node t)))) * (1 + 30 * eps).
Proof.
  intros Ht Hlen. apply recursive_build_tree_built in Ht as (_ & B & ->).
  destruct (built_score_mean g 0 pool _ B Hlen) as (v & Hv & Hlo & Hhi).
  exists v. split; [exact Hv|].
  replace (4 * (L - 0))%nat with 20%nat in * by reflexivity.
  pose proof (pow_below 20 ltac:(lia)) as [Hq _].
  pose proof (pow_above 20 ltac:(lia)) as [_ Hr].
  replace (INR 20) with 20 in * by (simpl; lra).
  assert (HS : 0 <= IZR (Z.of_nat (sum_squares (leaf_pools (root_node t)))))
    by (apply IZR_le; lia).
  split.
  - eapply Rle_trans; [|exact Hlo]. apply Rmult_le_compat_l; lra.
  - eapply Rle_trans; [exact Hhi|]. apply Rmult_le_compat_l; lra.
Qed.

End FloatScoreOrder.

(** X5: the binary64 score of a guess is, within a relative error of [2^-47],
    the sum of the squares of the sizes of the childless nodes' pools of
    its tree divided by the size of the pool: the mean, over the words of
    the pool, of the size of the leaf the word ends in.  (The value [v] is
    the real number the float [s] stands for.) *)
Theorem score_is_mean_leaf_size (pool : list word) (g : word) :
  (forall (t : Tree) (s : float),
      recursive_build_tree (T:=float) pool g = Ok (t, s) ->
      (Z.of_nat (length pool) < 2 ^ 50)%Z ->
      exists v : R,
        fpos_val s v
        /\ (IZR (Z.of_nat (sum_squares (leaf_pools (root_node t)))) * (1 - pow2 (-47))
            <= v * IZR (Z.of_nat (length pool))
            <= IZR (Z.of_nat (sum_squares (leaf_pools (root_node t)))) * (1 + pow2 (-47)))%R)
  /\ (L <= String.length g ->
      Forall (fun w => L <= String.length w) pool ->
      exists (t : Tree) (s : float), recursive_build_tree pool g = Ok (t, s)).
Proof.
  split; [|apply recursive_build_tree_total].
  intros t s Ht Hlen. destruct (tree_score_mean pool g t s Ht Hlen) as (v & Hv & Hlo & Hhi).
  exists v. split; [exact Hv|]. rewrite pow2_47. pose proof eps_pos as He.
  assert (HS : (0 <= IZR (Z.of_nat (sum_squares (leaf_pools (root_node t)))))%R)
    by (apply IZR_le; lia).
  split.
  - eapply Rle_trans; [|exact Hlo]. apply Rmult_le_compat_l; lra.
  - eapply Rle_trans; [exact Hhi|]. apply Rmult_le_compat_l; lra.
Qed.

(** X14: rounding never lets a guess that leaves two words together beat a
    guess that tells all words of the pool apart: on a pool of fewer than
    [2^46] words, if every childless node of the tree of [g1] holds at most
    one word and some childless node of the tree of [g2] holds two or more,
    the binary64 score of [g1] is strictly below that of [g2]. *)
Theorem telling_apart_scores_lower
        (pool : list word) (g1 g2 : word) (t1 t2 : Tree) (s1 s2 : float) :
  recursive_build_tree (T:=float) pool g1 = Ok (t1, s1) ->
  recursive_build_tree (T:=float) pool g2 = Ok (t2, s2) ->
  (Z.of_nat (length pool) < 2 ^ 46)%Z ->
  Forall (fun p => length p <= 1) (leaf_pools (root_node t1)) ->
  ~ Forall (fun p => length p <= 1) (leaf_pools (root_node t2)) ->
  PrimFloat.ltb s1 s2 = true.
Proof.
  intros H1 H2 Hlen Hall Hnot.
  destruct (tree_score_mean pool g1 t1 s1 H1 ltac:(lia)) as (v1 & Hv1 & Hlo1 & Hhi1).
  destruct (tree_score_mean pool g2 t2 s2 H2 ltac:(lia)) as (v2 & Hv2 & Hlo2 & Hhi2).
  apply recursive_build_tree_built in H1 as (_ & B1 & _).
  apply recursive_build_tree_built in H2 as (_ & B2 & _).
  apply built_leaves in B1 as [P1 _]. apply built_leaves in B2 as [P2 _].
  apply Permutation_length in P1, P2.
  apply sum_squares_told_apart in Hall. apply sum_squares_not_told_apart in Hnot.
  rewrite Hall, P1 in *. rewrite P2 in Hnot.
  pose proof eps_pos as He. pose proof eps_val as Hev.
  set (N := IZR (Z.of_nat (length pool))) in *.
  assert (HS2 : (N + 2 <= IZR (Z.of_nat (sum_squares (leaf_pools (root_node t2)))))%R).
  { subst N. change 2%R with (IZR 2). rewrite <- plus_IZR. apply IZR_le.
    apply Nat2Z.inj_le in Hnot. rewrite Nat2Z.inj_add in Hnot. exact Hnot. }
  assert (HN : (0 <= N < 70368744177664)%R).
  { subst N. split; [apply IZR_le; lia|apply IZR_lt; lia]. }
  assert (HeN : (eps * N <= / 64)%R) by nra.
  assert (Hlo2' : ((N + 2) * (1 - 20 * eps) <= v2 * N)%R).
  { eapply Rle_trans; [|exact Hlo2]. apply Rmult_le_compat_r; lra. }
  assert (Hlt : (v1 * N < v2 * N)%R) by nra.
  assert (HNpos : (0 < N)%R).
  { destruct (Rle_lt_or_eq_dec 0 N ltac:(lra)) as [Hp|Hz]; [exact Hp|].
    rewrite <- Hz in *. lra. }
  assert (Hv12 : (v1 < v2)%R) by (apply (Rmult_lt_reg_r N); lra).
  assert (Hv1lo : (/ 2 <= v1)%R).
  { apply (Rmult_le_reg_r N); [exact HNpos|]. nra. }
  exact (fpos_ltb s1 s2 v1 v2 Hv1 Hv2 Hv1lo Hv12).
Qed.

Lemma telling_apart_scores_lower_witness :
  exists (t1 t2 : Tree) (s1 s2 : float),
    recursive_build_tree (T:=float) pool6 "about" = Ok (t1, s1)
    /\ recursive_build_tree (T:=float) pool6 "zzzzz" = Ok (t2, s2)
    /\ (Z.of_nat (length pool6) < 2 ^ 46)%Z
    /\ Forall (fun p => length p <= 1) (leaf_pools (root_node t1))
    /\ ~ Forall (fun p => length p <= 1) (leaf_pools (root_node t2))
    /\ PrimFloat.ltb s1 s2 = true.
Proof.
  eexists _, _, _, _.
  split; [vm_compute; reflexivity|]. split; [vm_compute; reflexivity|].
  split; [vm_compute; reflexivity|].
  split; [vm_compute; repeat constructor|].
  split; [refine (bool_decide_unpack _ _); vm_compute; exact I|].
  eapply (telling_apart_scores_lower pool6 "about" "zzzzz").
  - vm_compute. reflexivity.
  - vm_compute. reflexivity.
  - vm_compute. reflexivity.
  - vm_compute. repeat constructor.
  - refine (bool_decide_unpack _ _). vm_compute. exact I.
Defined.
